(** * didtool.scorecard : ScoreCardTransformer

    A shallow embedding of [didtool/scorecard.py] and the properties of
    its fit / transform pipeline.

    Number model.  The program computes on IEEE doubles held in pandas
    columns.  Finite doubles are idealised as exact rationals ([Q]); the
    exceptional values the program itself tests for ([inf], [nan], a missing
    cell) are kept as constructors of [npfloat].  [math.log2] is the real
    logarithm to base two, so the per-bin score is a term over [R].
    Overflow and underflow are outside the model.  Rounding is modelled
    where it decides whether [fit] returns: the number of cells of
    [np.arange(0, 1, step)] is computed with [fl], the rounding of binary64.
    Everywhere else a value stands for the double next to it; a statement
    that would hinge on an exact tie or on the last bit of a quotient (the
    bin label of a probability on a bin edge, the rounding of a half) is
    stated over the computed label or up to the nearest integer instead.

    pandas model (release 1.0 and later).  A DataFrame with a [RangeIndex]
    is a list of rows, a column a list of cells, label [i] is position [i].
    Chained assignment [df[c][i] = v] writes into the table.
    [Series.argmax] and [Series.argmin] return the position of the first
    extremal cell: on the whole column this is its label, on the filtered
    column of [__adjust_odds] it is the position among the rows that are
    left, which the loops of [__adjust_odds] then use as a label.
    Assigning an array to a column raises when the lengths differ. *)

From Stdlib Require Import String.
From Stdlib Require Import ZArith QArith Qround Qabs List Bool Arith Lia.
From Stdlib Require Import Reals Lra Qreals.
From Stdlib Require Lqa.
From Stdlib Require Qpower.
From Stdlib Require DecimalString.
Import ListNotations.

Local Open Scope Q_scope.

(** ** Python exceptions and the result monad *)

Inductive pyerror : Type :=
| ValueError (msg : string)
| ZeroDivisionError
| IndexError.

Inductive result (A : Type) : Type :=
| Ok (a : A)
| Raise (e : pyerror).

Arguments Ok {A} a.
Arguments Raise {A} e.

Definition bind {A B : Type} (m : result A) (k : A -> result B) : result B :=
  match m with
  | Ok a => k a
  | Raise e => Raise e
  end.

Notation "x <- m ;; k" := (bind m (fun x => k))
  (at level 61, m at next level, right associativity).

Fixpoint mapM {A B : Type} (f : A -> result B) (l : list A) : result (list B) :=
  match l with
  | [] => Ok []
  | a :: l' => b <- f a ;; bs <- mapM f l' ;; Ok (b :: bs)
  end.

Definition is_ok {A : Type} (m : result A) : bool :=
  match m with Ok _ => true | Raise _ => false end.

Definition math_domain_error : pyerror := ValueError "math domain error".
Definition min_empty_error : pyerror := ValueError "min() arg is an empty sequence".
Definition max_empty_error : pyerror := ValueError "max() arg is an empty sequence".
Definition nan_to_int_error : pyerror := ValueError "cannot convert float NaN to integer".
Definition not_1dim_error : pyerror := ValueError "x and y should be 1-dim array.".

(** [str(n)] of a size *)
Definition py_str (n : nat) : string :=
  DecimalString.NilZero.string_of_uint (Nat.to_uint n).

(** lines 69-70: ["Row size of x(%s) and y(%s) do not match." % (nx, ny)] *)
Definition row_size_error (nx ny : nat) : pyerror :=
  ValueError (String.append "Row size of x("
                (String.append (py_str nx)
                   (String.append ") and y("
                      (String.append (py_str ny) ") do not match.")))).

(** pandas, on [df[c] = values] with [k] values for [n] rows *)
Definition length_error (k n : nat) : pyerror :=
  ValueError (String.append "Length of values ("
                (String.append (py_str k)
                   (String.append ") does not match length of index ("
                      (String.append (py_str n) ")")))).

(** ** float64 cells *)

Inductive npfloat : Type :=
| Fin (q : Q)       (* a finite value *)
| Inf (neg : bool)  (* +inf / -inf *)
| NaN.              (* nan, also pandas' missing cell *)

Definition Qzero (q : Q) : bool := Qeq_bool q 0.
Definition Qneg (q : Q) : bool := negb (Qle_bool 0 q).

(** [a - b] on float64 *)
Definition fsub (a b : npfloat) : npfloat :=
  match a, b with
  | NaN, _ | _, NaN => NaN
  | Fin x, Fin y => Fin (x - y)
  | Inf s, Fin _ => Inf s
  | Fin _, Inf s => Inf (negb s)
  | Inf s, Inf t => if Bool.eqb s t then NaN else Inf s
  end.

(** [a / b] on float64 columns (numpy: division by zero gives inf or nan) *)
Definition fdiv (a b : npfloat) : npfloat :=
  match a, b with
  | NaN, _ | _, NaN => NaN
  | Fin x, Fin y =>
      if Qzero y then (if Qzero x then NaN else Inf (Qneg x))
      else Fin (x / y)
  | Fin _, Inf _ => Fin 0
  | Inf s, Fin y => Inf (xorb s (Qneg y))
  | Inf _, Inf _ => NaN
  end.

(** [v == 0.0] *)
Definition feq0 (v : npfloat) : bool :=
  match v with Fin q => Qzero q | _ => false end.

Definition isinf (v : npfloat) : bool :=
  match v with Inf _ => true | _ => false end.

Definition isnan (v : npfloat) : bool :=
  match v with NaN => true | _ => false end.

(** ** Python helpers *)

(** [int(x)] on a finite float: truncation toward zero *)
Definition py_int (q : Q) : Z := Z.quot (Qnum q) (Zpos (Qden q)).

(** [round(x)] on a finite float: nearest integer, ties to even *)
Definition py_round (q : Q) : Z :=
  let f := Qfloor q in
  let r := q - inject_Z f in
  match Qcompare r (1 # 2) with
  | Lt => f
  | Gt => (f + 1)%Z
  | Eq => if Z.even f then f else (f + 1)%Z
  end.

(** ** binary64 rounding

    [fl q] is the double nearest to [q], ties to the even significand, for
    [q] in the normal range: the significand has 53 bits, the exponent is
    not bounded. *)

(** for [a > 0], the [e] with [2^e <= a < 2^(e+1)] *)
Definition binade (a : Q) : Z :=
  let e0 := (Z.log2 (Qnum a) - Z.log2 (Zpos (Qden a)))%Z in
  if Qle_bool (2 ^ e0) a then e0 else (e0 - 1)%Z.

Definition fl (q : Q) : Q :=
  if Qzero q then 0
  else
    let a := Qabs q in
    let u := 2 ^ (binade a - 52) in
    let r := inject_Z (py_round (a / u)) * u in
    if Qle_bool 0 q then r else - r.

(** builtin [max] / [min] over a column: the first extremal element *)
Definition py_max (l : list Q) : result Q :=
  match l with
  | [] => Raise max_empty_error
  | x :: l' => Ok (fold_left (fun m y => if Qlt_le_dec m y then y else m) l' x)
  end.

Definition py_min (l : list Q) : result Q :=
  match l with
  | [] => Raise min_empty_error
  | x :: l' => Ok (fold_left (fun m y => if Qlt_le_dec y m then y else m) l' x)
  end.

(** rows of a column paired with their labels *)
Definition labelled {A : Type} (l : list A) : list (nat * A) :=
  combine (seq 0 (length l)) l.

(** label of the first maximal / minimal row of a labelled column *)
Definition arg_best (better : Q -> Q -> bool) (l : list (nat * Q)) : nat :=
  match l with
  | [] => 0%nat
  | p :: l' =>
      fst (fold_left (fun b c => if better (snd c) (snd b) then c else b) l' p)
  end.

Definition Qltb (a b : Q) : bool := if Qlt_le_dec a b then true else false.

Definition argmax (l : list (nat * Q)) : nat := arg_best (fun c b => Qltb b c) l.
Definition argmin (l : list (nat * Q)) : nat := arg_best (fun c b => Qltb c b) l.

(** [col[i] = v] on a column; [i] is always a valid label where it is used *)
Fixpoint set_cell (i : nat) (v : Q) (col : list Q) : list Q :=
  match col, i with
  | [], _ => []
  | _ :: t, O => v :: t
  | h :: t, S j => h :: set_cell j v t
  end.

Definition cell (col : list Q) (i : nat) : Q := nth i col 0.

(** [range(a, b)] and [range(a - 1, -1, -1)] over labels *)
Definition range (a b : nat) : list nat := seq a (b - a).
Definition range_down (a : nat) : list nat := rev (seq 0 a).

(** ** The pre-binning table *)

Record binrow : Type := mkRow {
  hits : npfloat;
  bad_hits : npfloat;
  good_hits : npfloat;
  odds : npfloat
}.

Definition undefined_row : binrow := mkRow NaN NaN NaN NaN.

Definition row (df : list binrow) (i : nat) : binrow := nth i df undefined_row.

(** ** [__adjust_odds] *)

(** line 161: [col[np.isinf(col)] = 0]; line 162: [col.fillna(0)] *)
Definition zero_inf (v : npfloat) : npfloat := if isinf v then Fin 0 else v.
Definition fillna0 (v : npfloat) : npfloat := if isnan v then Fin 0 else v.

(** lines 160-162: the copied odds with inf and nan overwritten by 0; every
    cell is finite from here on *)
Definition clean_odds (v : npfloat) : Q :=
  match fillna0 (zero_inf v) with
  | Fin q => q
  | _ => 0
  end.

Definition cleaned (df : list binrow) : list Q :=
  map (fun r => clean_odds (odds r)) df.

(** [df[df['adjusted_odds'] != 0]['adjusted_odds']], labels kept *)
Definition nonzero_rows (col : list Q) : list (nat * Q) :=
  filter (fun p => negb (Qzero (snd p))) (labelled col).

(** line 164: [argmax] on the whole column, where position and label agree *)
Definition max_odds_index (col : list Q) : nat := argmax (labelled col).

(** line 166: [argmin] on the filtered column returns the position, among
    the rows with nonzero odds, of the first least one *)
Definition min_odds_index (col : list Q) : nat :=
  argmin (labelled (map snd (nonzero_rows col))).


(** loop state: the flag, the running odds, the column *)
Definition loop_state : Type := (bool * Q * list Q)%type.
Definition col_of (st : loop_state) : list Q := snd st.

(** lines 170-175 *)
Definition low_step (df : list binrow) (st : loop_state) (i : nat) : loop_state :=
  let '(is_zero_good, min_odds, col) := st in
  let is_zero_good := if feq0 (good_hits (row df i)) then true else is_zero_good in
  if is_zero_good
  then (is_zero_good, min_odds / 2, set_cell i (min_odds / 2) col)
  else (is_zero_good, min_odds, col).

(** lines 179-184 *)
Definition high_step (df : list binrow) (st : loop_state) (i : nat) : loop_state :=
  let '(is_zero_bad, max_odds, col) := st in
  let is_zero_bad := if feq0 (bad_hits (row df i)) then true else is_zero_bad in
  if is_zero_bad
  then (is_zero_bad, max_odds * 2, set_cell i (max_odds * 2) col)
  else (is_zero_bad, max_odds, col).

(** lines 187-193; the loop starts at [L + 1], so [i - 1] is a label *)
Definition mid_step (col : list Q) (i : nat) : list Q :=
  if Qzero (cell col i)
  then
    if negb (Qzero (cell col (i + 1)))
    then set_cell i ((cell col (i - 1) + cell col (i + 1)) / 2) col
    else set_cell i (cell col (i - 1)) col
  else col.

Definition low_loop (df : list binrow) (L : nat) (min_odds : Q) (col : list Q) : list Q :=
  snd (fold_left (low_step df) (range_down L) (false, min_odds, col)).

Definition high_loop (df : list binrow) (n_bins M : nat) (max_odds : Q) (col : list Q) : list Q :=
  snd (fold_left (high_step df) (range (M + 1) n_bins) (false, max_odds, col)).

Definition mid_loop (L M : nat) (col : list Q) : list Q :=
  fold_left mid_step (range (L + 1) (M - 1)) col.

(** the returned table differs from [df] by the new column only, which is
    what the function yields here *)
Definition adjust_odds (n_bins : nat) (df : list binrow) : result (list Q) :=
  let col := cleaned df in
  max_odds <- py_max col ;;
  let M := max_odds_index col in
  min_odds <- py_min (map snd (nonzero_rows col)) ;;
  let L := min_odds_index col in
  let col := low_loop df L min_odds col in
  let col := high_loop df n_bins M max_odds col in
  let col := mid_loop L M col in
  Ok col.

(** rows built from counts, as [__calc_bins] builds them *)
Definition counted (good bad : Z) : binrow :=
  let g := Fin (inject_Z good) in
  let b := Fin (inject_Z bad) in
  mkRow (Fin (inject_Z (good + bad))) b g (fdiv g b).

(** ** The estimator and its inputs *)

Record ScoreCardTransformer : Type := mkSelf {
  _n_bins : nat;
  _standard_score : Z;
  _standard_odds : Q;
  _pdo : Z;
  _bad_flag : bool
}.

(** [self._step = 1.0 / self._n_bins] *)
Definition _step (self : ScoreCardTransformer) : Q :=
  1 / inject_Z (Z.of_nat (_n_bins self)).

(** [__init__]; the defaults are [20, 500, 0.01, 20, True] *)
Definition init (n_bins : nat) (standard_score : Z) (standard_odds : Q)
    (pdo : Z) (bad_flag : bool) : result ScoreCardTransformer :=
  match n_bins with
  | O => Raise ZeroDivisionError
  | S _ => Ok (mkSelf n_bins standard_score standard_odds pdo bad_flag)
  end.

(** what [fit] inspects of an argument: whether it is an [np.ndarray], its
    [shape], and its cells in row-major order *)
Record array_like (A : Type) : Type := mkArr {
  is_ndarray : bool;
  shape : list nat;
  values : list A
}.

Arguments mkArr {A}.
Arguments is_ndarray {A}.
Arguments shape {A}.
Arguments values {A}.

Definition ndarray1 {A : Type} (l : list A) : array_like A :=
  mkArr true [List.length l] l.

Definition ndim {A : Type} (arr : array_like A) : nat := List.length (shape arr).

(** [__is_one_dim_array] *)
Definition is_one_dim_array {A : Type} (arr : array_like A) : bool :=
  is_ndarray arr && (ndim arr =? 1)%nat.

(** [arr.shape[0]] *)
Definition shape0 {A : Type} (arr : array_like A) : result nat :=
  match shape arr with
  | [] => Raise IndexError
  | n :: _ => Ok n
  end.

(** lines 65-70 of [fit] *)
Definition check_inputs {A B : Type} (x : array_like A) (y : array_like B) : result unit :=
  if negb (is_one_dim_array x) && negb (is_one_dim_array y)
  then Raise not_1dim_error
  else
    nx <- shape0 x ;;
    ny <- shape0 y ;;
    if negb (nx =? ny)%nat then Raise (row_size_error nx ny) else Ok tt.

(** a value of the dict given to [pd.DataFrame] *)
Definition as_column {A : Type} (arr : array_like A) : result (list A) :=
  if (ndim arr =? 1)%nat then Ok (values arr)
  else Raise (ValueError "Per-column arrays must each be 1-dimensional").

(** ** [__calc_bins] *)

(** line 111 *)
Definition adjust_prob (self : ScoreCardTransformer) (p : Q) : Q :=
  if _bad_flag self then 1 - p else p.

(** line 112, on the exact quotient; the doubles can give the next label for
    a probability within a rounding of a bin edge, so what is stated of the
    hits is stated over the labels of the score table *)
Definition bin_of (self : ScoreCardTransformer) (p : Q) : Z :=
  py_int (p / _step self).

(** [score_df]: columns prob (already adjusted), label, bin *)
Record sample : Type := mkSample {
  s_prob : Q;
  s_label : Z;
  s_bin : Z
}.

Definition score_df (self : ScoreCardTransformer) (x : list Q) (y : list Z) : list sample :=
  map (fun pl => let p := adjust_prob self (fst pl) in
                 mkSample p (snd pl) (bin_of self p))
      (combine x y).

Definition group (sdf : list sample) (b : nat) : list sample :=
  filter (fun s => (s_bin s =? Z.of_nat b)%Z) sdf.

(** [groupby(bin).count()] / [.sum()] aligned on [range(n_bins)]: a bin
    without a group is a missing cell *)
Definition group_count (sdf : list sample) (b : nat) : npfloat :=
  match group sdf b with
  | [] => NaN
  | g => Fin (inject_Z (Z.of_nat (List.length g)))
  end.

Definition group_sum (sdf : list sample) (b : nat) : npfloat :=
  match group sdf b with
  | [] => NaN
  | g => Fin (inject_Z (fold_right Z.add 0%Z (map s_label g)))
  end.

(** lines 120-132 *)
Definition prebin (self : ScoreCardTransformer) (sdf : list sample) (b : nat) : binrow :=
  let h := group_count sdf b in
  let s := group_sum sdf b in
  let good := if _bad_flag self then fsub h s else s in
  let bad := if _bad_flag self then s else fsub h good in
  mkRow h bad good (fdiv good bad).

Definition prebinning (self : ScoreCardTransformer) (sdf : list sample) : list binrow :=
  map (prebin self sdf) (seq 0 (_n_bins self)).

(** [Series.sum()], as line 247 takes the total of the hits: missing cells
    are skipped *)
Definition column_sum (col : list npfloat) : Q :=
  fold_right (fun v acc => match v with Fin q => q + acc | _ => acc end) 0 col.

(** [math.log2] *)
Definition log2 (x : R) : R := (ln x / ln 2)%R.

(** [int(x)] on a real: truncation toward zero *)
Definition int_R (x : R) : Z :=
  if Rle_dec 0 x then Int_part x else (- Int_part (- x))%Z.

(** the argument of [int] in lines 147-148 *)
Definition raw_score (self : ScoreCardTransformer) (x : Q) : R :=
  (IZR (_standard_score self)
   + IZR (_pdo self) * log2 (Q2R (x / _standard_odds self)))%R.

(** lines 146-148, the lambda: the division raises on a zero divisor, and
    [math.log2] on an argument that is not positive *)
Definition bin_score (self : ScoreCardTransformer) (x : Q) : result Z :=
  if Qzero (_standard_odds self) then Raise ZeroDivisionError
  else if Qlt_le_dec 0 (x / _standard_odds self)
  then Ok (int_R (raw_score self x))
  else Raise math_domain_error.

Record bin : Type := mkBin {
  prob_l : Q;
  prob_r : Q;
  mean_prob : Q;
  score : Z;
  counts : binrow;
  adjusted_odds : Q
}.

(** [np.arange(0, 1, step)]: numpy takes [ceil((1 - 0) / step)] cells, the
    quotient being the double that the double [step = 1.0 / n_bins] gives;
    for some [n_bins] (49, 98, 103, ...) it lies above [n_bins] *)
Definition arange_len (self : ScoreCardTransformer) : nat :=
  Z.to_nat (Qceiling (fl (1 / fl (1 / inject_Z (Z.of_nat (_n_bins self)))))).

Definition arange_step (self : ScoreCardTransformer) : list Q :=
  map (fun i => inject_Z (Z.of_nat i) * _step self) (seq 0 (arange_len self)).

(** [df[c] = values] on a table of [n] rows *)
Definition set_column (n : nat) (vals : list Q) : result (list Q) :=
  if (List.length vals =? n)%nat then Ok vals
  else Raise (length_error (List.length vals) n).

(** lines 135-142: the rows in their final order, with their adjusted odds *)
Definition ordered (self : ScoreCardTransformer) (rows : list (binrow * Q)) : list (binrow * Q) :=
  if _bad_flag self then rev rows else rows.

Definition finish_bin (self : ScoreCardTransformer) (pl : Q) (r : binrow * Q) : result bin :=
  sc <- bin_score self (snd r) ;;
  let pr := pl + _step self in
  Ok (mkBin pl pr ((pl + pr) / 2) sc (fst r) (snd r)).

Fixpoint finish_bins (self : ScoreCardTransformer) (pls : list Q) (rows : list (binrow * Q))
    : result (list bin) :=
  match pls, rows with
  | pl :: pls', r :: rows' =>
      b <- finish_bin self pl r ;;
      bs <- finish_bins self pls' rows' ;;
      Ok (b :: bs)
  | _, _ => Ok []
  end.

Definition calc_bins (self : ScoreCardTransformer) (x : list Q) (y : list Z)
    : result (list bin) :=
  let sdf := score_df self x y in
  let df := prebinning self sdf in
  col <- adjust_odds (_n_bins self) df ;;
  pls <- set_column (_n_bins self) (arange_step self) ;;
  finish_bins self pls (ordered self (combine df col)).

(** ** [__calc_mapping_df] *)

Record segment : Type := mkSeg {
  slope : Q;
  intercept : Q
}.

Definition Zmax_list (l : list Z) : result Z :=
  match l with
  | [] => Raise max_empty_error
  | z :: l' => Ok (fold_left Z.max l' z)
  end.

Definition Zmin_list (l : list Z) : result Z :=
  match l with
  | [] => Raise min_empty_error
  | z :: l' => Ok (fold_left Z.min l' z)
  end.

Record anchor : Type := mkAnchor {
  a_prob_l : Q;
  a_score_l : Q;
  a_prob_r : Q;
  a_score_r : Q
}.

Fixpoint zip_anchor (pl sl pr sr : list Q) : list anchor :=
  match pl, sl, pr, sr with
  | a :: pl', b :: sl', c :: pr', d :: sr' =>
      mkAnchor a b c d :: zip_anchor pl' sl' pr' sr'
  | _, _, _, _ => []
  end.

(** lines 202-218 *)
Definition anchors (self : ScoreCardTransformer) (binning_df : list bin) : result (list anchor) :=
  let means := map mean_prob binning_df in
  let scores := map score binning_df in
  let qscores := map inject_Z scores in
  hi <- Zmax_list scores ;;
  lo <- Zmin_list scores ;;
  let pdo := inject_Z (_pdo self) in
  let first := if _bad_flag self then inject_Z hi + pdo else inject_Z lo - pdo in
  let last := if _bad_flag self then inject_Z lo - pdo / 2 else inject_Z hi + pdo / 2 in
  Ok (zip_anchor (0 :: means) (first :: qscores) (means ++ [1]) (qscores ++ [last])).

(** lines 220-226, one row, on exact quotients; the doubles give a line that
    passes each anchor up to a rounding, so a value that is an exact half
    here can be rounded to either neighbour there *)
Definition segment_of (a : anchor) : result segment :=
  let den := a_prob_r a - a_prob_l a in
  if Qzero den then Raise ZeroDivisionError
  else Ok (mkSeg ((a_score_r a - a_score_l a) / den)
                 ((a_prob_r a * a_score_l a - a_prob_l a * a_score_r a) / den)).

Definition calc_mapping_df (self : ScoreCardTransformer) (binning_df : list bin)
    : result (list segment) :=
  anc <- anchors self binning_df ;;
  mapM segment_of anc.

(** ** [fit] and [transform] *)

Record fitted : Type := mkFitted {
  config : ScoreCardTransformer;
  binning_df : list bin;
  mapping_df : list segment
}.

Definition fit (self : ScoreCardTransformer) (x : array_like Q) (y : array_like Z)
    : result fitted :=
  _ <- check_inputs x y ;;
  xs <- as_column x ;;
  ys <- as_column y ;;
  bdf <- calc_bins self xs ys ;;
  mdf <- calc_mapping_df self bdf ;;
  Ok (mkFitted self bdf mdf).

(** line 92 *)
Definition segment_index (self : ScoreCardTransformer) (p : Q) : Z :=
  py_int ((p + _step self / 2) / _step self).

(** the left merge on the index of [mapping_df] *)
Definition lookup_segment (mdf : list segment) (idx : Z) : option segment :=
  if (idx <? 0)%Z then None else nth_error mdf (Z.to_nat idx).

(** lines 93-96 for one cell: an unmatched row has nan slope and intercept,
    and [round] of nan raises *)
Definition transform_one (m : fitted) (p : Q) : result Z :=
  match lookup_segment (mapping_df m) (segment_index (config m) p) with
  | Some seg => Ok (py_round (slope seg * p + intercept seg))
  | None => Raise nan_to_int_error
  end.

Definition transform (m : fitted) (x : list Q) : result (list Z) :=
  mapM (transform_one m) x.

(** * Vocabulary of the statements *)

(** ** About [__adjust_odds] *)

(** the tests of lines 171 and 180, and the updates of lines 174 and 183 *)
Definition low_trig (df : list binrow) (i : nat) : bool := feq0 (good_hits (row df i)).
Definition high_trig (df : list binrow) (i : nat) : bool := feq0 (bad_hits (row df i)).
Definition halve (m : Q) : Q := m / 2.
Definition double (m : Q) : Q := m * 2.

(** row [i] lies below [L], and a row with no good hit lies in [i .. L-1] *)
Definition low_triggered (df : list binrow) (i : nat) : bool :=
  existsb (low_trig df) (range i (min_odds_index (cleaned df))).

(** row [i] lies above [M], and a row with no bad hit lies in [M+1 .. i] *)
Definition high_triggered (df : list binrow) (n_bins i : nat) : bool :=
  (i <? n_bins)%nat &&
  existsb (high_trig df) (range (max_odds_index (cleaned df) + 1) (i + 1)).

(** the raw odds of row [i] are finite and not zero *)
Definition defined_odds (df : list binrow) (i : nat) : bool :=
  negb (Qzero (cell (cleaned df) i)).

(** every row has zero, infinite or undefined raw odds *)
Definition all_degenerate (df : list binrow) : bool :=
  forallb (fun r => Qzero (clean_odds (odds r))) df.

(** row [i] is one the middle loop visits, [L+1 <= i <= M-2], and one of the
    rows [L .. i+1] has finite nonzero raw odds *)
Definition mid_repaired (df : list binrow) (i : nat) : bool :=
  (min_odds_index (cleaned df) <? i)%nat
  && (i + 1 <? max_odds_index (cleaned df))%nat
  && existsb (defined_odds df) (range (min_odds_index (cleaned df)) (i + 2)).


(** one of the four ways in which [__adjust_odds] leaves a row with odds
    that are not zero *)
Definition repaired (df : list binrow) (n_bins i : nat) : bool :=
  defined_odds df i || low_triggered df i || high_triggered df n_bins i
  || mid_repaired df i.

(** counts are not negative, so neither are finite odds *)
Definition odds_nonneg (r : binrow) : bool :=
  match odds r with
  | Fin q => Qle_bool 0 q
  | _ => true
  end.


(** ** About [__calc_bins] *)

(** the bin label of the sample is one of [range(n_bins)] *)
Definition in_table (self : ScoreCardTransformer) (s : sample) : bool :=
  (0 <=? s_bin s)%Z && (s_bin s <? Z.of_nat (_n_bins self))%Z.

(** the bin label of the sample is one of [a .. a+k-1] *)
Definition bin_between (a k : nat) (s : sample) : bool :=
  (Z.of_nat a <=? s_bin s)%Z && (s_bin s <? Z.of_nat (a + k))%Z.

(** a probability of [0, 1) *)
Definition is_prob (p : Q) : bool := Qle_bool 0 p && Qltb p 1.

(** ** About scores *)

(** [z] is an integer nearest to [x] *)
Definition nearest_int (x : R) (z : Z) : Prop := (Rabs (x - IZR z) <= 1 / 2)%R.

(** an integer test for [z <= raw_score self x < z + 1] when the score is at
    least [standard_score >= 0] and [pdo >= 0]: with [x / standard_odds = a / b],
    [2^(z - standard_score) * b^pdo <= a^pdo < 2^(z - standard_score + 1) * b^pdo] *)
Definition score_check (self : ScoreCardTransformer) (x : Q) (z : Z) : bool :=
  let r := x / _standard_odds self in
  let a := Qnum r in
  let b := Zpos (Qden r) in
  let k := _pdo self in
  let e := (z - _standard_score self)%Z in
  negb (Qzero (_standard_odds self))
  && (0 <? a)%Z && (0 <=? k)%Z && (0 <=? z)%Z && (0 <=? e)%Z
  && (2 ^ e * b ^ k <=? a ^ k)%Z && (a ^ k <? 2 ^ (e + 1) * b ^ k)%Z.

(** ** About [fit] and [transform] *)

(** what a run of [fit] that returned [m] has established *)
Record fit_trace (self : ScoreCardTransformer) (m : fitted) : Prop := mkTrace {
  tr_config : config m = self;
  tr_n_bins : (0 < _n_bins self)%nat;
  tr_bins : List.length (binning_df m) = _n_bins self;
  tr_mapping : List.length (mapping_df m) = S (_n_bins self);
  tr_rows : exists xs ys col,
      adjust_odds (_n_bins self) (prebinning self (score_df self xs ys)) = Ok col /\
      arange_len self = _n_bins self /\
      finish_bins self (arange_step self)
        (ordered self (combine (prebinning self (score_df self xs ys)) col))
      = Ok (binning_df m);
  tr_segments : calc_mapping_df self (binning_df m) = Ok (mapping_df m)
}.

(** the segment index of [p] is a label of [mapping_df] *)
Definition in_segments (self : ScoreCardTransformer) (p : Q) : bool :=
  (0 <=? segment_index self p)%Z
  && (segment_index self p <=? Z.of_nat (_n_bins self))%Z.

(** [transform] as the specification words it: the index is the floor of
    [(p + step/2) / step], the result the rounded value of that segment's
    line at [p] *)
Definition spec_segment_index (self : ScoreCardTransformer) (p : Q) : Z :=
  Qfloor ((p + _step self / 2) / _step self).

Definition segment_at (m : fitted) (idx : Z) : segment :=
  nth (Z.to_nat idx) (mapping_df m) (mkSeg 0 0).

Definition spec_line (m : fitted) (p : Q) : Q :=
  let seg := segment_at m (spec_segment_index (config m) p) in
  slope seg * p + intercept seg.

Definition spec_transform_one (m : fitted) (p : Q) : Z := py_round (spec_line m p).

(** * Sample inputs *)

(** six bins: no good hit in bin 0, the least odds in bin 1, an all-bad bin 2
    in the middle, the greatest odds in bin 4, no bad hit in bin 5 *)
Definition six_bins : list binrow :=
  [counted 0 3; counted 1 2; counted 0 1; counted 1 1; counted 3 1; counted 2 0].

(** label 1 is good; bin 0 holds one good sample and no bad one *)
Definition self_two : ScoreCardTransformer := mkSelf 2 500 (1 # 100) 20 false.

(** label 1 is good; the middle bin holds one bad sample only *)
Definition self_three : ScoreCardTransformer := mkSelf 3 500 (1 # 100) 20 false.
Definition x_three : list Q := [1 # 10; 2 # 10; 5 # 10; 8 # 10; 8 # 10; 9 # 10].
Definition y_three : list Z := [1; 0; 0; 1; 1; 0]%Z.

(** a column vector of shape (4, 1), a vector of shape (4,), the same cells
    held by a one-dimensional container that is not an [np.ndarray], and a
    zero-dimensional array *)
Definition x_matrix : array_like Q := mkArr true [4; 1]%nat [1 # 10; 2 # 10; 6 # 10; 7 # 10].
Definition x_series : array_like Q := mkArr false [4]%nat [1 # 10; 2 # 10; 6 # 10; 7 # 10].
Definition y_vector : array_like Z := ndarray1 [1; 0; 1; 0]%Z.
Definition x_scalar : array_like Q := mkArr true []%nat [1 # 2].

(** label 1 is bad, and no sample is *)
Definition self_flag : ScoreCardTransformer := mkSelf 2 500 (1 # 100) 20 true.
Definition x_all_good : list Q := [1 # 10; 6 # 10; 7 # 10].
Definition y_all_good : list Z := [0; 0; 0]%Z.

(** label 1 is bad; the first sample has probability 0 *)
Definition x_edge : list Q := [0; 1 # 4; 3 # 4; 1 # 4; 3 # 4].
Definition y_edge : list Z := [1; 0; 1; 0; 1]%Z.

(** label 1 is good; bin 0 holds two good samples and one bad one, bin 1 one
    of each: the odds are 2 and 1, the scores 652 and 632 *)
Definition x_demo : list Q := [1 # 10; 2 # 10; 3 # 10; 6 # 10; 7 # 10].
Definition y_demo : list Z := [1; 1; 0; 1; 0]%Z.

Definition demo_bins : list bin :=
  [mkBin (0 # 2) (2 # 4) (4 # 16) 652 (counted 2 1) 2;
   mkBin (1 # 2) (4 # 4) (12 # 16) 632 (counted 1 1) 1].

Definition demo_mapping : list segment :=
  Eval vm_compute in
    match calc_mapping_df self_two demo_bins with
    | Ok mdf => mdf
    | Raise _ => []
    end.

Definition demo_model : fitted := mkFitted self_two demo_bins demo_mapping.

(** * The anchors of [__calc_mapping_df] and the series of [plot_bins] *)

(** line 95: the value of a segment's line at [p] *)
Definition line (seg : segment) (p : Q) : Q := slope seg * p + intercept seg.

(** [max(self.binning_df['score'])] and [min(...)] of a table that has rows *)
Definition top_score (bdf : list bin) : Z :=
  match Zmax_list (map score bdf) with Ok z => z | Raise _ => 0%Z end.

Definition bottom_score (bdf : list bin) : Z :=
  match Zmin_list (map score bdf) with Ok z => z | Raise _ => 0%Z end.

(** lines 211-218: the scores given to probability 0 and to probability 1 *)
Definition first_anchor (self : ScoreCardTransformer) (bdf : list bin) : Q :=
  if _bad_flag self then inject_Z (top_score bdf) + inject_Z (_pdo self)
  else inject_Z (bottom_score bdf) - inject_Z (_pdo self).

Definition last_anchor (self : ScoreCardTransformer) (bdf : list bin) : Q :=
  if _bad_flag self then inject_Z (bottom_score bdf) - inject_Z (_pdo self) / 2
  else inject_Z (top_score bdf) + inject_Z (_pdo self) / 2.

(** the [n_bins + 2] anchor nodes in order: segment [i] links node [i] to
    node [i + 1] *)
Definition anchor_probs (bdf : list bin) : list Q :=
  0 :: map mean_prob bdf ++ [1].

Definition anchor_scores (self : ScoreCardTransformer) (bdf : list bin) : list Q :=
  first_anchor self bdf :: map inject_Z (map score bdf) ++ [last_anchor self bdf].

Definition node_prob (bdf : list bin) (k : nat) : Q := nth k (anchor_probs bdf) 0.
Definition node_score (self : ScoreCardTransformer) (bdf : list bin) (k : nat) : Q :=
  nth k (anchor_scores self bdf) 0.

(** line 247 of [plot_bins]: [hits / hits.sum()] *)
Definition hit_rate (bdf : list bin) : list npfloat :=
  let total := Fin (column_sum (map (fun b => hits (counts b)) bdf)) in
  map (fun b => fdiv (hits (counts b)) total) bdf.

(** lines 248-249 of [plot_bins]: the share of label 1 in each bin *)
Definition pos_rate (self : ScoreCardTransformer) (bdf : list bin) : list npfloat :=
  map (fun b => fdiv (if _bad_flag self then bad_hits (counts b)
                      else good_hits (counts b))
                     (hits (counts b)))
      bdf.

(** labels are 0 or 1 *)
Definition binary_labels (y : list Z) : bool :=
  forallb (fun l => (l =? 0)%Z || (l =? 1)%Z) y.

(** a column of counts: missing cells and cells of at least 1 *)
Definition count_cell (v : npfloat) : Prop := v = NaN \/ exists h, v = Fin h /\ 1 <= h.

(** a cell of a rate column is missing or lies in [0, 1] *)
Definition rate_cell (v : npfloat) : bool :=
  match v with
  | Fin q => Qle_bool 0 q && Qle_bool q 1
  | NaN => true
  | Inf _ => false
  end.

(** ** A model fitted with [bad_flag]

    Label 1 is bad.  The probabilities above 1/2 hold two bad samples and a
    good one, those below 1/2 one bad sample and two good ones: in ascending
    [prob_l] the odds are 2 and 1/2, the scores 652 and 612. *)
Definition x_flag : list Q := [9 # 10; 8 # 10; 7 # 10; 1 # 10; 2 # 10; 3 # 10].
Definition y_flag : list Z := [1; 1; 0; 0; 0; 1]%Z.

Definition flag_bins : list bin :=
  [mkBin (0 # 2) (2 # 4) (4 # 16) 652 (counted 2 1) 2;
   mkBin (1 # 2) (4 # 4) (12 # 16) 612 (counted 1 2) (1 # 2)].

Definition flag_mapping : list segment :=
  Eval vm_compute in
    match calc_mapping_df self_flag flag_bins with
    | Ok mdf => mdf
    | Raise _ => []
    end.

Definition flag_model : fitted := mkFitted self_flag flag_bins flag_mapping.

(** ** Orientation of the scores *)

(** with [bad_flag] the scores are read downward *)
Definition oriented (bad : bool) (z : Z) : Z := if bad then (- z)%Z else z.

Definition ole (bad : bool) (a b : Q) : Prop := if bad then b <= a else a <= b.

Fixpoint nondecreasing (l : list Z) : bool :=
  match l with
  | a :: (b :: _) as t => (a <=? b)%Z && nondecreasing t
  | _ => true
  end.

(** the bin scores in ascending [prob_l] do not decrease without [bad_flag],
    and do not increase with it *)
Definition scores_follow_flag (self : ScoreCardTransformer) (bdf : list bin) : bool :=
  nondecreasing (map (fun b => oriented (_bad_flag self) (score b)) bdf).

(** a table with two rows above the greatest odds (row 3) that have no bad
    hit; the least nonzero odds are the first cell of the filtered column,
    so [L = 0] *)
Definition tail_bins : list binrow :=
  [counted 0 1; counted 0 2; counted 1 2; counted 3 1; counted 2 0; counted 1 0].

(** 49 bins: [1.0 / (1.0 / 49)] is the double above 49, and [np.arange]
    yields 50 cells; both samples fall into bin 24 *)
Definition self_49 : ScoreCardTransformer := mkSelf 49 500 (1 # 100) 20 false.
Definition x_49 : list Q := [1 # 2; 1 # 2].
Definition y_49 : list Z := [1; 0]%Z.

(** a table whose least nonzero odds (row 4) are the third cell of the
    filtered column, so [L = 2]: rows 1 and 0 have no good hit *)
Definition low_tail_bins : list binrow :=
  [counted 0 1; counted 0 2; counted 2 1; counted 3 1; counted 1 1; counted 2 0].

(** * Properties *)

(** ** Columns *)

Lemma set_cell_length : forall col i v,
  List.length (set_cell i v col) = List.length col.
Proof.
  induction col as [|h t IH]; intros [|j] v; simpl; auto.
Qed.

Lemma cell_set_cell_same : forall col i v,
  (i < List.length col)%nat -> cell (set_cell i v col) i = v.
Proof.
  unfold cell.
  induction col as [|h t IH]; intros [|j] v H; simpl in *; try lia; auto.
  apply IH. lia.
Qed.

Lemma cell_set_cell_other : forall col i j v,
  i <> j -> cell (set_cell i v col) j = cell col j.
Proof.
  unfold cell.
  induction col as [|h t IH]; intros [|i] [|j] v H; simpl; auto; try congruence.
Qed.

Lemma cell_nth_error : forall col i,
  (i < List.length col)%nat -> nth_error col i = Some (cell col i).
Proof.
  intros col i H. unfold cell. apply nth_error_nth'. exact H.
Qed.

Lemma cleaned_length : forall df, List.length (cleaned df) = List.length df.
Proof. intros df. unfold cleaned. apply length_map. Qed.

Lemma cell_cleaned : forall df i,
  cell (cleaned df) i = clean_odds (odds (row df i)).
Proof.
  intros df i. unfold cell, cleaned, row.
  change 0 with (clean_odds (odds undefined_row)).
  apply (map_nth (fun r => clean_odds (odds r))).
Qed.

Lemma Qzero_true : forall q, Qzero q = true <-> q == 0.
Proof. intros q. unfold Qzero. apply Qeq_bool_iff. Qed.

Lemma Qzero_false : forall q, Qzero q = false <-> ~ q == 0.
Proof.
  intros q. rewrite <- Qzero_true. destruct (Qzero q); split; congruence.
Qed.

(** ** Loops that write one cell per step *)

Lemma mid_step_length : forall col i,
  List.length (mid_step col i) = List.length col.
Proof.
  intros col i. unfold mid_step.
  destruct (Qzero (cell col i)); auto.
  destruct (negb (Qzero (cell col (i + 1)))); apply set_cell_length.
Qed.

Lemma mid_step_other : forall col i j,
  i <> j -> cell (mid_step col i) j = cell col j.
Proof.
  intros col i j H. unfold mid_step.
  destruct (Qzero (cell col i)); auto.
  destruct (negb (Qzero (cell col (i + 1)))); apply cell_set_cell_other; auto.
Qed.

Lemma mid_step_nonzero : forall col i j,
  Qzero (cell col j) = false -> cell (mid_step col i) j = cell col j.
Proof.
  intros col i j H.
  destruct (Nat.eq_dec i j) as [->|Hij].
  - unfold mid_step. rewrite H. reflexivity.
  - apply mid_step_other; auto.
Qed.

Section FoldFrame.
Variable St : Type.
Variable step : St -> nat -> St.
Variable view : St -> list Q.
Hypothesis step_other : forall st i j,
  i <> j -> cell (view (step st i)) j = cell (view st) j.
Hypothesis step_length : forall st i,
  List.length (view (step st i)) = List.length (view st).

Lemma fold_other : forall idx st j,
  ~ In j idx -> cell (view (fold_left step idx st)) j = cell (view st) j.
Proof.
  induction idx as [|i idx IH]; intros st j H; simpl; auto.
  rewrite IH.
  - apply step_other. intros ->. apply H. left; reflexivity.
  - intros Hin. apply H. right; exact Hin.
Qed.

Lemma fold_length : forall idx st,
  List.length (view (fold_left step idx st)) = List.length (view st).
Proof.
  induction idx as [|i idx IH]; intros st; simpl; auto.
  rewrite IH. apply step_length.
Qed.
End FoldFrame.

Lemma in_range : forall a b j, In j (range a b) <-> (a <= j < b)%nat.
Proof. intros a b j. unfold range. rewrite in_seq. lia. Qed.

Lemma in_range_down : forall a j, In j (range_down a) <-> (j < a)%nat.
Proof. intros a j. unfold range_down. rewrite <- in_rev, in_seq. lia. Qed.

Lemma mid_loop_nonzero : forall L M col j,
  Qzero (cell col j) = false -> cell (mid_loop L M col) j = cell col j.
Proof.
  intros L M col j. unfold mid_loop.
  generalize (range (L + 1) (M - 1)) as idx. intros idx. revert col.
  induction idx as [|i idx IH]; intros col H; simpl; auto.
  rewrite IH.
  - apply mid_step_nonzero; exact H.
  - rewrite mid_step_nonzero; exact H.
Qed.

Lemma mid_loop_length : forall L M col,
  List.length (mid_loop L M col) = List.length col.
Proof.
  intros. unfold mid_loop.
  apply (fold_length _ mid_step (fun c => c) mid_step_length).
Qed.

(** ** [max], [min] and the labels of the filtered column *)

Lemma fold_max_spec : forall l x,
  let m := fold_left (fun m y => if Qlt_le_dec m y then y else m) l x in
  In m (x :: l) /\ forall y, In y (x :: l) -> y <= m.
Proof.
  induction l as [|a l IH]; intros x; simpl.
  - split; [left; reflexivity|]. intros y [<-|[]]. apply Qle_refl.
  - destruct (Qlt_le_dec x a) as [Hlt|Hle].
    + destruct (IH a) as [Hin Hmax]. split.
      * simpl in Hin. destruct Hin as [H|H]; [right; left; exact H|right; right; exact H].
      * intros y [<-|[<-|Hy]].
        -- apply Qle_trans with a; [apply Qlt_le_weak; exact Hlt|].
           apply Hmax. left; reflexivity.
        -- apply Hmax. left; reflexivity.
        -- apply Hmax. right; exact Hy.
    + destruct (IH x) as [Hin Hmax]. split.
      * simpl in Hin. destruct Hin as [H|H]; [left; exact H|right; right; exact H].
      * intros y [<-|[<-|Hy]].
        -- apply Hmax. left; reflexivity.
        -- apply Qle_trans with x; [exact Hle|]. apply Hmax. left; reflexivity.
        -- apply Hmax. right; exact Hy.
Qed.

Lemma fold_min_in : forall l x,
  In (fold_left (fun m y => if Qlt_le_dec y m then y else m) l x) (x :: l).
Proof.
  induction l as [|a l IH]; intros x; simpl.
  - left; reflexivity.
  - destruct (Qlt_le_dec a x).
    + destruct (IH a) as [H|H]; [right; left; exact H|right; right; exact H].
    + destruct (IH x) as [H|H]; [left; exact H|right; right; exact H].
Qed.

Lemma py_max_spec : forall l x,
  In x l -> exists m, py_max l = Ok m /\ In m l /\ forall y, In y l -> y <= m.
Proof.
  intros [|a l] x Hx; [destruct Hx|].
  simpl. eexists. split; [reflexivity|]. apply fold_max_spec.
Qed.

Lemma py_min_spec : forall l x,
  In x l -> exists m, py_min l = Ok m /\ In m l.
Proof.
  intros [|a l] x Hx; [destruct Hx|].
  simpl. eexists. split; [reflexivity|]. apply fold_min_in.
Qed.

Lemma combine_seq_in : forall (l : list Q) a k,
  (k < List.length l)%nat -> In ((a + k)%nat, nth k l 0) (combine (seq a (List.length l)) l).
Proof.
  induction l as [|h t IH]; intros a k Hk; simpl in *; [lia|].
  destruct k as [|k].
  - left. f_equal. lia.
  - right. replace (a + S k)%nat with (S a + k)%nat by lia. apply IH. lia.
Qed.

Lemma combine_seq_inv : forall (l : list Q) a i v,
  In (i, v) (combine (seq a (List.length l)) l) ->
  (a <= i < a + List.length l)%nat /\ v = nth (i - a) l 0.
Proof.
  induction l as [|h t IH]; intros a i v H; simpl in *; [destruct H|].
  destruct H as [H|H].
  - inversion H; subst. rewrite Nat.sub_diag. split; [lia|reflexivity].
  - apply IH in H. destruct H as [Hr ->]. split; [lia|].
    replace (i - a)%nat with (S (i - S a)) by lia. reflexivity.
Qed.

Lemma nonzero_rows_in : forall col i,
  (i < List.length col)%nat -> Qzero (cell col i) = false ->
  In (i, cell col i) (nonzero_rows col).
Proof.
  intros col i Hi Hnz. unfold nonzero_rows. apply filter_In. split.
  - unfold labelled, cell. apply (combine_seq_in col 0 i Hi).
  - simpl. rewrite Hnz. reflexivity.
Qed.

Lemma nonzero_rows_inv : forall col i v,
  In (i, v) (nonzero_rows col) ->
  (i < List.length col)%nat /\ v = cell col i /\ Qzero v = false.
Proof.
  intros col i v H. unfold nonzero_rows in H. apply filter_In in H.
  destruct H as [Hin Hnz]. unfold labelled in Hin.
  apply combine_seq_inv in Hin. destruct Hin as [Hr ->].
  rewrite Nat.sub_0_r in *. simpl in Hnz.
  repeat split; [lia|]. destruct (Qzero (nth i col 0)); [discriminate|reflexivity].
Qed.

Lemma arg_best_in : forall better l p,
  In p l -> exists v, In (arg_best better l, v) l.
Proof.
  intros better [|a l] p Hp; [destruct Hp|].
  unfold arg_best. clear p Hp.
  assert (H : forall (l : list (nat * Q)) (b : nat * Q), In (fold_left
              (fun b c => if better (snd c) (snd b) then c else b) l b) (b :: l)).
  { clear. induction l as [|c l IH]; intros b; simpl.
    - left; reflexivity.
    - destruct (better (snd c) (snd b)).
      + destruct (IH c) as [H|H]; [right; left; exact H|right; right; exact H].
      + destruct (IH b) as [H|H]; [left; exact H|right; right; exact H]. }
  specialize (H l a).
  destruct (fold_left _ l a) as [i v]. exists v. exact H.
Qed.

Lemma nonzero_rows_length : forall col,
  (List.length (nonzero_rows col) <= List.length col)%nat.
Proof.
  intros col. unfold nonzero_rows.
  eapply Nat.le_trans; [apply filter_length_le|].
  unfold labelled. rewrite length_combine, length_seq. lia.
Qed.

(** [L] is a position of the filtered column, so a label of the table *)
Lemma min_odds_index_lt : forall col i,
  (i < List.length col)%nat -> Qzero (cell col i) = false ->
  (min_odds_index col < List.length col)%nat.
Proof.
  intros col i Hi Hnz. unfold min_odds_index, argmin.
  pose proof (nonzero_rows_length col) as Hle.
  pose proof (nonzero_rows_in col i Hi Hnz) as Hin.
  set (l := map snd (nonzero_rows col)).
  assert (Hl : List.length l = List.length (nonzero_rows col)) by apply length_map.
  assert (H0 : (0 < List.length l)%nat).
  { rewrite Hl. destruct (nonzero_rows col); [destruct Hin|simpl; lia]. }
  destruct (arg_best_in (fun c b => Qltb c b) (labelled l) (0%nat, nth 0 l 0)) as [v Hv].
  - unfold labelled. apply (combine_seq_in l 0 0 H0).
  - set (L := arg_best (fun c b => Qltb c b) (labelled l)) in *.
    unfold labelled in Hv. apply combine_seq_inv in Hv. lia.
Qed.

(** [adjust] runs to the end as soon as one row has odds that are finite
    and not zero *)
Lemma adjust_odds_runs : forall n df i,
  (i < List.length df)%nat -> Qzero (cell (cleaned df) i) = false ->
  exists max_odds min_odds,
    py_max (cleaned df) = Ok max_odds /\
    py_min (map snd (nonzero_rows (cleaned df))) = Ok min_odds /\
    adjust_odds n df =
      Ok (mid_loop (min_odds_index (cleaned df)) (max_odds_index (cleaned df))
            (high_loop df n (max_odds_index (cleaned df)) max_odds
               (low_loop df (min_odds_index (cleaned df)) min_odds (cleaned df)))).
Proof.
  intros n df i Hi Hnz.
  assert (Hi' : (i < List.length (cleaned df))%nat) by (rewrite cleaned_length; exact Hi).
  destruct (py_max_spec (cleaned df) (cell (cleaned df) i)) as [mx [Hmx _]].
  { unfold cell. apply nth_In. exact Hi'. }
  destruct (py_min_spec (map snd (nonzero_rows (cleaned df))) (cell (cleaned df) i))
    as [mn [Hmn _]].
  { apply (in_map snd _ _ (nonzero_rows_in _ i Hi' Hnz)). }
  exists mx, mn. repeat split; auto.
  unfold adjust_odds. rewrite Hmx. simpl. rewrite Hmn. simpl. reflexivity.
Qed.

(** ** The two tail loops

    Both tail loops have one shape: a flag that is raised by a trigger row and
    never lowered, and a running value that is rewritten and stored in every
    row visited while the flag is up. *)


Section TailLoop.
Variable trig : nat -> bool.
Variable op : Q -> Q.
Variable step : loop_state -> nat -> loop_state.

Hypothesis step_eq : forall f m col i,
  step (f, m, col) i =
    if trig i || f then (true, op m, set_cell i (op m) col) else (false, m, col).
Hypothesis op_pos : forall m, 0 < m -> 0 < op m.

Lemma tail_quiet : forall idx m col,
  (forall k, In k idx -> trig k = false) ->
  fold_left step idx (false, m, col) = (false, m, col).
Proof.
  induction idx as [|i idx IH]; intros m col H; simpl; auto.
  rewrite step_eq. rewrite (H i) by (left; reflexivity). simpl.
  apply IH. intros k Hk. apply H. right; exact Hk.
Qed.

Lemma tail_other : forall idx st j,
  ~ In j idx -> cell (col_of (fold_left step idx st)) j = cell (col_of st) j.
Proof.
  apply fold_other. intros [[f m] col] i j Hij. rewrite step_eq.
  destruct (trig i || f); simpl; auto using cell_set_cell_other.
Qed.

Lemma tail_length : forall idx st,
  List.length (col_of (fold_left step idx st)) = List.length (col_of st).
Proof.
  apply fold_length. intros [[f m] col] i. rewrite step_eq.
  destruct (trig i || f); simpl; auto using set_cell_length.
Qed.





(** a row visited before any trigger keeps its cell *)
Lemma tail_untouched : forall pre j post m col,
  (forall k, In k (pre ++ [j]) -> trig k = false) -> ~ In j post ->
  cell (col_of (fold_left step (pre ++ j :: post) (false, m, col))) j = cell col j.
Proof.
  intros pre j post m col Hq Hnot.
  replace (pre ++ j :: post) with ((pre ++ [j]) ++ post)
    by (rewrite <- app_assoc; reflexivity).
  rewrite fold_left_app, tail_quiet by exact Hq.
  apply tail_other. exact Hnot.
Qed.
End TailLoop.

Lemma low_step_eq : forall df f m col i,
  low_step df (f, m, col) i =
    if low_trig df i || f then (true, halve m, set_cell i (halve m) col)
    else (false, m, col).
Proof.
  intros. unfold low_step, low_trig, halve.
  destruct (feq0 (good_hits (row df i))); destruct f; reflexivity.
Qed.

Lemma high_step_eq : forall df f m col i,
  high_step df (f, m, col) i =
    if high_trig df i || f then (true, double m, set_cell i (double m) col)
    else (false, m, col).
Proof.
  intros. unfold high_step, high_trig, double.
  destruct (feq0 (bad_hits (row df i))); destruct f; reflexivity.
Qed.

Lemma low_loop_other : forall df L m col j,
  (L <= j)%nat -> cell (low_loop df L m col) j = cell col j.
Proof.
  intros df L m col j H. unfold low_loop.
  apply (tail_other (low_trig df) halve (low_step df) (low_step_eq df)
           (range_down L) (false, m, col) j).
  rewrite in_range_down. lia.
Qed.

Lemma high_loop_other : forall df n M m col j,
  (j <= M)%nat -> cell (high_loop df n M m col) j = cell col j.
Proof.
  intros df n M m col j H. unfold high_loop.
  apply (tail_other (high_trig df) double (high_step df) (high_step_eq df)
           (range (M + 1) n) (false, m, col) j).
  rewrite in_range. lia.
Qed.

Lemma low_loop_length : forall df L m col,
  List.length (low_loop df L m col) = List.length col.
Proof.
  intros. unfold low_loop.
  apply (tail_length (low_trig df) halve (low_step df) (low_step_eq df)
           (range_down L) (false, m, col)).
Qed.

Lemma high_loop_length : forall df n M m col,
  List.length (high_loop df n M m col) = List.length col.
Proof.
  intros. unfold high_loop.
  apply (tail_length (high_trig df) double (high_step df) (high_step_eq df)
           (range (M + 1) n) (false, m, col)).
Qed.



Lemma range_down_split : forall L k,
  (k < L)%nat ->
  range_down L = rev (seq (S k) (L - S k)) ++ k :: range_down k.
Proof.
  intros L k H. unfold range_down.
  replace L with (k + (1 + (L - S k)))%nat at 1 by lia.
  rewrite !seq_app, !rev_app_distr. simpl.
  rewrite <- app_assoc. simpl. replace (k + 1)%nat with (S k) by lia. reflexivity.
Qed.

Lemma range_split : forall a b k,
  (a <= k < b)%nat ->
  range a b = seq a (k - a) ++ k :: seq (S k) (b - S k).
Proof.
  intros a b k H. unfold range.
  replace (b - a)%nat with ((k - a) + (1 + (b - S k)))%nat by lia.
  rewrite !seq_app. simpl. replace (a + (k - a))%nat with k by lia.
  replace (k + 1)%nat with (S k) by lia. reflexivity.
Qed.


Lemma low_loop_untouched : forall df L m col i,
  existsb (low_trig df) (range i L) = false ->
  cell (low_loop df L m col) i = cell col i.
Proof.
  intros df L m col i Hex.
  destruct (Nat.le_gt_cases L i) as [Hge|Hlt]; [apply low_loop_other; exact Hge|].
  unfold low_loop. rewrite (range_down_split L i) by lia.
  apply (tail_untouched (low_trig df) halve (low_step df) (low_step_eq df)).
  - intros k Hk. apply in_app_or in Hk.
    assert (Hr : In k (range i L)).
    { apply in_range. destruct Hk as [Hk|[<-|[]]]; [|lia].
      apply in_rev in Hk. apply in_seq in Hk. lia. }
    destruct (low_trig df k) eqn:E; auto.
    rewrite <- Hex. symmetry. apply existsb_exists. exists k. auto.
  - rewrite in_range_down. lia.
Qed.


Lemma high_loop_untouched : forall df n M m col i,
  ((i <? n)%nat && existsb (high_trig df) (range (M + 1) (i + 1))) = false ->
  cell (high_loop df n M m col) i = cell col i.
Proof.
  intros df n M m col i Hex.
  destruct (Nat.le_gt_cases i M) as [Hle|Hgt]; [apply high_loop_other; exact Hle|].
  destruct (Nat.ltb_spec i n) as [Hn|Hn]; simpl in Hex.
  - unfold high_loop. rewrite (range_split (M + 1) n i) by lia.
    apply (tail_untouched (high_trig df) double (high_step df) (high_step_eq df)).
    + intros k Hk. apply in_app_or in Hk.
      assert (Hr : In k (range (M + 1) (i + 1))).
      { apply in_range. destruct Hk as [Hk|[<-|[]]]; [|lia].
        apply in_seq in Hk. lia. }
      destruct (high_trig df k) eqn:E; auto.
      rewrite <- Hex. symmetry. apply existsb_exists. exists k. auto.
    + rewrite in_seq. lia.
  - unfold high_loop.
    apply (tail_other (high_trig df) double (high_step df) (high_step_eq df)).
    rewrite in_range. lia.
Qed.

Lemma defined_row_cleaned : forall df i q,
  odds (row df i) = Fin q -> ~ q == 0 ->
  (i < List.length df)%nat /\ cell (cleaned df) i = q /\ Qzero (cell (cleaned df) i) = false.
Proof.
  intros df i q Ho Hq.
  assert (Hi : (i < List.length df)%nat).
  { destruct (Nat.lt_ge_cases i (List.length df)) as [H|H]; auto.
    unfold row in Ho. rewrite nth_overflow in Ho by exact H. discriminate. }
  assert (Hc : cell (cleaned df) i = q) by (rewrite cell_cleaned, Ho; reflexivity).
  repeat split; auto. rewrite Hc. apply Qzero_false. exact Hq.
Qed.

(** the cells [adjust] leaves as they were cleaned *)
Lemma adjust_odds_frame : forall n df adj i,
  adjust_odds n df = Ok adj ->
  defined_odds df i = true -> low_triggered df i = false ->
  high_triggered df n i = false ->
  cell adj i = cell (cleaned df) i.
Proof.
  intros n df adj i Hadj Hdef Hlow Hhigh.
  unfold adjust_odds in Hadj.
  destruct (py_max (cleaned df)) as [mx|]; [|discriminate]. simpl in Hadj.
  destruct (py_min (map snd (nonzero_rows (cleaned df)))) as [mn|]; [|discriminate].
  simpl in Hadj. inversion Hadj; subst adj; clear Hadj.
  unfold defined_odds in Hdef. apply negb_true_iff in Hdef.
  assert (H2 : cell (high_loop df n (max_odds_index (cleaned df)) mx
                 (low_loop df (min_odds_index (cleaned df)) mn (cleaned df))) i
               = cell (cleaned df) i).
  { rewrite high_loop_untouched by exact Hhigh.
    apply low_loop_untouched. exact Hlow. }
  rewrite mid_loop_nonzero; rewrite H2; auto.
Qed.

Lemma adjust_odds_length : forall n df adj,
  adjust_odds n df = Ok adj -> List.length adj = List.length df.
Proof.
  intros n df adj Hadj. unfold adjust_odds in Hadj.
  destruct (py_max (cleaned df)) as [mx|]; [|discriminate]. simpl in Hadj.
  destruct (py_min (map snd (nonzero_rows (cleaned df)))) as [mn|]; [|discriminate].
  simpl in Hadj. inversion Hadj; subst adj.
  rewrite mid_loop_length, high_loop_length, low_loop_length. apply cleaned_length.
Qed.

Lemma existsb_empty_range : forall (f : nat -> bool) a b,
  (b <= a)%nat -> existsb f (range a b) = false.
Proof.
  intros f a b H. unfold range. replace (b - a)%nat with 0%nat by lia. reflexivity.
Qed.

(** ** The middle loop *)


Lemma Qpos_nonzero : forall q, 0 < q -> Qzero q = false.
Proof.
  intros q Hq. apply Qzero_false. intros H. rewrite H in Hq.
  apply (Qlt_irrefl 0). exact Hq.
Qed.









(** ** Positivity after [__adjust_odds] *)







(** *** What the tail loops leave to the middle loop *)

Lemma mid_loop_other : forall L M col j,
  ~ In j (range (L + 1) (M - 1)) -> cell (mid_loop L M col) j = cell col j.
Proof.
  intros L M col j H. unfold mid_loop.
  apply (fold_other _ mid_step (fun c => c) mid_step_other _ col j H).
Qed.



Section AfterTails.
Variable n : nat.
Variable df : list binrow.
Variables mx mn : Q.
Hypothesis Hlen : List.length df = n.
Hypothesis Hnn : forallb odds_nonneg df = true.
Hypothesis Hmxp : 0 < mx.
Hypothesis Hmnp : 0 < mn.









End AfterTails.


(** C10: every row [i] with [L <= i <= M] whose raw odds are finite and not
    zero keeps exactly these odds through [adjust]; a cell that [adjust]
    rewrites belongs to a row of zero or undefined odds, to a row at or below
    the low-end trigger, or to a row at or above the high-end trigger. *)
Theorem adjust_preserves_defined_odds : forall n df i q,
  odds (row df i) = Fin q -> ~ q == 0 ->
  (min_odds_index (cleaned df) <= i <= max_odds_index (cleaned df))%nat ->
  exists adj,
    adjust_odds n df = Ok adj /\ nth_error adj i = Some q /\
    (forall j, cell adj j <> cell (cleaned df) j ->
       defined_odds df j = false \/ low_triggered df j = true
         \/ high_triggered df n j = true).
Proof.
  intros n df i q Ho Hq [HL HM].
  destruct (defined_row_cleaned df i q Ho Hq) as [Hi [Hc Hz]].
  destruct (adjust_odds_runs n df i Hi Hz) as [mx [mn [_ [_ Hadj]]]].
  eexists. split; [exact Hadj|]. split.
  - rewrite cell_nth_error.
    + f_equal. rewrite <- Hc. apply (adjust_odds_frame n df _ i Hadj).
      * unfold defined_odds. rewrite Hz. reflexivity.
      * unfold low_triggered. apply existsb_empty_range. exact HL.
      * unfold high_triggered. rewrite existsb_empty_range by lia.
        apply andb_false_r.
    + rewrite (adjust_odds_length n df _ Hadj). exact Hi.
  - intros j Hj.
    destruct (defined_odds df j) eqn:Ed; [|left; reflexivity].
    destruct (low_triggered df j) eqn:El; [right; left; reflexivity|].
    destruct (high_triggered df n j) eqn:Eh; [right; right; reflexivity|].
    exfalso. apply Hj. apply (adjust_odds_frame n df _ j Hadj); assumption.
Qed.


(** on [six_bins] the least nonzero odds are the first cell of the filtered
    column, [L = 0]: the lower loop does not run and row 0 keeps its 0 *)
Example adjust_six_bins :
  min_odds_index (cleaned six_bins) = 0%nat /\
  adjust_odds 6 six_bins = Ok [0 # 3; 1 # 2; 3 # 4; 1; 3; 6] /\
  map (repaired six_bins 6) (seq 0 6) = [false; true; true; true; true; true].
Proof. repeat split; vm_compute; reflexivity. Qed.


Lemma adjust_preserves_defined_odds_witness :
  exists adj,
    adjust_odds 6 six_bins = Ok adj /\ nth_error adj 3 = Some 1 /\
    (forall j, cell adj j <> cell (cleaned six_bins) j ->
       defined_odds six_bins j = false \/ low_triggered six_bins j = true
         \/ high_triggered six_bins 6 j = true).
Proof.
  apply (adjust_preserves_defined_odds 6 six_bins 3 1);
    [reflexivity | discriminate | vm_compute; lia].
Defined.

(** C2 at its failing input: the cleaned odds are [1; 0; 2], so [L = 0],
    [M = 2] and row 1 lies strictly between them with odds 0 and a nonzero
    next row; the middle loop runs over [range(1, 1)], visits nothing, and the
    cell stays 0 where the average would be 3/2. *)
Theorem mid_loop_skips_row_below_max :
  let df := prebinning self_three (score_df self_three x_three y_three) in
  cleaned df = [1; 0; 2] /\
  min_odds_index (cleaned df) = 0%nat /\
  max_odds_index (cleaned df) = 2%nat /\
  range (0 + 1) (2 - 1) = [] /\
  adjust_odds 3 df = Ok [1; 0; 2] /\
  ~ (cell [1; 0; 2] 0 + cell [1; 0; 2] 2) / 2 == 0.
Proof.
  repeat split; try (vm_compute; reflexivity).
  vm_compute. discriminate.
Qed.

(** ** The guards of [fit] *)

(** the first guard fires exactly when both arguments fail the test *)
Lemma check_inputs_not_1dim : forall (A B : Type) (x : array_like A) (y : array_like B),
  check_inputs x y = Raise not_1dim_error <->
  is_one_dim_array x = false /\ is_one_dim_array y = false.
Proof.
  intros A B x y. unfold check_inputs. split.
  - destruct (is_one_dim_array x) eqn:Ex, (is_one_dim_array y) eqn:Ey; simpl; auto;
      intros H; exfalso;
      destruct (shape0 x) as [nx|ex] eqn:Sx; simpl in H;
      try (unfold shape0 in Sx; destruct (shape x); inversion Sx; subst; discriminate);
      destruct (shape0 y) as [ny|ey] eqn:Sy; simpl in H;
      try (unfold shape0 in Sy; destruct (shape y); inversion Sy; subst; discriminate);
      destruct (negb (nx =? ny)%nat); discriminate.
  - intros [-> ->]. reflexivity.
Qed.

(** two one-dimensional arrays of different lengths are refused *)
Lemma check_inputs_row_size : forall (A B : Type) (xs : list A) (ys : list B),
  List.length xs <> List.length ys ->
  check_inputs (ndarray1 xs) (ndarray1 ys)
  = Raise (row_size_error (List.length xs) (List.length ys)).
Proof.
  intros A B xs ys H. unfold check_inputs, ndarray1, is_one_dim_array, ndim, shape0.
  simpl. apply Nat.eqb_neq in H. rewrite H. reflexivity.
Qed.

(** C3 at its failing input: [x] has shape (4, 1) and [y] shape (4,).  The
    test of line 65 asks for both arguments to fail, so it does not raise, the
    row counts agree, and [fit] goes on to [__calc_bins] without the error of
    its own that the message announces.  With a zero-dimensional [x] the
    guard is passed as well and [x.shape[0]] raises an [IndexError]; with the
    same cells in a one-dimensional container that is not an [np.ndarray],
    [fit] runs to completion. *)
Theorem fit_guard_needs_both_inputs_bad :
  is_one_dim_array x_matrix = false /\
  is_one_dim_array y_vector = true /\
  check_inputs x_matrix y_vector = Ok tt /\
  fit self_two x_matrix y_vector <> Raise not_1dim_error /\
  is_one_dim_array x_scalar = false /\
  fit self_two x_scalar y_vector = Raise IndexError /\
  is_one_dim_array x_series = false /\
  is_ok (fit self_two x_series y_vector) = true.
Proof.
  repeat split; try (lazy; reflexivity).
  lazy. discriminate.
Qed.

(** ** Degenerate tables *)

Lemma filter_nil : forall (A : Type) (f : A -> bool) (l : list A),
  (forall a, In a l -> f a = false) -> filter f l = [].
Proof.
  intros A f. induction l as [|a l IH]; intros H; simpl; auto.
  rewrite (H a) by (left; reflexivity). apply IH.
  intros b Hb. apply H. right; exact Hb.
Qed.

Lemma nonzero_rows_none : forall col,
  (forall i, Qzero (cell col i) = true) -> nonzero_rows col = [].
Proof.
  intros col H. unfold nonzero_rows. apply filter_nil.
  intros [i v] Hin. unfold labelled in Hin. apply combine_seq_inv in Hin.
  destruct Hin as [_ ->]. simpl. rewrite Nat.sub_0_r.
  fold (cell col i). rewrite H. reflexivity.
Qed.

Lemma prebinning_length : forall self sdf,
  List.length (prebinning self sdf) = _n_bins self.
Proof.
  intros. unfold prebinning. rewrite length_map, length_seq. reflexivity.
Qed.

Lemma adjust_odds_degenerate : forall n df,
  df <> [] -> (forall i, defined_odds df i = false) ->
  adjust_odds n df = Raise min_empty_error.
Proof.
  intros n df Hne Hdeg. unfold adjust_odds.
  destruct df as [|r df]; [congruence|].
  change (py_max (cleaned (r :: df))) with
    (Ok (fold_left (fun m y => if Qlt_le_dec m y then y else m) (cleaned df)
           (clean_odds (odds r)))).
  cbn [bind]. rewrite nonzero_rows_none; [reflexivity|].
  intros i. specialize (Hdeg i). unfold defined_odds in Hdeg.
  apply negb_false_iff in Hdeg. exact Hdeg.
Qed.

Lemma as_column_ndarray1 : forall (A : Type) (l : list A),
  as_column (ndarray1 l) = Ok l.
Proof. reflexivity. Qed.

Lemma check_inputs_ndarray1 : forall (A B : Type) (xs : list A) (ys : list B),
  List.length xs = List.length ys ->
  check_inputs (ndarray1 xs) (ndarray1 ys) = Ok tt.
Proof.
  intros A B xs ys H. unfold check_inputs, ndarray1, is_one_dim_array, ndim, shape0.
  simpl. rewrite H, Nat.eqb_refl. reflexivity.
Qed.

Lemma all_degenerate_spec : forall df,
  all_degenerate df = true -> forall i, defined_odds df i = false.
Proof.
  intros df H i. unfold defined_odds. apply negb_false_iff.
  rewrite cell_cleaned. unfold row.
  destruct (Nat.lt_ge_cases i (List.length df)) as [Hi|Hi].
  - unfold all_degenerate in H. rewrite forallb_forall in H.
    apply (H _ (nth_In df undefined_row Hi)).
  - rewrite nth_overflow by exact Hi. reflexivity.
Qed.

Lemma degenerate_table_adjust : forall self sdf,
  (0 < _n_bins self)%nat -> all_degenerate (prebinning self sdf) = true ->
  adjust_odds (_n_bins self) (prebinning self sdf) = Raise min_empty_error.
Proof.
  intros self sdf Hn Hdeg.
  apply adjust_odds_degenerate; auto using all_degenerate_spec.
  intros E. pose proof (prebinning_length self sdf) as Hl.
  rewrite E in Hl. simpl in Hl. lia.
Qed.

(** an error of [__adjust_odds] is the outcome of [fit] *)
Lemma fit_passes_adjust_error : forall self xs ys e,
  List.length xs = List.length ys ->
  adjust_odds (_n_bins self) (prebinning self (score_df self xs ys)) = Raise e ->
  fit self (ndarray1 xs) (ndarray1 ys) = Raise e.
Proof.
  intros self xs ys e Hlen Hadj.
  unfold fit. rewrite check_inputs_ndarray1 by exact Hlen.
  cbn [bind]. rewrite !as_column_ndarray1. cbn [bind].
  unfold calc_bins. rewrite Hadj. reflexivity.
Qed.

(** C9, as amended: [fit] has no check for this input.  When every bin of
    the pre-binning has zero or undefined odds, its two guards pass, the
    filtered column of line 165 is empty, the builtin [min] raises its
    [ValueError] for an empty sequence there, and that exception leaves
    [__adjust_odds] and [fit]: no model is returned. *)
Theorem fit_raises_on_degenerate_bins : forall self xs ys,
  (0 < _n_bins self)%nat -> List.length xs = List.length ys ->
  all_degenerate (prebinning self (score_df self xs ys)) = true ->
  let df := prebinning self (score_df self xs ys) in
  check_inputs (ndarray1 xs) (ndarray1 ys) = Ok tt /\
  map snd (nonzero_rows (cleaned df)) = [] /\
  py_min (map snd (nonzero_rows (cleaned df))) = Raise min_empty_error /\
  adjust_odds (_n_bins self) df = Raise min_empty_error /\
  fit self (ndarray1 xs) (ndarray1 ys) = Raise min_empty_error /\
  is_ok (fit self (ndarray1 xs) (ndarray1 ys)) = false.
Proof.
  intros self xs ys Hn Hlen Hdeg. cbv zeta.
  pose proof (degenerate_table_adjust self (score_df self xs ys) Hn Hdeg) as Hadj.
  pose proof (fit_passes_adjust_error self xs ys min_empty_error Hlen Hadj) as Hfit.
  assert (Hnz : nonzero_rows (cleaned (prebinning self (score_df self xs ys))) = []).
  { apply nonzero_rows_none. intros i.
    pose proof (all_degenerate_spec _ Hdeg i) as Hd.
    unfold defined_odds in Hd. apply negb_false_iff in Hd. exact Hd. }
  split; [apply check_inputs_ndarray1; exact Hlen|].
  rewrite Hnz. simpl map.
  split; [reflexivity|]. split; [reflexivity|].
  split; [exact Hadj|]. split; [exact Hfit|].
  rewrite Hfit. reflexivity.
Qed.

Lemma fit_raises_on_degenerate_bins_witness :
  let df := prebinning self_flag (score_df self_flag x_all_good y_all_good) in
  check_inputs (ndarray1 x_all_good) (ndarray1 y_all_good) = Ok tt /\
  map snd (nonzero_rows (cleaned df)) = [] /\
  py_min (map snd (nonzero_rows (cleaned df))) = Raise min_empty_error /\
  adjust_odds (_n_bins self_flag) df = Raise min_empty_error /\
  fit self_flag (ndarray1 x_all_good) (ndarray1 y_all_good) = Raise min_empty_error /\
  is_ok (fit self_flag (ndarray1 x_all_good) (ndarray1 y_all_good)) = false.
Proof.
  apply (fit_raises_on_degenerate_bins self_flag x_all_good y_all_good);
    [simpl; lia | reflexivity | reflexivity].
Defined.

(** C9, as stated, fails: on three samples of one class the guards of [fit]
    accept the input and [max] of line 163 returns 0 for the all-zero
    column; what the caller gets is the message of the builtin [min] about
    an empty sequence, the one [min([])] gives, which names no degenerate
    input. *)
Lemma fit_does_not_detect_degenerate_input :
  let df := prebinning self_flag (score_df self_flag x_all_good y_all_good) in
  all_degenerate df = true /\
  check_inputs (ndarray1 x_all_good) (ndarray1 y_all_good) = Ok tt /\
  py_max (cleaned df) = Ok 0 /\
  fit self_flag (ndarray1 x_all_good) (ndarray1 y_all_good)
    = Raise (ValueError "min() arg is an empty sequence") /\
  py_min [] = Raise (ValueError "min() arg is an empty sequence").
Proof.
  repeat split; vm_compute; reflexivity.
Qed.

(** ** Bin labels *)

Lemma py_int_floor : forall q, 0 <= q -> py_int q = Qfloor q.
Proof.
  intros [n d] H. unfold py_int, Qfloor. simpl.
  apply Z.quot_div_nonneg; [|reflexivity].
  unfold Qle in H. simpl in H. lia.
Qed.

Lemma n_bins_nonzero : forall self,
  (0 < _n_bins self)%nat -> ~ inject_Z (Z.of_nat (_n_bins self)) == 0.
Proof.
  intros self H E. unfold Qeq in E. simpl in E. lia.
Qed.

Lemma div_step : forall self q,
  (0 < _n_bins self)%nat -> q / _step self == q * inject_Z (Z.of_nat (_n_bins self)).
Proof.
  intros self q H. unfold _step. field.
  apply n_bins_nonzero. exact H.
Qed.

Lemma n_bins_Qpos : forall self,
  (0 < _n_bins self)%nat -> 0 < inject_Z (Z.of_nat (_n_bins self)).
Proof.
  intros self H. unfold Qlt. simpl. lia.
Qed.

Lemma Qfloor_bounds : forall q (a b : Z),
  inject_Z a <= q -> q < inject_Z b -> (a <= Qfloor q < b)%Z.
Proof.
  intros q a b Ha Hb. split.
  - rewrite <- (Qfloor_Z a). apply Qfloor_resp_le. exact Ha.
  - destruct (Z.lt_ge_cases (Qfloor q) b) as [H|H]; auto.
    exfalso. apply (Qlt_irrefl q).
    apply Qlt_le_trans with (inject_Z b); auto.
    apply Qle_trans with (inject_Z (Qfloor q)).
    + rewrite <- Zle_Qle. lia.
    + apply Qfloor_le.
Qed.

(** ** Conservation of hits *)

Lemma filter_length_split : forall (A : Type) (f g h : A -> bool) (l : list A),
  (forall a, h a = f a || g a) -> (forall a, f a && g a = false) ->
  (List.length (filter f l) + List.length (filter g l))%nat = List.length (filter h l).
Proof.
  intros A f g h l Hh Hd. induction l as [|a l IH]; simpl; auto.
  rewrite (Hh a). specialize (Hd a).
  destruct (f a), (g a); simpl in *; try discriminate; lia.
Qed.

Lemma filter_length_none : forall (A : Type) (f : A -> bool) (l : list A),
  (forall a, f a = false) -> List.length (filter f l) = 0%nat.
Proof.
  intros A f l H. rewrite filter_nil; auto.
Qed.

Lemma group_sizes : forall sdf k a,
  fold_right Nat.add 0%nat (map (fun b => List.length (group sdf b)) (seq a k))
  = List.length (filter (bin_between a k) sdf).
Proof.
  intros sdf. induction k as [|k IH]; intros a; simpl.
  - symmetry. apply filter_length_none. intros s. unfold bin_between.
    destruct (Z.leb_spec (Z.of_nat a) (s_bin s)); simpl; auto.
    apply Z.ltb_ge. lia.
  - rewrite IH. unfold group. apply filter_length_split; intros s; unfold bin_between;
      destruct (Z.eqb_spec (s_bin s) (Z.of_nat a)),
               (Z.leb_spec (Z.of_nat a) (s_bin s)),
               (Z.ltb_spec (s_bin s) (Z.of_nat (a + S k))),
               (Z.leb_spec (Z.of_nat (S a)) (s_bin s)),
               (Z.ltb_spec (s_bin s) (Z.of_nat (S a + k)));
      simpl; try reflexivity; exfalso; lia.
Qed.

Lemma column_sum_counts : forall sdf bs,
  column_sum (map (group_count sdf) bs)
  == inject_Z (Z.of_nat (fold_right Nat.add 0%nat
                           (map (fun b => List.length (group sdf b)) bs))).
Proof.
  intros sdf. induction bs as [|b bs IH]; simpl; [reflexivity|].
  unfold group_count at 1. destruct (group sdf b) as [|s g]; [exact IH|].
  rewrite IH, Nat2Z.inj_add, inject_Z_plus. reflexivity.
Qed.

(** the hits of the table add up to the samples whose label is in it *)
Lemma hits_sum_in_table : forall self sdf,
  column_sum (map hits (prebinning self sdf))
  == inject_Z (Z.of_nat (List.length (filter (in_table self) sdf))).
Proof.
  intros self sdf. unfold prebinning. rewrite map_map.
  change (map (fun b => hits (prebin self sdf b))) with (map (group_count sdf)).
  rewrite column_sum_counts, group_sizes. reflexivity.
Qed.

Lemma is_prob_spec : forall p, is_prob p = true -> 0 <= p /\ p < 1.
Proof.
  intros p H. unfold is_prob in H. apply andb_true_iff in H. destruct H as [H0 H1].
  split; [apply Qle_bool_iff; exact H0|].
  unfold Qltb in H1. destruct (Qlt_le_dec p 1); [assumption|discriminate].
Qed.

(** a sample of a bin's group carries a label of the table *)
Lemma group_in_table : forall self sdf s b,
  (b < _n_bins self)%nat -> In s (group sdf b) -> in_table self s = true.
Proof.
  intros self sdf s b Hb Hs. unfold group in Hs. apply filter_In in Hs.
  destruct Hs as [_ Hs]. apply Z.eqb_eq in Hs.
  unfold in_table. rewrite Hs.
  apply andb_true_iff. split; [apply Z.leb_le|apply Z.ltb_lt]; lia.
Qed.

Lemma filter_complement : forall (A : Type) (f : A -> bool) (l : list A),
  (List.length (filter f l) + List.length (filter (fun a => negb (f a)) l))%nat
  = List.length l.
Proof.
  intros A f. induction l as [|a l IH]; simpl; [reflexivity|].
  destruct (f a); simpl; lia.
Qed.

(** C4, as amended: whatever labels line 112 has computed, the hits of the
    [n_bins] bins add up to the number of samples whose label is one of
    [0 .. n_bins-1], that is to the number of samples less those with a
    label outside the table; such a sample is in the group of no bin:
    nothing clamps its label. *)
Theorem hits_sum_counts_labels : forall self sdf,
  column_sum (map hits (prebinning self sdf))
    == inject_Z (Z.of_nat (List.length (filter (in_table self) sdf))) /\
  column_sum (map hits (prebinning self sdf))
    + inject_Z (Z.of_nat (List.length (filter (fun s => negb (in_table self s)) sdf)))
    == inject_Z (Z.of_nat (List.length sdf)) /\
  (forall s b, (b < _n_bins self)%nat -> in_table self s = false ->
     ~ In s (group sdf b)).
Proof.
  intros self sdf. split; [apply hits_sum_in_table|]. split.
  - rewrite hits_sum_in_table, <- inject_Z_plus, <- Nat2Z.inj_add.
    rewrite filter_complement. reflexivity.
  - intros s b Hb Hout Hin.
    rewrite (group_in_table self sdf s b Hb Hin) in Hout. discriminate.
Qed.

(** C4, as stated, fails: with [bad_flag] the sample of probability 0 is
    flipped onto [p' = 1], its bin label is [n_bins = 2], no row of the table
    has that label, and the hits add up to 4 for 5 samples.  Every number of
    this input is a double, and no operation on it rounds. *)
Lemma hits_sum_drops_flipped_zero :
  forallb is_prob x_edge = true /\
  List.length x_edge = 5%nat /\ List.length y_edge = 5%nat /\
  bin_of self_flag (adjust_prob self_flag 0) = 2%Z /\
  column_sum (map hits (prebinning self_flag (score_df self_flag x_edge y_edge))) == 4 /\
  ~ 4 == inject_Z (Z.of_nat (List.length y_edge)).
Proof.
  repeat split; try (vm_compute; reflexivity).
  vm_compute. discriminate.
Qed.

(** in binary64 the quotient of line 112 reaches [n_bins] below [p' = 1] as
    well: [1 - 2^-53] is a double, the step [1.0 / 3] is rounded, and the
    quotient rounds to 3, where the exact quotient has the label 2.  This
    is why the statement above is over the labels. *)
Example label_rounds_up :
  let p := 1 - (1 # 9007199254740992) in
  fl p == p /\ p < 1 /\
  py_int (fl (p / fl (1 / 3))) = 3%Z /\
  bin_of self_three p = 2%Z.
Proof. repeat split; vm_compute; reflexivity. Qed.

(** [fl] on a few numbers: [0.1], [1/3], an integer above [2^53], a tie *)
Example fl_values :
  fl (1 # 10) == 3602879701896397 # 36028797018963968 /\
  fl (1 # 3) == 6004799503160661 # 18014398509481984 /\
  fl (1 # 4) == 1 # 4 /\
  fl (-(7 # 3)) == -(5254199565265579 # 2251799813685248) /\
  fl 9007199254740993 == 9007199254740992 /\
  fl 9007199254740995 == 9007199254740996.
Proof. repeat split; vm_compute; reflexivity. Qed.

(** the cells of [np.arange(0, 1, 1.0 / n_bins)]: one too many for 49 bins *)
Example arange_cells :
  arange_len self_two = 2%nat /\ arange_len self_three = 3%nat /\
  arange_len self_49 = 50%nat /\
  filter (fun n => negb (arange_len (mkSelf n 500 (1 # 100) 20 true) =? n)%nat)
         (seq 1 110)
  = [49; 98; 103; 107]%nat.
Proof. repeat split; vm_compute; reflexivity. Qed.

(** ** [int] and [math.log2] over the reals *)

Lemma Int_part_bounds : forall x : R,
  (IZR (Int_part x) <= x < IZR (Int_part x) + 1)%R.
Proof.
  intros x. destruct (base_Int_part x) as [H1 H2]. lra.
Qed.

Lemma Int_part_IZR : forall z : Z, Int_part (IZR z) = z.
Proof.
  intros z. symmetry. apply Int_part_spec. lra.
Qed.

Lemma Int_part_le : forall x y : R, (x <= y)%R -> (Int_part x <= Int_part y)%Z.
Proof.
  intros x y H.
  destruct (Int_part_bounds x) as [Hx _]. destruct (Int_part_bounds y) as [_ Hy].
  apply Z.lt_succ_r. apply lt_IZR. rewrite succ_IZR. lra.
Qed.

Lemma int_R_nonneg : forall x : R, (0 <= x)%R -> int_R x = Int_part x.
Proof.
  intros x H. unfold int_R. destruct (Rle_dec 0 x); [reflexivity|contradiction].
Qed.

Lemma int_R_neg : forall x : R, (x < 0)%R -> int_R x = (- Int_part (- x))%Z.
Proof.
  intros x H. unfold int_R. destruct (Rle_dec 0 x); [lra|reflexivity].
Qed.

Lemma int_R_IZR : forall z : Z, int_R (IZR z) = z.
Proof.
  intros z. destruct (Rle_dec 0 (IZR z)) as [H|H].
  - rewrite int_R_nonneg by exact H. apply Int_part_IZR.
  - rewrite int_R_neg by lra. rewrite <- opp_IZR, Int_part_IZR. lia.
Qed.

Lemma int_R_le : forall x y : R, (x <= y)%R -> (int_R x <= int_R y)%Z.
Proof.
  intros x y H.
  destruct (Rle_dec 0 x) as [Hx|Hx]; destruct (Rle_dec 0 y) as [Hy|Hy].
  - rewrite !int_R_nonneg by assumption. apply Int_part_le. exact H.
  - lra.
  - rewrite int_R_neg by lra. rewrite int_R_nonneg by assumption.
    assert (0 <= Int_part (- x))%Z.
    { rewrite <- (Int_part_IZR 0). apply Int_part_le. lra. }
    assert (0 <= Int_part y)%Z.
    { rewrite <- (Int_part_IZR 0). apply Int_part_le. lra. }
    lia.
  - rewrite !int_R_neg by lra.
    assert (Int_part (- y) <= Int_part (- x))%Z by (apply Int_part_le; lra).
    lia.
Qed.

(** [int] cuts the fraction off: the result lies between 0 and [x], less than
    1 away from [x] *)
Lemma int_R_truncates : forall x : R,
  ((0 <= x -> IZR (int_R x) <= x < IZR (int_R x) + 1) /\
   (x <= 0 -> IZR (int_R x) - 1 < x <= IZR (int_R x)))%R.
Proof.
  intros x. split; intros H.
  - rewrite int_R_nonneg by exact H. apply Int_part_bounds.
  - destruct (Req_dec x 0) as [->|Hne].
    + rewrite int_R_IZR. lra.
    + rewrite int_R_neg by lra. rewrite opp_IZR.
      destruct (Int_part_bounds (- x)). lra.
Qed.

Lemma int_R_floor_value : forall (x : R) (z : Z),
  (0 <= z)%Z -> (IZR z <= x < IZR z + 1)%R -> int_R x = z.
Proof.
  intros x z Hz [H1 H2].
  assert (0 <= x)%R by (apply IZR_le in Hz; lra).
  rewrite int_R_nonneg by assumption. symmetry. apply Int_part_spec. lra.
Qed.

Lemma Q2R_inject_Z : forall z : Z, Q2R (inject_Z z) = IZR z.
Proof.
  intros z. unfold Q2R. simpl. lra.
Qed.

(** the two truncations agree on the finite floats *)
Lemma int_R_Q2R : forall q : Q, int_R (Q2R q) = py_int q.
Proof.
  intros q. destruct (Qlt_le_dec q 0) as [Hneg|Hpos].
  - assert (Hq : (Q2R q < 0)%R).
    { replace 0%R with (Q2R 0) by (unfold Q2R; simpl; lra). apply Qlt_Rlt. exact Hneg. }
    rewrite int_R_neg by exact Hq.
    assert (E : py_int q = (- Qfloor (- q))%Z).
    { rewrite <- py_int_floor.
      - destruct q as [n d]. unfold py_int. simpl. rewrite Z.quot_opp_l; lia.
      - Lqa.lra. }
    rewrite E. f_equal. symmetry. apply Int_part_spec.
    rewrite <- Q2R_opp.
    pose proof (Qle_Rle _ _ (Qfloor_le (- q))) as H1.
    pose proof (Qlt_Rlt _ _ (Qlt_floor (- q))) as H2.
    rewrite Q2R_inject_Z in H1, H2. rewrite plus_IZR in H2. lra.
  - assert (Hq : (0 <= Q2R q)%R).
    { replace 0%R with (Q2R 0) by (unfold Q2R; simpl; lra). apply Qle_Rle. exact Hpos. }
    rewrite int_R_nonneg by exact Hq. rewrite py_int_floor by exact Hpos.
    symmetry. apply Int_part_spec.
    pose proof (Qle_Rle _ _ (Qfloor_le q)) as H1.
    pose proof (Qlt_Rlt _ _ (Qlt_floor q)) as H2.
    rewrite Q2R_inject_Z in H1, H2. rewrite plus_IZR in H2. lra.
Qed.

Lemma ln2_pos : (0 < ln 2)%R.
Proof. pose proof ln_lt_2. lra. Qed.

Lemma ln_le_compat : forall x y : R, (0 < x)%R -> (x <= y)%R -> (ln x <= ln y)%R.
Proof.
  intros x y Hx [Hlt | Heq]; [|subst; lra].
  left. apply ln_increasing; assumption.
Qed.

Lemma log2_le_compat : forall x y : R, (0 < x)%R -> (x <= y)%R -> (log2 x <= log2 y)%R.
Proof.
  intros x y Hx Hxy. unfold log2.
  pose proof ln2_pos. pose proof (ln_le_compat x y Hx Hxy).
  apply Rmult_le_compat_r; [|assumption].
  left. apply Rinv_0_lt_compat. assumption.
Qed.

(** ** Bounds on [log2] from integer powers *)

Lemma ln_IZR_pow : forall a k : Z,
  (0 < a)%Z -> (0 <= k)%Z -> ln (IZR (a ^ k)) = (IZR k * ln (IZR a))%R.
Proof.
  intros a k Ha Hk.
  rewrite <- (Z2Nat.id k Hk) at 1. rewrite <- pow_IZR.
  rewrite ln_pow by (apply IZR_lt; exact Ha).
  rewrite INR_IZR_INZ, Z2Nat.id by exact Hk. reflexivity.
Qed.

Lemma IZR_pow_pos : forall a k : Z, (0 < a)%Z -> (0 <= k)%Z -> (0 < IZR (a ^ k))%R.
Proof.
  intros a k Ha Hk. apply IZR_lt. apply Z.pow_pos_nonneg; assumption.
Qed.

Lemma ln_two_pow_mult : forall b e k : Z,
  (0 < b)%Z -> (0 <= e)%Z -> (0 <= k)%Z ->
  ln (IZR (2 ^ e * b ^ k)) = (IZR e * ln 2 + IZR k * ln (IZR b))%R.
Proof.
  intros b e k Hb He Hk.
  rewrite mult_IZR, ln_mult by (apply IZR_pow_pos; lia).
  rewrite !ln_IZR_pow by lia. reflexivity.
Qed.

Lemma log2_ratio : forall a b : Z,
  (0 < a)%Z -> (0 < b)%Z ->
  (log2 (IZR a * / IZR b) * ln 2 = ln (IZR a) - ln (IZR b))%R.
Proof.
  intros a b Ha Hb. unfold log2.
  assert (0 < IZR a)%R by (apply IZR_lt; exact Ha).
  assert (0 < IZR b)%R by (apply IZR_lt; exact Hb).
  rewrite ln_mult by (auto using Rinv_0_lt_compat).
  rewrite ln_Rinv by assumption.
  pose proof ln2_pos. field. lra.
Qed.

Section PowerBounds.
Variables a b e k : Z.
Hypothesis Ha : (0 < a)%Z.
Hypothesis Hb : (0 < b)%Z.
Hypothesis He : (0 <= e)%Z.
Hypothesis Hk : (0 <= k)%Z.

Lemma scaled_log2 : (IZR k * log2 (IZR a * / IZR b) * ln 2
   = IZR k * ln (IZR a) - IZR k * ln (IZR b))%R.
Proof.
  rewrite Rmult_assoc, (log2_ratio a b Ha Hb). ring.
Qed.

Lemma log2_lower_le : (2 ^ e * b ^ k <= a ^ k)%Z -> (IZR e <= IZR k * log2 (IZR a * / IZR b))%R.
Proof.
  intros H. apply IZR_le in H.
  apply ln_le_compat in H;
    [|apply IZR_lt; apply Z.mul_pos_pos; apply Z.pow_pos_nonneg; lia].
  rewrite ln_two_pow_mult, ln_IZR_pow in H by assumption.
  apply (Rmult_le_reg_r (ln 2)); [apply ln2_pos|].
  rewrite scaled_log2. lra.
Qed.

Lemma log2_lower_lt : (2 ^ e * b ^ k < a ^ k)%Z -> (IZR e < IZR k * log2 (IZR a * / IZR b))%R.
Proof.
  intros H. apply IZR_lt in H.
  apply ln_increasing in H;
    [|apply IZR_lt; apply Z.mul_pos_pos; apply Z.pow_pos_nonneg; lia].
  rewrite ln_two_pow_mult, ln_IZR_pow in H by assumption.
  apply (Rmult_lt_reg_r (ln 2)); [apply ln2_pos|].
  rewrite scaled_log2. lra.
Qed.

Lemma log2_upper_lt : (a ^ k < 2 ^ e * b ^ k)%Z -> (IZR k * log2 (IZR a * / IZR b) < IZR e)%R.
Proof.
  intros H. apply IZR_lt in H.
  apply ln_increasing in H; [|apply IZR_pow_pos; assumption].
  rewrite ln_two_pow_mult, ln_IZR_pow in H by assumption.
  apply (Rmult_lt_reg_r (ln 2)); [apply ln2_pos|].
  rewrite scaled_log2. lra.
Qed.
End PowerBounds.

(** ** The per-bin score *)

Lemma bin_score_defined : forall self x,
  0 < _standard_odds self -> 0 < x ->
  bin_score self x = Ok (int_R (raw_score self x)).
Proof.
  intros self x Hso Hx. unfold bin_score.
  rewrite (Qpos_nonzero _ Hso).
  destruct (Qlt_le_dec 0 (x / _standard_odds self)) as [H|H]; [reflexivity|].
  exfalso. apply (Qlt_irrefl 0). apply Qlt_le_trans with (x / _standard_odds self); auto.
  apply Qlt_shift_div_l; auto. rewrite Qmult_0_l. exact Hx.
Qed.

Lemma bin_score_inv : forall self x z,
  bin_score self x = Ok z ->
  z = int_R (raw_score self x) /\ 0 < x / _standard_odds self.
Proof.
  intros self x z H. unfold bin_score in H.
  destruct (Qzero (_standard_odds self)); [discriminate|].
  destruct (Qlt_le_dec 0 (x / _standard_odds self)); [|discriminate].
  inversion H. split; auto.
Qed.

Lemma Qnum_pos : forall q : Q, (0 < Qnum q)%Z -> 0 < q.
Proof.
  intros [n d] H. unfold Qlt. simpl in *. lia.
Qed.

(** the integer test is sound *)
Lemma score_check_bounds : forall self x z,
  score_check self x z = true ->
  (0 <= z)%Z /\ (IZR z <= raw_score self x < IZR z + 1)%R /\
  0 < x / _standard_odds self /\ Qzero (_standard_odds self) = false.
Proof.
  intros self x z H. unfold score_check in H.
  repeat (apply andb_true_iff in H; destruct H as [H ?]).
  apply negb_true_iff in H.
  match goal with h : (0 <? _)%Z = true |- _ => apply Z.ltb_lt in h; rename h into Ha end.
  repeat match goal with h : (0 <=? _)%Z = true |- _ => apply Z.leb_le in h end.
  match goal with h : (_ <=? _)%Z = true |- _ => apply Z.leb_le in h; rename h into Hlo end.
  match goal with h : (_ <? _)%Z = true |- _ => apply Z.ltb_lt in h; rename h into Hhi end.
  set (r := x / _standard_odds self) in *.
  assert (Hr : 0 < r) by (apply Qnum_pos; exact Ha).
  repeat split; auto.
  - unfold raw_score. fold r. unfold Q2R.
    pose proof (log2_lower_le (Qnum r) (Zpos (Qden r)) (z - _standard_score self)
                  (_pdo self) Ha ltac:(lia) ltac:(lia) ltac:(lia) Hlo) as H1.
    rewrite minus_IZR in H1. lra.
  - unfold raw_score. fold r. unfold Q2R.
    pose proof (log2_upper_lt (Qnum r) (Zpos (Qden r)) (z - _standard_score self + 1)
                  (_pdo self) Ha ltac:(lia) ltac:(lia) ltac:(lia) Hhi) as H1.
    rewrite plus_IZR, minus_IZR in H1. lra.
Qed.

Lemma score_check_sound : forall self x z,
  score_check self x z = true -> bin_score self x = Ok z.
Proof.
  intros self x z H.
  destruct (score_check_bounds self x z H) as [Hz [Hb [Hr Hso]]].
  unfold bin_score. rewrite Hso.
  destruct (Qlt_le_dec 0 (x / _standard_odds self)) as [_|Hle].
  - f_equal. apply int_R_floor_value; assumption.
  - exfalso. apply (Qlt_irrefl 0). apply Qlt_le_trans with (x / _standard_odds self); auto.
Qed.

Lemma score_check_value : forall self x z,
  score_check self x z = true -> int_R (raw_score self x) = z.
Proof.
  intros self x z H.
  destruct (score_check_bounds self x z H) as [Hz [Hb _]].
  apply int_R_floor_value; assumption.
Qed.

Lemma int_R_toward_zero : forall x : R,
  (Rabs (IZR (int_R x)) <= Rabs x)%R /\ (Rabs (x - IZR (int_R x)) < 1)%R.
Proof.
  intros x. destruct (int_R_truncates x) as [Hpos Hneg].
  destruct (Rle_dec 0 x) as [H|H].
  - specialize (Hpos H).
    assert (0 <= int_R x)%Z.
    { apply Z.lt_succ_r. apply lt_IZR. rewrite succ_IZR. lra. }
    assert (0 <= IZR (int_R x))%R by (apply IZR_le; assumption).
    rewrite !Rabs_pos_eq by lra. lra.
  - assert (Hx : (x <= 0)%R) by lra. specialize (Hneg Hx).
    assert (int_R x <= 0)%Z.
    { apply Z.lt_succ_r. apply lt_IZR. rewrite succ_IZR. lra. }
    assert (IZR (int_R x) <= 0)%R by (apply IZR_le; assumption).
    rewrite (Rabs_left1 (IZR (int_R x))), (Rabs_left1 x) by lra.
    rewrite Rabs_left1 by lra. lra.
Qed.

(** ** What a successful [fit] went through *)

Lemma bind_ok : forall (A B : Type) (m : result A) (k : A -> result B) (b : B),
  bind m k = Ok b -> exists a, m = Ok a /\ k a = Ok b.
Proof.
  intros A B [a|e] k b H; simpl in H; [eauto|discriminate].
Qed.

Lemma Ok_inj : forall (A : Type) (a b : A), Ok a = Ok b -> a = b.
Proof. intros A a b H. congruence. Qed.

Lemma mapM_length : forall (A B : Type) (f : A -> result B) (l : list A) (l' : list B),
  mapM f l = Ok l' -> List.length l' = List.length l.
Proof.
  intros A B f. induction l as [|a l IH]; intros l' H; simpl in H.
  - inversion H. reflexivity.
  - apply bind_ok in H. destruct H as [b [_ H]].
    apply bind_ok in H. destruct H as [bs [Hbs H]].
    inversion H. simpl. f_equal. apply IH. exact Hbs.
Qed.

Lemma mapM_nth : forall (A B : Type) (f : A -> result B) (l : list A) (l' : list B) i a,
  mapM f l = Ok l' -> nth_error l i = Some a ->
  exists b, nth_error l' i = Some b /\ f a = Ok b.
Proof.
  intros A B f. induction l as [|a0 l IH]; intros l' i a H Hi.
  - destruct i; discriminate.
  - simpl in H. apply bind_ok in H. destruct H as [b [Hb H]].
    apply bind_ok in H. destruct H as [bs [Hbs H]]. inversion H; subst l'.
    destruct i as [|i]; simpl in *.
    + inversion Hi; subst a0. eauto.
    + eapply IH; eauto.
Qed.

Lemma finish_bins_length : forall self pls rows bdf,
  finish_bins self pls rows = Ok bdf ->
  List.length bdf = Nat.min (List.length pls) (List.length rows).
Proof.
  intros self. induction pls as [|pl pls IH]; intros rows bdf H; simpl in H.
  - inversion H. reflexivity.
  - destruct rows as [|r rows]; [inversion H; reflexivity|].
    apply bind_ok in H. destruct H as [b [_ H]].
    apply bind_ok in H. destruct H as [bs [Hbs H]].
    inversion H. simpl. f_equal. apply IH. exact Hbs.
Qed.

(** row [i] of the final table: its left edge, its odds, its score *)
Lemma finish_bins_nth : forall self pls rows bdf i b,
  finish_bins self pls rows = Ok bdf -> nth_error bdf i = Some b ->
  exists pl r,
    nth_error pls i = Some pl /\ nth_error rows i = Some r /\
    prob_l b = pl /\ prob_r b = pl + _step self /\
    mean_prob b = (pl + (pl + _step self)) / 2 /\
    counts b = fst r /\ adjusted_odds b = snd r /\
    bin_score self (snd r) = Ok (score b).
Proof.
  intros self. induction pls as [|pl pls IH]; intros rows bdf i b H Hi; simpl in H.
  - inversion H; subst. destruct i; discriminate.
  - destruct rows as [|r rows]; [inversion H; subst; destruct i; discriminate|].
    apply bind_ok in H. destruct H as [b0 [Hb0 H]].
    apply bind_ok in H. destruct H as [bs [Hbs H]]. inversion H; subst bdf.
    destruct i as [|i]; simpl in Hi.
    + inversion Hi; subst b0. exists pl, r.
      unfold finish_bin in Hb0. apply bind_ok in Hb0.
      destruct Hb0 as [sc [Hsc Hb]]. inversion Hb; subst b. simpl.
      repeat split; auto.
    + destruct (IH rows bs i b Hbs Hi) as [pl' [r' Hr]].
      exists pl', r'. exact Hr.
Qed.

Lemma adjust_odds_nonempty : forall n df adj,
  adjust_odds n df = Ok adj -> df <> [].
Proof.
  intros n df adj H E. subst df. discriminate.
Qed.

Lemma zip_anchor_length : forall pl sl pr sr n,
  List.length pl = n -> List.length sl = n -> List.length pr = n -> List.length sr = n ->
  List.length (zip_anchor pl sl pr sr) = n.
Proof.
  induction pl as [|a pl IH]; intros [|b sl] [|c pr] [|d sr] n H1 H2 H3 H4;
    simpl in *; try lia.
  destruct n; [lia|]. f_equal. apply IH; lia.
Qed.

Lemma set_column_ok : forall n vals pls,
  set_column n vals = Ok pls -> pls = vals /\ List.length vals = n.
Proof.
  intros n vals pls H. unfold set_column in H.
  destruct (Nat.eqb_spec (List.length vals) n) as [E|E]; [|discriminate].
  inversion H; subst pls. split; [reflexivity|exact E].
Qed.

Lemma arange_step_length : forall self,
  List.length (arange_step self) = arange_len self.
Proof.
  intros self. unfold arange_step. rewrite length_map, length_seq. reflexivity.
Qed.

(** when the assignment of line 135 goes through, [np.arange] has one cell
    per bin *)
Lemma arange_step_fits : forall self,
  arange_len self = _n_bins self ->
  arange_step self
  = map (fun i => inject_Z (Z.of_nat i) * _step self) (seq 0 (_n_bins self)).
Proof.
  intros self H. unfold arange_step. rewrite H. reflexivity.
Qed.

Lemma set_column_arange : forall self,
  arange_len self = _n_bins self ->
  set_column (_n_bins self) (arange_step self) = Ok (arange_step self).
Proof.
  intros self H. unfold set_column.
  rewrite arange_step_length, H, Nat.eqb_refl. reflexivity.
Qed.

Lemma calc_bins_inv : forall self xs ys bdf,
  calc_bins self xs ys = Ok bdf ->
  exists col,
    adjust_odds (_n_bins self) (prebinning self (score_df self xs ys)) = Ok col /\
    arange_len self = _n_bins self /\
    finish_bins self (arange_step self)
      (ordered self (combine (prebinning self (score_df self xs ys)) col))
    = Ok bdf.
Proof.
  intros self xs ys bdf H. unfold calc_bins in H.
  apply bind_ok in H. destruct H as [col [Hcol H]].
  apply bind_ok in H. destruct H as [pls [Hpls Hfin]].
  apply set_column_ok in Hpls. destruct Hpls as [-> Hal].
  rewrite arange_step_length in Hal.
  exists col. repeat split; assumption.
Qed.

Lemma fit_ok : forall self x y m, fit self x y = Ok m -> fit_trace self m.
Proof.
  intros self x y m H. unfold fit in H.
  apply bind_ok in H. destruct H as [_ [_ H]].
  apply bind_ok in H. destruct H as [xs [_ H]].
  apply bind_ok in H. destruct H as [ys [_ H]].
  apply bind_ok in H. destruct H as [bdf [Hbdf H]].
  apply bind_ok in H. destruct H as [mdf [Hmdf H]].
  inversion H; subst m; clear H. simpl.
  apply calc_bins_inv in Hbdf. destruct Hbdf as [col [Hcol [Hal Hfin]]].
  pose proof (adjust_odds_length _ _ _ Hcol) as Hlc.
  pose proof (adjust_odds_nonempty _ _ _ Hcol) as Hne.
  rewrite prebinning_length in Hlc.
  assert (Hn : (0 < _n_bins self)%nat).
  { destruct (_n_bins self) eqn:E; [|lia]. exfalso. apply Hne.
    unfold prebinning. rewrite E. reflexivity. }
  assert (Hlb : List.length bdf = _n_bins self).
  { rewrite (finish_bins_length _ _ _ _ Hfin).
    rewrite arange_step_length, Hal. unfold ordered.
    destruct (_bad_flag self); rewrite ?length_rev, length_combine,
      prebinning_length, Hlc; lia. }
  constructor; simpl; auto.
  - unfold calc_mapping_df in Hmdf. apply bind_ok in Hmdf.
    destruct Hmdf as [anc [Hanc Hseg]].
    rewrite (mapM_length _ _ _ _ _ Hseg).
    unfold anchors in Hanc. apply bind_ok in Hanc. destruct Hanc as [hi [_ Hanc]].
    apply bind_ok in Hanc. destruct Hanc as [lo [_ Hanc]].
    apply Ok_inj in Hanc. rewrite <- Hanc.
    apply zip_anchor_length; simpl; rewrite ?length_app, ?length_map; simpl; lia.
  - exists xs, ys, col. repeat split; assumption.
Qed.

(** ** The fitted sample model *)

Lemma calc_bins_demo : calc_bins self_two x_demo y_demo = Ok demo_bins.
Proof.
  cbv -[int_R raw_score].
  rewrite (score_check_value (mkSelf 2 500 (1 # 100) 20 false) 2 652)
    by (vm_compute; reflexivity).
  rewrite (score_check_value (mkSelf 2 500 (1 # 100) 20 false) 1 632)
    by (vm_compute; reflexivity).
  reflexivity.
Qed.

Lemma calc_mapping_demo : calc_mapping_df self_two demo_bins = Ok demo_mapping.
Proof. vm_compute. reflexivity. Qed.

Lemma fit_demo : fit self_two (ndarray1 x_demo) (ndarray1 y_demo) = Ok demo_model.
Proof.
  unfold fit. rewrite check_inputs_ndarray1 by reflexivity. cbn [bind].
  rewrite !as_column_ndarray1. cbn [bind].
  rewrite calc_bins_demo. cbn [bind].
  rewrite calc_mapping_demo. reflexivity.
Qed.

Lemma raw_score_demo : (652 + 1 / 2 < raw_score self_two 2)%R.
Proof.
  unfold raw_score.
  change (Q2R (2 / _standard_odds self_two)) with (IZR 200 * / IZR 1)%R.
  change (IZR (_standard_score self_two)) with 500%R.
  change (IZR (_pdo self_two)) with 20%R.
  pose proof (log2_lower_lt 200 1 305 40 ltac:(lia) ltac:(lia) ltac:(lia) ltac:(lia)
                ltac:(vm_compute; reflexivity)) as H.
  lra.
Qed.

Lemma fit_bin_nth : forall self x y m i b,
  fit self x y = Ok m -> nth_error (binning_df m) i = Some b ->
  prob_l b = inject_Z (Z.of_nat i) * _step self /\
  bin_score self (adjusted_odds b) = Ok (score b).
Proof.
  intros self x y m i b Hfit Hb.
  destruct (fit_ok self x y m Hfit) as [_ _ _ _ [xs [ys [col [_ [Hal Hfin]]]]] _].
  destruct (finish_bins_nth _ _ _ _ i b Hfin Hb)
    as [pl [r [Hpl [_ [Hl [_ [_ [_ [Ha Hs]]]]]]]]].
  split.
  - rewrite Hl. rewrite (arange_step_fits self Hal) in Hpl.
    rewrite nth_error_map in Hpl.
    destruct (nth_error (seq 0 (_n_bins self)) i) as [k|] eqn:Ek; [|discriminate].
    simpl in Hpl. inversion Hpl.
    assert (Hi : (i < List.length (seq 0 (_n_bins self)))%nat).
    { apply nth_error_Some. rewrite Ek. discriminate. }
    rewrite (nth_error_nth' _ 0%nat Hi) in Ek. rewrite length_seq in Hi.
    rewrite seq_nth in Ek by exact Hi. inversion Ek. reflexivity.
  - rewrite Ha. exact Hs.
Qed.

(** C5, as amended: the score of every bin of a fitted model is the argument
    [standard_score + pdo * log2(adjusted_odds / standard_odds)] with its
    fraction cut off by [int]: an integer between 0 and the argument, less
    than 1 away from it. *)
Theorem score_is_truncated : forall self x y m i b,
  fit self x y = Ok m -> nth_error (binning_df m) i = Some b ->
  score b = int_R (raw_score self (adjusted_odds b)) /\
  (Rabs (IZR (score b)) <= Rabs (raw_score self (adjusted_odds b)))%R /\
  (Rabs (raw_score self (adjusted_odds b) - IZR (score b)) < 1)%R.
Proof.
  intros self x y m i b Hfit Hb.
  destruct (fit_bin_nth self x y m i b Hfit Hb) as [_ Hs].
  apply bin_score_inv in Hs. destruct Hs as [Hs _].
  split; [exact Hs|]. rewrite Hs. apply int_R_toward_zero.
Qed.

Lemma score_is_truncated_witness :
  score (mkBin (0 # 2) (2 # 4) (4 # 16) 652 (counted 2 1) 2)
    = int_R (raw_score self_two 2) /\
  (Rabs (IZR 652) <= Rabs (raw_score self_two 2))%R /\
  (Rabs (raw_score self_two 2 - IZR 652) < 1)%R.
Proof.
  apply (score_is_truncated self_two (ndarray1 x_demo) (ndarray1 y_demo) demo_model 0
           (mkBin (0 # 2) (2 # 4) (4 # 16) 652 (counted 2 1) 2));
    [exact fit_demo | reflexivity].
Defined.

(** C5, as stated, fails: the bin of odds 2 has the argument
    [500 + 20 * log2(200) > 652.5] and the score 652, which is not a nearest
    integer. *)
Lemma score_is_not_rounded :
  fit self_two (ndarray1 x_demo) (ndarray1 y_demo) = Ok demo_model /\
  map adjusted_odds (binning_df demo_model) = [2; 1] /\
  map score (binning_df demo_model) = [652; 632]%Z /\
  ~ nearest_int (raw_score self_two 2) 652.
Proof.
  split; [exact fit_demo|]. split; [reflexivity|]. split; [reflexivity|].
  unfold nearest_int. intros H. pose proof raw_score_demo as Hr.
  rewrite Rabs_pos_eq in H by lra. lra.
Qed.

(** ** Order of the scores *)

Lemma raw_score_le : forall self a b,
  (0 <= _pdo self)%Z -> 0 < _standard_odds self ->
  0 < a / _standard_odds self -> a <= b ->
  (raw_score self a <= raw_score self b)%R.
Proof.
  intros self a b Hp Hso Ha Hab. unfold raw_score.
  apply Rplus_le_compat_l. apply Rmult_le_compat_l; [apply IZR_le; exact Hp|].
  apply log2_le_compat.
  - replace 0%R with (Q2R 0) by (unfold Q2R; simpl; lra). apply Qlt_Rlt. exact Ha.
  - apply Qle_Rle. unfold Qdiv. apply Qmult_le_compat_r; [exact Hab|].
    apply Qlt_le_weak. apply Qinv_lt_0_compat. exact Hso.
Qed.

(** C6, as amended: in a fitted model with [pdo >= 0] and
    [standard_odds > 0] the rows are in ascending [prob_l], and the scores are
    ordered as the adjusted odds are: a bin whose adjusted odds are at most
    another bin's has at most its score. *)
Theorem scores_ordered_as_odds : forall self x y m i j bi bj,
  fit self x y = Ok m -> (0 <= _pdo self)%Z -> 0 < _standard_odds self ->
  nth_error (binning_df m) i = Some bi -> nth_error (binning_df m) j = Some bj ->
  adjusted_odds bi <= adjusted_odds bj ->
  prob_l bi = inject_Z (Z.of_nat i) * _step self /\
  prob_l bj = inject_Z (Z.of_nat j) * _step self /\
  (score bi <= score bj)%Z.
Proof.
  intros self x y m i j bi bj Hfit Hp Hso Hi Hj Hle.
  destruct (fit_bin_nth self x y m i bi Hfit Hi) as [Hpi Hsi].
  destruct (fit_bin_nth self x y m j bj Hfit Hj) as [Hpj Hsj].
  repeat split; auto.
  apply bin_score_inv in Hsi. destruct Hsi as [-> Hri].
  apply bin_score_inv in Hsj. destruct Hsj as [-> _].
  apply int_R_le. apply raw_score_le; assumption.
Qed.

Lemma scores_ordered_as_odds_witness :
  prob_l (mkBin (1 # 2) (4 # 4) (12 # 16) 632 (counted 1 1) 1)
    = inject_Z (Z.of_nat 1) * _step self_two /\
  prob_l (mkBin (0 # 2) (2 # 4) (4 # 16) 652 (counted 2 1) 2)
    = inject_Z (Z.of_nat 0) * _step self_two /\
  (632 <= 652)%Z.
Proof.
  apply (scores_ordered_as_odds self_two (ndarray1 x_demo) (ndarray1 y_demo) demo_model
           1 0 (mkBin (1 # 2) (4 # 4) (12 # 16) 632 (counted 1 1) 1)
           (mkBin (0 # 2) (2 # 4) (4 # 16) 652 (counted 2 1) 2));
    [exact fit_demo | simpl; lia | reflexivity | reflexivity | reflexivity
    | simpl; unfold Qle; simpl; lia].
Defined.

(** C6, as stated, fails: valid input, [bad_flag] false, and the scores in
    ascending [prob_l] are 652, 632. *)
Lemma scores_decrease_with_odds :
  forallb is_prob x_demo = true /\
  fit self_two (ndarray1 x_demo) (ndarray1 y_demo) = Ok demo_model /\
  map prob_l (binning_df demo_model) = [0 # 2; 1 # 2] /\
  map score (binning_df demo_model) = [652; 632]%Z /\
  ~ (652 <= 632)%Z.
Proof.
  split; [reflexivity|]. split; [exact fit_demo|].
  split; [reflexivity|]. split; [reflexivity|]. lia.
Qed.

(** ** [transform] *)

Lemma segment_arg : forall self p,
  (0 < _n_bins self)%nat ->
  (p + _step self / 2) / _step self == p * inject_Z (Z.of_nat (_n_bins self)) + (1 # 2).
Proof.
  intros self p Hn. unfold _step. field.
  apply n_bins_nonzero. exact Hn.
Qed.

Lemma segment_index_floor : forall self p,
  (0 < _n_bins self)%nat -> 0 <= p ->
  segment_index self p = spec_segment_index self p.
Proof.
  intros self p Hn Hp. unfold segment_index, spec_segment_index.
  apply py_int_floor. rewrite (segment_arg self p Hn).
  pose proof (n_bins_Qpos self Hn) as HN.
  assert (0 <= p * inject_Z (Z.of_nat (_n_bins self))).
  { apply Qmult_le_0_compat; [exact Hp|apply Qlt_le_weak; exact HN]. }
  Lqa.lra.
Qed.

Lemma segment_index_bounds : forall self p,
  (0 < _n_bins self)%nat -> 0 <= p -> p < 1 ->
  (0 <= segment_index self p <= Z.of_nat (_n_bins self))%Z.
Proof.
  intros self p Hn H0 H1.
  rewrite (segment_index_floor self p Hn H0). unfold spec_segment_index.
  pose proof (n_bins_Qpos self Hn) as HN.
  assert (Hlo : 0 <= p * inject_Z (Z.of_nat (_n_bins self))).
  { apply Qmult_le_0_compat; [exact H0|apply Qlt_le_weak; exact HN]. }
  assert (Hhi : p * inject_Z (Z.of_nat (_n_bins self))
                < 1 * inject_Z (Z.of_nat (_n_bins self))).
  { apply Qmult_lt_compat_r; assumption. }
  destruct (Qfloor_bounds ((p + _step self / 2) / _step self) 0
              (Z.of_nat (_n_bins self) + 1)) as [Ha Hb].
  - rewrite (segment_arg self p Hn). change (inject_Z 0) with 0. Lqa.lra.
  - rewrite (segment_arg self p Hn), inject_Z_plus. change (inject_Z 1) with 1.
    Lqa.lra.
  - lia.
Qed.

Lemma lookup_segment_some : forall mdf idx,
  (0 <= idx < Z.of_nat (List.length mdf))%Z ->
  lookup_segment mdf idx = Some (nth (Z.to_nat idx) mdf (mkSeg 0 0)).
Proof.
  intros mdf idx H. unfold lookup_segment.
  destruct (Z.ltb_spec idx 0); [lia|].
  apply nth_error_nth'. lia.
Qed.

Lemma lookup_segment_none : forall mdf idx,
  (idx < 0 \/ Z.of_nat (List.length mdf) <= idx)%Z ->
  lookup_segment mdf idx = None.
Proof.
  intros mdf idx H. unfold lookup_segment.
  destruct (Z.ltb_spec idx 0); [reflexivity|].
  apply nth_error_None. lia.
Qed.

(** the lookup succeeds exactly on the indices [0 .. n_bins]: nothing is
    clamped *)
Lemma transform_one_ok : forall self m q,
  fit_trace self m -> is_ok (transform_one m q) = in_segments self q.
Proof.
  intros self m q [Hc Hn _ Hm _ _]. unfold transform_one, in_segments.
  rewrite Hc.
  destruct (Z.leb_spec 0 (segment_index self q)) as [H0|H0];
    destruct (Z.leb_spec (segment_index self q) (Z.of_nat (_n_bins self))) as [H1|H1];
    simpl.
  - rewrite lookup_segment_some by (rewrite Hm; lia). reflexivity.
  - rewrite lookup_segment_none by (rewrite Hm; lia). reflexivity.
  - rewrite lookup_segment_none by lia. reflexivity.
  - rewrite lookup_segment_none by lia. reflexivity.
Qed.

Lemma transform_one_spec : forall self m p,
  fit_trace self m -> 0 <= p -> p < 1 ->
  transform_one m p = Ok (spec_transform_one m p).
Proof.
  intros self m p Htr H0 H1. destruct Htr as [Hc Hn _ Hm _ _].
  unfold transform_one, spec_transform_one, spec_line, segment_at.
  rewrite Hc. rewrite <- (segment_index_floor self p Hn H0).
  rewrite lookup_segment_some; [reflexivity|].
  pose proof (segment_index_bounds self p Hn H0 H1). rewrite Hm. lia.
Qed.

(** C7, as amended: for a fitted model and a probability [p] of [0, 1) the
    segment index lies in [0 .. n_bins], so the lookup succeeds and
    [transform] returns an integer; nothing is clamped: on any input the
    lookup succeeds exactly when the index lies in [0 .. n_bins], and
    [transform] raises otherwise. *)
Theorem transform_total_on_probabilities : forall self x y m p,
  fit self x y = Ok m -> 0 <= p -> p < 1 ->
  in_segments self p = true /\
  (exists z, transform_one m p = Ok z) /\
  (forall q, is_ok (transform_one m q) = in_segments self q).
Proof.
  intros self x y m p Hfit H0 H1.
  pose proof (fit_ok self x y m Hfit) as Htr.
  repeat split.
  - destruct Htr as [_ Hn _ _ _ _].
    destruct (segment_index_bounds self p Hn H0 H1) as [Ha Hb].
    unfold in_segments. apply andb_true_iff. split; apply Z.leb_le; assumption.
  - exists (spec_transform_one m p). apply (transform_one_spec self); assumption.
  - intros q. apply transform_one_ok. exact Htr.
Qed.

Lemma transform_total_on_probabilities_witness :
  in_segments self_two (99 # 100) = true /\
  (exists z, transform_one demo_model (99 # 100) = Ok z) /\
  (forall q, is_ok (transform_one demo_model q) = in_segments self_two q).
Proof.
  apply (transform_total_on_probabilities self_two (ndarray1 x_demo) (ndarray1 y_demo)
           demo_model (99 # 100));
    [exact fit_demo | unfold Qle; simpl; lia | reflexivity].
Defined.

(** C7, as stated, fails: the input 3/2 has the segment index 3, outside
    [0 .. 2]; the lookup finds no row and [transform] raises, where the claim
    has the last segment used. *)
Lemma transform_does_not_clamp :
  fit self_two (ndarray1 x_demo) (ndarray1 y_demo) = Ok demo_model /\
  segment_index self_two (3 # 2) = 3%Z /\
  lookup_segment (mapping_df demo_model) 3 = None /\
  transform_one demo_model (3 # 2) = Raise nan_to_int_error /\
  transform demo_model [3 # 2] = Raise nan_to_int_error.
Proof.
  split; [exact fit_demo|]. repeat split; vm_compute; reflexivity.
Qed.

(** [round] returns an integer nearest to its argument *)
Lemma py_round_nearest : forall q, Qabs (q - inject_Z (py_round q)) <= 1 # 2.
Proof.
  intros q. unfold py_round.
  pose proof (Qfloor_le q) as Hlo. pose proof (Qlt_floor q) as Hhi.
  rewrite inject_Z_plus in Hhi. change (inject_Z 1) with 1 in Hhi.
  apply Qabs_Qle_condition.
  destruct (Qcompare (q - inject_Z (Qfloor q)) (1 # 2)) eqn:E.
  - apply Qeq_alt in E.
    destruct (Z.even (Qfloor q)); rewrite ?inject_Z_plus;
      change (inject_Z 1) with 1; split; Lqa.lra.
  - apply Qlt_alt in E. split; Lqa.lra.
  - apply Qgt_alt in E. rewrite inject_Z_plus. change (inject_Z 1) with 1.
    split; Lqa.lra.
Qed.

Lemma mapM_map : forall (A B : Type) (f : A -> result B) (g : A -> B) (l : list A),
  (forall a, In a l -> f a = Ok (g a)) -> mapM f l = Ok (map g l).
Proof.
  intros A B f g. induction l as [|a l IH]; intros H; simpl; [reflexivity|].
  rewrite (H a) by (left; reflexivity). simpl.
  rewrite IH by (intros b Hb; apply H; right; exact Hb). reflexivity.
Qed.

(** C8: for a fitted model and probabilities of [0, 1), [transform] returns,
    cell by cell and in the order of the input, the rounded value of
    [slope * p + intercept] of the segment of index
    [floor((p + step/2) / step)], an integer nearest to that value; the bin
    label of [fit] is [floor(p / step)], without the offset. *)
Theorem transform_follows_segments : forall self x y m ps,
  fit self x y = Ok m -> forallb is_prob ps = true ->
  transform m ps = Ok (map (spec_transform_one m) ps) /\
  List.length (map (spec_transform_one m) ps) = List.length ps /\
  Forall (fun p => segment_index self p = Qfloor ((p + _step self / 2) / _step self)
                   /\ bin_of self p = Qfloor (p / _step self)
                   /\ Qabs (spec_line m p - inject_Z (spec_transform_one m p)) <= 1 # 2)
         ps.
Proof.
  intros self x y m ps Hfit Hps.
  pose proof (fit_ok self x y m Hfit) as Htr.
  rewrite forallb_forall in Hps.
  split; [|split].
  - unfold transform. apply mapM_map. intros p Hp.
    destruct (is_prob_spec p (Hps p Hp)) as [H0 H1].
    apply (transform_one_spec self); assumption.
  - apply length_map.
  - apply Forall_forall. intros p Hp.
    destruct (is_prob_spec p (Hps p Hp)) as [H0 H1].
    destruct Htr as [_ Hn _ _ _ _].
    split; [|split].
    + apply segment_index_floor; assumption.
    + unfold bin_of. apply py_int_floor. rewrite (div_step self p Hn).
      apply Qmult_le_0_compat; [exact H0|].
      apply Qlt_le_weak. apply n_bins_Qpos. exact Hn.
    + unfold spec_transform_one. apply py_round_nearest.
Qed.

Lemma transform_follows_segments_witness :
  transform demo_model [0; 1 # 4; 1 # 2; 99 # 100]
    = Ok (map (spec_transform_one demo_model) [0; 1 # 4; 1 # 2; 99 # 100]) /\
  List.length (map (spec_transform_one demo_model) [0; 1 # 4; 1 # 2; 99 # 100])
    = List.length [0; 1 # 4; 1 # 2; 99 # 100] /\
  Forall (fun p => segment_index self_two p
                     = Qfloor ((p + _step self_two / 2) / _step self_two)
                   /\ bin_of self_two p = Qfloor (p / _step self_two)
                   /\ Qabs (spec_line demo_model p
                            - inject_Z (spec_transform_one demo_model p)) <= 1 # 2)
         [0; 1 # 4; 1 # 2; 99 # 100].
Proof.
  apply (transform_follows_segments self_two (ndarray1 x_demo) (ndarray1 y_demo)
           demo_model [0; 1 # 4; 1 # 2; 99 # 100]);
    [exact fit_demo | reflexivity].
Defined.

Example transform_demo :
  transform demo_model [0; 1 # 4; 1 # 2; 99 # 100] = Ok [612; 652; 642; 661]%Z.
Proof. vm_compute. reflexivity. Qed.

(** ** Further facts about the repaired column and the table *)

(** what the middle loop stores in a row it visits *)
Lemma mid_step_value : forall col i,
  (i < List.length col)%nat -> Qzero (cell col i) = true ->
  cell (mid_step col i) i =
    if Qzero (cell col (i + 1)) then cell col (i - 1)
    else (cell col (i - 1) + cell col (i + 1)) / 2.
Proof.
  intros col i Hi Hz. unfold mid_step. rewrite Hz.
  destruct (Qzero (cell col (i + 1))); simpl; apply cell_set_cell_same; exact Hi.
Qed.

Lemma column_sum_app : forall l1 l2,
  column_sum (l1 ++ l2) == column_sum l1 + column_sum l2.
Proof.
  induction l1 as [|v l1 IH]; intros l2; simpl.
  - rewrite Qplus_0_l. reflexivity.
  - destruct v; rewrite IH; try reflexivity. apply Qplus_assoc.
Qed.

Lemma column_sum_rev : forall l, column_sum (rev l) == column_sum l.
Proof.
  induction l as [|v l IH]; simpl; [reflexivity|].
  rewrite column_sum_app, IH. destruct v; simpl; ring.
Qed.

Lemma finish_bins_counts : forall self pls rows bdf,
  finish_bins self pls rows = Ok bdf -> List.length pls = List.length rows ->
  map counts bdf = map fst rows.
Proof.
  intros self. induction pls as [|pl pls IH]; intros [|r rows] bdf H Hlen;
    simpl in *; try discriminate.
  - inversion H. reflexivity.
  - apply bind_ok in H. destruct H as [b [Hb H]].
    apply bind_ok in H. destruct H as [bs [Hbs H]]. inversion H; subst bdf.
    unfold finish_bin in Hb. apply bind_ok in Hb. destruct Hb as [sc [_ Hb]].
    inversion Hb; subst b. simpl. f_equal. apply IH; [exact Hbs|lia].
Qed.

Lemma map_fst_combine : forall (A B : Type) (l : list A) (l' : list B),
  List.length l = List.length l' -> map fst (combine l l') = l.
Proof.
  intros A B. induction l as [|a l IH]; intros [|b l'] H; simpl in *;
    try discriminate; auto.
  f_equal. apply IH. lia.
Qed.

(** the hits of the table [fit] keeps are those counted before the repair *)
Lemma hits_survive_calc_bins : forall self xs ys bdf,
  calc_bins self xs ys = Ok bdf ->
  column_sum (map (fun b => hits (counts b)) bdf)
  == column_sum (map hits (prebinning self (score_df self xs ys))).
Proof.
  intros self xs ys bdf H.
  apply calc_bins_inv in H. destruct H as [col [Hcol [Hal Hfin]]].
  pose proof (adjust_odds_length _ _ _ Hcol) as Hlc.
  assert (Hlen : List.length (arange_step self)
                 = List.length (ordered self
                     (combine (prebinning self (score_df self xs ys)) col))).
  { rewrite arange_step_length, Hal. unfold ordered.
    destruct (_bad_flag self); rewrite ?length_rev, length_combine,
      prebinning_length, Hlc, prebinning_length; lia. }
  rewrite <- (map_map counts hits).
  rewrite (finish_bins_counts _ _ _ _ Hfin Hlen).
  unfold ordered. destruct (_bad_flag self).
  - rewrite map_rev, map_fst_combine by (symmetry; exact Hlc).
    rewrite map_rev. apply column_sum_rev.
  - rewrite map_fst_combine by (symmetry; exact Hlc). reflexivity.
Qed.

(** samples of one class only leave every bin without defined odds *)
Lemma sum_constant_labels : forall (c : Z) (g : list sample),
  (forall s, In s g -> s_label s = c) ->
  fold_right Z.add 0%Z (map s_label g) = (c * Z.of_nat (List.length g))%Z.
Proof.
  intros c. induction g as [|s g IH]; intros H; [simpl; lia|].
  change (fold_right Z.add 0%Z (map s_label (s :: g)))
    with (s_label s + fold_right Z.add 0%Z (map s_label g))%Z.
  rewrite IH by (intros t Ht; apply H; right; exact Ht).
  rewrite (H s) by (left; reflexivity).
  change (List.length (s :: g)) with (S (List.length g)). lia.
Qed.

Lemma clean_fdiv_zero_divisor : forall a b,
  Qzero b = true -> Qzero (clean_odds (fdiv (Fin a) (Fin b))) = true.
Proof.
  intros a b Hb. unfold fdiv. rewrite Hb. destruct (Qzero a); reflexivity.
Qed.

Lemma clean_fdiv_zero_dividend : forall a b,
  Qzero a = true -> Qzero (clean_odds (fdiv (Fin a) (Fin b))) = true.
Proof.
  intros a b Ha. unfold fdiv. rewrite Ha. destruct (Qzero b); [reflexivity|].
  unfold clean_odds. simpl. apply Qzero_true. apply Qzero_true in Ha.
  rewrite Ha. unfold Qdiv. apply Qmult_0_l.
Qed.

Lemma single_class_degenerate : forall self sdf c,
  (c = 0 \/ c = 1)%Z -> (forall s, In s sdf -> s_label s = c) ->
  all_degenerate (prebinning self sdf) = true.
Proof.
  intros self sdf c Hc Hall. unfold all_degenerate, prebinning.
  apply forallb_forall. intros r Hr. apply in_map_iff in Hr.
  destruct Hr as [b [<- _]]. unfold prebin, group_count, group_sum.
  assert (Hg : forall s, In s (group sdf b) -> s_label s = c).
  { intros s Hs. apply Hall. unfold group in Hs. apply filter_In in Hs. tauto. }
  pose proof (sum_constant_labels c (group sdf b) Hg) as Hsum.
  destruct (group sdf b) as [|s g] eqn:Eg; [destruct (_bad_flag self); reflexivity|].
  rewrite Hsum. generalize (Z.of_nat (List.length (s :: g))). intros h.
  cbv zeta. unfold odds, fsub.
  assert (Hz : Qzero (inject_Z (0 * h)) = true) by reflexivity.
  assert (Hd : Qzero (inject_Z h - inject_Z (1 * h)) = true).
  { apply Qzero_true. rewrite Z.mul_1_l. unfold Qminus. apply Qplus_opp_r. }
  destruct Hc as [-> | ->]; destruct (_bad_flag self);
    auto using clean_fdiv_zero_divisor, clean_fdiv_zero_dividend.
Qed.

(** with samples of one class only, whatever the flag, [fit] raises *)
Lemma fit_raises_on_single_class : forall self xs ys c,
  (0 < _n_bins self)%nat -> List.length xs = List.length ys ->
  (c = 0 \/ c = 1)%Z -> (forall l, In l ys -> l = c) ->
  fit self (ndarray1 xs) (ndarray1 ys) = Raise min_empty_error.
Proof.
  intros self xs ys c Hn Hlen Hc Hys.
  apply fit_passes_adjust_error; [exact Hlen|].
  apply degenerate_table_adjust; [exact Hn|].
  apply (single_class_degenerate self _ c Hc).
  intros s Hs. unfold score_df in Hs. apply in_map_iff in Hs.
  destruct Hs as [[p l] [<- Hin]]. simpl. apply Hys.
  apply (in_combine_r _ _ _ _ Hin).
Qed.

(** an estimator that was constructed has at least one bin *)
Lemma init_n_bins : forall n ss so pdo bf self,
  init n ss so pdo bf = Ok self -> (0 < _n_bins self)%nat /\ _n_bins self = n.
Proof.
  intros n ss so pdo bf self H. unfold init in H.
  destruct n; [discriminate|]. inversion H. simpl. split; [lia|reflexivity].
Qed.

(** * The mapping table *)

(** ** Lines through two anchors *)

Lemma segment_of_line : forall a seg p,
  segment_of a = Ok seg ->
  ~ a_prob_r a - a_prob_l a == 0 /\
  line seg p * (a_prob_r a - a_prob_l a)
  == a_score_l a * (a_prob_r a - p) + a_score_r a * (p - a_prob_l a).
Proof.
  intros a seg p H. unfold segment_of in H.
  destruct (Qzero (a_prob_r a - a_prob_l a)) eqn:Ez; [discriminate|].
  apply Qzero_false in Ez. inversion H; subst seg; clear H.
  split; [exact Ez|]. unfold line. simpl. field. exact Ez.
Qed.

Lemma segment_of_left : forall a seg,
  segment_of a = Ok seg -> line seg (a_prob_l a) == a_score_l a.
Proof.
  intros a seg H. destruct (segment_of_line a seg (a_prob_l a) H) as [Hd E].
  apply (Qmult_inj_r _ _ (a_prob_r a - a_prob_l a) Hd). rewrite E. ring.
Qed.

Lemma segment_of_right : forall a seg,
  segment_of a = Ok seg -> line seg (a_prob_r a) == a_score_r a.
Proof.
  intros a seg H. destruct (segment_of_line a seg (a_prob_r a) H) as [Hd E].
  apply (Qmult_inj_r _ _ (a_prob_r a - a_prob_l a) Hd). rewrite E. ring.
Qed.

(** between its anchors a line stays between their scores *)
Lemma segment_of_between : forall a seg p lo hi,
  segment_of a = Ok seg ->
  a_prob_l a <= p -> p <= a_prob_r a -> a_prob_l a < a_prob_r a ->
  lo <= a_score_l a -> lo <= a_score_r a ->
  a_score_l a <= hi -> a_score_r a <= hi ->
  lo <= line seg p /\ line seg p <= hi.
Proof.
  intros a seg p lo hi H Hl Hr Hlt Hlo1 Hlo2 Hhi1 Hhi2.
  destruct (segment_of_line a seg p H) as [_ E].
  assert (Hd : 0 < a_prob_r a - a_prob_l a) by Lqa.lra.
  split.
  - apply (Qmult_le_r _ _ _ Hd). rewrite E.
    assert (lo * (a_prob_r a - p) <= a_score_l a * (a_prob_r a - p)).
    { apply Qmult_le_compat_r; Lqa.lra. }
    assert (lo * (p - a_prob_l a) <= a_score_r a * (p - a_prob_l a)).
    { apply Qmult_le_compat_r; Lqa.lra. }
    Lqa.lra.
  - apply (Qmult_le_r _ _ _ Hd). rewrite E.
    assert (a_score_l a * (a_prob_r a - p) <= hi * (a_prob_r a - p)).
    { apply Qmult_le_compat_r; Lqa.lra. }
    assert (a_score_r a * (p - a_prob_l a) <= hi * (p - a_prob_l a)).
    { apply Qmult_le_compat_r; Lqa.lra. }
    Lqa.lra.
Qed.

(** ** [round] on integers and in order *)

Lemma py_round_eq : forall x y, x == y -> py_round x = py_round y.
Proof.
  intros x y E. unfold py_round. cbv zeta.
  rewrite (Qfloor_comp _ _ E).
  assert (E2 : x - inject_Z (Qfloor y) == y - inject_Z (Qfloor y))
    by (rewrite E; reflexivity).
  rewrite (Qcompare_comp _ _ E2 _ _ (Qeq_refl (1 # 2))). reflexivity.
Qed.

Lemma py_round_inject_Z : forall z, py_round (inject_Z z) = z.
Proof.
  intros z. unfold py_round. cbv zeta. rewrite Qfloor_Z.
  assert (E : Qcompare (inject_Z z - inject_Z z) (1 # 2) = Lt).
  { apply Qlt_alt. setoid_replace (inject_Z z - inject_Z z) with 0 by ring.
    reflexivity. }
  cbv zeta. rewrite E. reflexivity.
Qed.

Lemma py_round_le : forall x y, x <= y -> (py_round x <= py_round y)%Z.
Proof.
  intros x y H. unfold py_round.
  pose proof (Qfloor_resp_le x y H) as Hf.
  pose proof (Qfloor_le x) as Hx0. pose proof (Qlt_floor x) as Hx1.
  pose proof (Qfloor_le y) as Hy0. pose proof (Qlt_floor y) as Hy1.
  destruct (Z.eq_dec (Qfloor x) (Qfloor y)) as [E|E].
  - rewrite <- E in *. clear Hx1 Hy1 Hx0 Hy0 Hf E.
    destruct (Qcompare (x - inject_Z (Qfloor x)) (1 # 2)) eqn:Cx;
      destruct (Qcompare (y - inject_Z (Qfloor x)) (1 # 2)) eqn:Cy;
      try (destruct (Z.even (Qfloor x))); try lia; exfalso;
      repeat match goal with
             | h : Qcompare _ _ = Eq |- _ => apply Qeq_alt in h
             | h : Qcompare _ _ = Lt |- _ => apply Qlt_alt in h
             | h : Qcompare _ _ = Gt |- _ => apply Qgt_alt in h
             end;
      generalize dependent (inject_Z (Qfloor x)); intros; Lqa.lra.
  - assert (Qfloor x + 1 <= Qfloor y)%Z by lia.
    destruct (Qcompare (x - inject_Z (Qfloor x)) (1 # 2));
      destruct (Qcompare (y - inject_Z (Qfloor y)) (1 # 2));
      try (destruct (Z.even (Qfloor x))); try (destruct (Z.even (Qfloor y))); lia.
Qed.

Lemma py_round_between : forall x (lo hi : Z),
  inject_Z lo <= x -> x <= inject_Z hi -> (lo <= py_round x <= hi)%Z.
Proof.
  intros x lo hi Hlo Hhi. split.
  - rewrite <- (py_round_inject_Z lo). apply py_round_le. exact Hlo.
  - rewrite <- (py_round_inject_Z hi). apply py_round_le. exact Hhi.
Qed.

(** ** The anchor nodes of a fitted model *)

Lemma zip_anchor_nth : forall means qs p0 s0 last i,
  List.length means = List.length qs -> (i <= List.length means)%nat ->
  nth_error (zip_anchor (p0 :: means) (s0 :: qs) (means ++ [1]) (qs ++ [last])) i
  = Some (mkAnchor (nth i (p0 :: means ++ [1]) 0) (nth i (s0 :: qs ++ [last]) 0)
                   (nth (S i) (p0 :: means ++ [1]) 0)
                   (nth (S i) (s0 :: qs ++ [last]) 0)).
Proof.
  induction means as [|a ms IH]; intros [|b qs] p0 s0 last i Hlen Hi;
    simpl in Hlen; try discriminate.
  - simpl in Hi. assert (i = 0%nat) by lia. subst i. reflexivity.
  - destruct i as [|i]; [reflexivity|].
    simpl in Hi. change (nth_error (zip_anchor (a :: ms) (b :: qs) (ms ++ [1]) (qs ++ [last])) i
                         = Some (mkAnchor (nth i (a :: ms ++ [1]) 0)
                                          (nth i (b :: qs ++ [last]) 0)
                                          (nth (S i) (a :: ms ++ [1]) 0)
                                          (nth (S i) (b :: qs ++ [last]) 0))).
    apply IH; lia.
Qed.

Lemma Zmax_list_spec : forall l z,
  In z l -> exists hi, Zmax_list l = Ok hi /\ In hi l /\ forall t, In t l -> (t <= hi)%Z.
Proof.
  intros [|a l] z Hz; [destruct Hz|]. clear z Hz.
  simpl. eexists. split; [reflexivity|].
  revert a. induction l as [|b l IH]; intros a; simpl.
  - split; [left; reflexivity|]. intros t [<-|[]]. lia.
  - destruct (IH (Z.max a b)) as [Hin Hle]. split.
    + destruct Hin as [Hin|Hin]; [|right; right; exact Hin].
      rewrite <- Hin. destruct (Z.max_spec a b) as [[_ ->]|[_ ->]]; auto.
    + intros t [Ht|[Ht|Ht]].
      * specialize (Hle (Z.max a b) (or_introl eq_refl)). lia.
      * specialize (Hle (Z.max a b) (or_introl eq_refl)). lia.
      * apply Hle. right; exact Ht.
Qed.

Lemma Zmin_list_spec : forall l z,
  In z l -> exists lo, Zmin_list l = Ok lo /\ In lo l /\ forall t, In t l -> (lo <= t)%Z.
Proof.
  intros [|a l] z Hz; [destruct Hz|]. clear z Hz.
  simpl. eexists. split; [reflexivity|].
  revert a. induction l as [|b l IH]; intros a; simpl.
  - split; [left; reflexivity|]. intros t [<-|[]]. lia.
  - destruct (IH (Z.min a b)) as [Hin Hle]. split.
    + destruct Hin as [Hin|Hin]; [|right; right; exact Hin].
      rewrite <- Hin. destruct (Z.min_spec a b) as [[_ ->]|[_ ->]]; auto.
    + intros t [Ht|[Ht|Ht]].
      * specialize (Hle (Z.min a b) (or_introl eq_refl)). lia.
      * specialize (Hle (Z.min a b) (or_introl eq_refl)). lia.
      * apply Hle. right; exact Ht.
Qed.

(** the extreme scores of a table that has rows *)
Lemma extreme_scores : forall bdf b,
  In b bdf ->
  Zmax_list (map score bdf) = Ok (top_score bdf) /\
  Zmin_list (map score bdf) = Ok (bottom_score bdf) /\
  (forall c, In c bdf -> (bottom_score bdf <= score c <= top_score bdf)%Z).
Proof.
  intros bdf b Hb.
  destruct (Zmax_list_spec (map score bdf) (score b) (in_map score _ _ Hb))
    as [hi [Hhi [_ Hmax]]].
  destruct (Zmin_list_spec (map score bdf) (score b) (in_map score _ _ Hb))
    as [lo [Hlo [_ Hmin]]].
  unfold top_score, bottom_score. rewrite Hhi, Hlo. repeat split; auto.
  - apply Hmin. apply in_map. assumption.
  - apply Hmax. apply in_map. assumption.
Qed.

Lemma anchors_nth : forall self bdf b i,
  In b bdf -> (i <= List.length bdf)%nat ->
  exists anc,
    anchors self bdf = Ok anc /\
    nth_error anc i
    = Some (mkAnchor (node_prob bdf i) (node_score self bdf i)
                     (node_prob bdf (S i)) (node_score self bdf (S i))).
Proof.
  intros self bdf b i Hb Hi.
  destruct (extreme_scores bdf b Hb) as [Hhi [Hlo _]].
  unfold anchors. rewrite Hhi. cbn [bind]. rewrite Hlo. cbn [bind].
  eexists. split; [reflexivity|].
  unfold node_prob, node_score, anchor_probs, anchor_scores, first_anchor, last_anchor.
  apply zip_anchor_nth; rewrite ?length_map; auto.
Qed.

Lemma node_prob_0 : forall bdf, node_prob bdf 0 = 0.
Proof. reflexivity. Qed.

Lemma node_prob_S : forall bdf i b,
  nth_error bdf i = Some b -> node_prob bdf (S i) = mean_prob b.
Proof.
  intros bdf i b H. unfold node_prob, anchor_probs.
  change (nth (S i) (0 :: map mean_prob bdf ++ [1]) 0)
    with (nth i (map mean_prob bdf ++ [1]) 0).
  assert (Hi : (i < List.length bdf)%nat) by (apply nth_error_Some; congruence).
  rewrite app_nth1 by (rewrite length_map; exact Hi).
  apply nth_error_nth. rewrite nth_error_map, H. reflexivity.
Qed.

Lemma node_prob_last : forall bdf, node_prob bdf (S (List.length bdf)) = 1.
Proof.
  intros bdf. unfold node_prob, anchor_probs.
  change (nth (S (List.length bdf)) (0 :: map mean_prob bdf ++ [1]) 0)
    with (nth (List.length bdf) (map mean_prob bdf ++ [1]) 0).
  rewrite app_nth2 by (rewrite length_map; lia).
  rewrite length_map, Nat.sub_diag. reflexivity.
Qed.

Lemma node_score_0 : forall self bdf, node_score self bdf 0 = first_anchor self bdf.
Proof. reflexivity. Qed.

Lemma node_score_S : forall self bdf i b,
  nth_error bdf i = Some b -> node_score self bdf (S i) = inject_Z (score b).
Proof.
  intros self bdf i b H. unfold node_score, anchor_scores.
  change (nth (S i) (first_anchor self bdf
                     :: map inject_Z (map score bdf) ++ [last_anchor self bdf]) 0)
    with (nth i (map inject_Z (map score bdf) ++ [last_anchor self bdf]) 0).
  assert (Hi : (i < List.length bdf)%nat) by (apply nth_error_Some; congruence).
  rewrite app_nth1 by (rewrite !length_map; exact Hi).
  apply nth_error_nth. rewrite !nth_error_map, H. reflexivity.
Qed.

Lemma node_score_last : forall self bdf,
  node_score self bdf (S (List.length bdf)) = last_anchor self bdf.
Proof.
  intros self bdf. unfold node_score, anchor_scores.
  change (nth (S (List.length bdf))
            (first_anchor self bdf
             :: map inject_Z (map score bdf) ++ [last_anchor self bdf]) 0)
    with (nth (List.length bdf)
            (map inject_Z (map score bdf) ++ [last_anchor self bdf]) 0).
  rewrite app_nth2 by (rewrite !length_map; lia).
  rewrite !length_map, Nat.sub_diag. reflexivity.
Qed.

(** the fields of row [i] of the table of a fitted model *)
Lemma fit_bin_fields : forall self x y m i b,
  fit self x y = Ok m -> nth_error (binning_df m) i = Some b ->
  prob_l b = inject_Z (Z.of_nat i) * _step self /\
  prob_r b = prob_l b + _step self /\
  mean_prob b = (prob_l b + prob_r b) / 2 /\
  mean_prob b == (inject_Z (Z.of_nat i) + (1 # 2)) * _step self.
Proof.
  intros self x y m i b Hfit Hb.
  destruct (fit_bin_nth self x y m i b Hfit Hb) as [Hpl _].
  destruct (fit_ok self x y m Hfit) as [_ _ _ _ [xs [ys [col [_ [Hal Hfin]]]]] _].
  destruct (finish_bins_nth _ _ _ _ i b Hfin Hb)
    as [pl [r [_ [_ [Hl [Hr [Hm _]]]]]]].
  assert (E1 : prob_r b = prob_l b + _step self) by (rewrite Hr, Hl; reflexivity).
  assert (E2 : mean_prob b = (prob_l b + prob_r b) / 2)
    by (rewrite Hm, E1, Hl; reflexivity).
  repeat split; auto.
  rewrite E2, E1, Hpl. field.
Qed.

(** segment [i] of a fitted model is the line through nodes [i] and [i+1] *)
Lemma fit_segment : forall self x y m i,
  fit self x y = Ok m -> (i <= _n_bins self)%nat ->
  exists seg,
    nth_error (mapping_df m) i = Some seg /\
    segment_of (mkAnchor (node_prob (binning_df m) i) (node_score self (binning_df m) i)
                         (node_prob (binning_df m) (S i))
                         (node_score self (binning_df m) (S i)))
    = Ok seg.
Proof.
  intros self x y m i Hfit Hi.
  destruct (fit_ok self x y m Hfit) as [_ Hn Hlb _ _ Hseg].
  destruct (binning_df m) as [|b0 bdf] eqn:Eb; [simpl in Hlb; lia|].
  rewrite <- Eb in *.
  assert (Hb0 : In b0 (binning_df m)) by (rewrite Eb; left; reflexivity).
  destruct (anchors_nth self (binning_df m) b0 i Hb0 ltac:(lia)) as [anc [Hanc Hnth]].
  unfold calc_mapping_df in Hseg. rewrite Hanc in Hseg. cbn [bind] in Hseg.
  destruct (mapM_nth _ _ _ _ _ i _ Hseg Hnth) as [seg [H1 H2]].
  exists seg. split; assumption.
Qed.

(** ** Which segment a probability falls in *)

Lemma step_n : forall self,
  (0 < _n_bins self)%nat -> _step self * inject_Z (Z.of_nat (_n_bins self)) == 1.
Proof.
  intros self Hn. unfold _step. field. apply n_bins_nonzero. exact Hn.
Qed.

Lemma step_pos : forall self, (0 < _n_bins self)%nat -> 0 < _step self.
Proof.
  intros self Hn. unfold _step. apply Qlt_shift_div_l.
  - apply n_bins_Qpos. exact Hn.
  - rewrite Qmult_0_l. reflexivity.
Qed.

Lemma scale_le : forall self a p,
  (0 < _n_bins self)%nat ->
  a <= p * inject_Z (Z.of_nat (_n_bins self)) -> a * _step self <= p.
Proof.
  intros self a p Hn H.
  setoid_replace p with (p * inject_Z (Z.of_nat (_n_bins self)) * _step self).
  - apply Qmult_le_compat_r; [exact H|]. apply Qlt_le_weak, step_pos, Hn.
  - rewrite <- Qmult_assoc, (Qmult_comm (inject_Z _)), step_n by exact Hn. ring.
Qed.

Lemma scale_ge : forall self a p,
  (0 < _n_bins self)%nat ->
  p * inject_Z (Z.of_nat (_n_bins self)) <= a -> p <= a * _step self.
Proof.
  intros self a p Hn H.
  setoid_replace p with (p * inject_Z (Z.of_nat (_n_bins self)) * _step self) at 1.
  - apply Qmult_le_compat_r; [exact H|]. apply Qlt_le_weak, step_pos, Hn.
  - rewrite <- Qmult_assoc, (Qmult_comm (inject_Z _)), step_n by exact Hn. ring.
Qed.

Lemma segment_index_value : forall self p k,
  (0 < _n_bins self)%nat ->
  inject_Z (Z.of_nat k) <= p * inject_Z (Z.of_nat (_n_bins self)) + (1 # 2) ->
  p * inject_Z (Z.of_nat (_n_bins self)) + (1 # 2) < inject_Z (Z.of_nat k) + 1 ->
  segment_index self p = Z.of_nat k.
Proof.
  intros self p k Hn Hlo Hhi. unfold segment_index.
  assert (H0 : 0 <= inject_Z (Z.of_nat k)).
  { change 0 with (inject_Z 0). rewrite <- Zle_Qle. lia. }
  rewrite py_int_floor by (rewrite (segment_arg self p Hn); Lqa.lra).
  rewrite (segment_arg self p Hn).
  destruct (Qfloor_bounds (p * inject_Z (Z.of_nat (_n_bins self)) + (1 # 2))
              (Z.of_nat k) (Z.of_nat k + 1)) as [Ha Hb]; auto.
  - rewrite inject_Z_plus. exact Hhi.
  - lia.
Qed.

(** [transform] on a probability of segment [k] *)
Lemma transform_one_at : forall self x y m p k,
  fit self x y = Ok m -> segment_index self p = Z.of_nat k -> (k <= _n_bins self)%nat ->
  exists seg,
    nth_error (mapping_df m) k = Some seg /\
    segment_of (mkAnchor (node_prob (binning_df m) k) (node_score self (binning_df m) k)
                         (node_prob (binning_df m) (S k))
                         (node_score self (binning_df m) (S k)))
    = Ok seg /\
    transform_one m p = Ok (py_round (line seg p)).
Proof.
  intros self x y m p k Hfit Hidx Hk.
  destruct (fit_segment self x y m k Hfit Hk) as [seg [Hnth Hseg]].
  exists seg. repeat split; auto.
  destruct (fit_ok self x y m Hfit) as [Hc _ _ _ _ _].
  unfold transform_one. rewrite Hc, Hidx. unfold lookup_segment.
  destruct (Z.ltb_spec (Z.of_nat k) 0); [lia|].
  rewrite Nat2Z.id, Hnth. reflexivity.
Qed.

Lemma mean_prob_index : forall self x y m i b,
  fit self x y = Ok m -> nth_error (binning_df m) i = Some b ->
  segment_index self (mean_prob b) = Z.of_nat (S i) /\ (S i <= _n_bins self)%nat.
Proof.
  intros self x y m i b Hfit Hb.
  destruct (fit_ok self x y m Hfit) as [_ Hn Hlb _ _ _].
  destruct (fit_bin_fields self x y m i b Hfit Hb) as [_ [_ [_ Hm]]].
  assert (Hi : (i < List.length (binning_df m))%nat) by (apply nth_error_Some; congruence).
  split; [|lia].
  assert (E : mean_prob b * inject_Z (Z.of_nat (_n_bins self))
              == inject_Z (Z.of_nat i) + (1 # 2)).
  { rewrite Hm, <- Qmult_assoc, step_n by exact Hn. ring. }
  apply segment_index_value; auto; rewrite E, Nat2Z.inj_succ;
    unfold Z.succ; rewrite inject_Z_plus; change (inject_Z 1) with 1.
  - setoid_replace (inject_Z (Z.of_nat i) + (1 # 2) + (1 # 2))
      with (inject_Z (Z.of_nat i) + 1) by ring. apply Qle_refl.
  - setoid_replace (inject_Z (Z.of_nat i) + (1 # 2) + (1 # 2))
      with (inject_Z (Z.of_nat i) + 1 + 0) by ring.
    apply Qplus_lt_r. reflexivity.
Qed.

(** X1: in a fitted model the two segments that meet at the anchor of bin
    [i] both take the score of the bin at its mean probability, so the
    mapping is continuous there. *)
Theorem segments_meet_at_anchors : forall self x y m i b,
  fit self x y = Ok m -> nth_error (binning_df m) i = Some b ->
  exists seg_l seg_r,
    nth_error (mapping_df m) i = Some seg_l /\
    nth_error (mapping_df m) (S i) = Some seg_r /\
    line seg_l (mean_prob b) == inject_Z (score b) /\
    line seg_r (mean_prob b) == inject_Z (score b).
Proof.
  intros self x y m i b Hfit Hb.
  destruct (mean_prob_index self x y m i b Hfit Hb) as [_ Hi].
  destruct (fit_segment self x y m i Hfit ltac:(lia)) as [sl [Hl Hsl]].
  destruct (fit_segment self x y m (S i) Hfit Hi) as [sr [Hr Hsr]].
  exists sl, sr. repeat split; auto.
  - pose proof (segment_of_right _ _ Hsl) as E. simpl in E.
    rewrite (node_prob_S _ _ _ Hb), (node_score_S _ _ _ _ Hb) in E. exact E.
  - pose proof (segment_of_left _ _ Hsr) as E. simpl in E.
    rewrite (node_prob_S _ _ _ Hb), (node_score_S _ _ _ _ Hb) in E. exact E.
Qed.

(** X2: [transform] maps the mean probability of every bin of a fitted model
    onto the score of that bin. *)
Theorem transform_returns_bin_scores : forall self x y m i b,
  fit self x y = Ok m -> nth_error (binning_df m) i = Some b ->
  transform_one m (mean_prob b) = Ok (score b).
Proof.
  intros self x y m i b Hfit Hb.
  destruct (mean_prob_index self x y m i b Hfit Hb) as [Hidx Hi].
  destruct (transform_one_at self x y m (mean_prob b) (S i) Hfit Hidx Hi)
    as [seg [_ [Hseg Ht]]].
  rewrite Ht. f_equal.
  pose proof (segment_of_left _ _ Hseg) as E. simpl in E.
  rewrite (node_prob_S _ _ _ Hb), (node_score_S _ _ _ _ Hb) in E.
  rewrite (py_round_eq _ _ E). apply py_round_inject_Z.
Qed.

(** probability 0 lies in segment 0, probability 1 in segment [n_bins] *)
Lemma end_indices : forall self,
  (0 < _n_bins self)%nat ->
  segment_index self 0 = Z.of_nat 0 /\
  segment_index self 1 = Z.of_nat (_n_bins self).
Proof.
  intros self Hn. pose proof (n_bins_Qpos self Hn) as HN. split.
  - apply segment_index_value; auto; change (inject_Z (Z.of_nat 0)) with 0; Lqa.lra.
  - apply segment_index_value; auto; Lqa.lra.
Qed.

(** X3: [transform] of a fitted model maps probability 0 onto the extreme
    bin score moved by a full [pdo] ([max + pdo] with [bad_flag],
    [min - pdo] without), and accepts probability 1, which it maps onto an
    integer nearest to the other extreme moved by half a [pdo]: that very
    number when [pdo] is even, and one of its two neighbours when [pdo] is
    odd and the number a half. *)
Theorem transform_at_the_ends : forall self x y m,
  fit self x y = Ok m ->
  transform_one m 0
    = Ok (if _bad_flag self then top_score (binning_df m) + _pdo self
          else bottom_score (binning_df m) - _pdo self)%Z /\
  exists z,
    transform_one m 1 = Ok z /\
    Qabs ((if _bad_flag self
           then inject_Z (bottom_score (binning_df m)) - inject_Z (_pdo self) / 2
           else inject_Z (top_score (binning_df m)) + inject_Z (_pdo self) / 2)
          - inject_Z z) <= 1 # 2 /\
    (Z.even (_pdo self) = true ->
     z = (if _bad_flag self then bottom_score (binning_df m) - _pdo self / 2
          else top_score (binning_df m) + _pdo self / 2)%Z).
Proof.
  intros self x y m Hfit.
  destruct (fit_ok self x y m Hfit) as [_ Hn Hlb _ _ _].
  destruct (end_indices self Hn) as [H0 H1]. split.
  - destruct (transform_one_at self x y m 0 0 Hfit H0 ltac:(lia)) as [seg [_ [Hseg Ht]]].
    rewrite Ht. f_equal.
    pose proof (segment_of_left _ _ Hseg) as E. simpl in E.
    rewrite node_prob_0, node_score_0 in E. rewrite (py_round_eq _ _ E).
    unfold first_anchor. destruct (_bad_flag self).
    + rewrite <- inject_Z_plus. apply py_round_inject_Z.
    + unfold Qminus. rewrite <- inject_Z_opp, <- inject_Z_plus. apply py_round_inject_Z.
  - destruct (transform_one_at self x y m 1 (_n_bins self) Hfit H1 ltac:(lia))
      as [seg [_ [Hseg Ht]]].
    pose proof (segment_of_right _ _ Hseg) as E. simpl in E.
    rewrite <- Hlb in E. rewrite node_prob_last, node_score_last in E.
    unfold last_anchor in E.
    eexists. split; [exact Ht|]. rewrite (py_round_eq _ _ E). split.
    + apply py_round_nearest.
    + intros He. apply Z.even_spec in He. destruct He as [k Hk].
      assert (Hq : (_pdo self / 2)%Z = k)
        by (rewrite Hk, Z.mul_comm; apply Z.div_mul; lia).
      assert (Hh : inject_Z (_pdo self) / 2 == inject_Z k)
        by (rewrite Hk, inject_Z_mult; field).
      rewrite Hq. destruct (_bad_flag self).
      * rewrite <- (py_round_inject_Z (bottom_score (binning_df m) - k)).
        apply py_round_eq. rewrite Hh. unfold Zminus.
        rewrite inject_Z_plus, inject_Z_opp. reflexivity.
      * rewrite <- (py_round_inject_Z (top_score (binning_df m) + k)).
        apply py_round_eq. rewrite Hh, inject_Z_plus. reflexivity.
Qed.

(** ** Bounds of the mapping *)

Lemma node_prob_value : forall self x y m k,
  fit self x y = Ok m -> (k <= _n_bins self)%nat ->
  (k = 0%nat \/ node_prob (binning_df m) k == (inject_Z (Z.of_nat k) - (1 # 2)) * _step self)
  /\ (k = _n_bins self \/
      node_prob (binning_df m) (S k) == (inject_Z (Z.of_nat k) + (1 # 2)) * _step self).
Proof.
  intros self x y m k Hfit Hk.
  destruct (fit_ok self x y m Hfit) as [_ Hn Hlb _ _ _].
  assert (Hnode : forall i, (i < _n_bins self)%nat ->
            node_prob (binning_df m) (S i)
            == (inject_Z (Z.of_nat i) + (1 # 2)) * _step self).
  { intros i Hi.
    destruct (nth_error (binning_df m) i) as [b|] eqn:Eb.
    - rewrite (node_prob_S _ _ _ Eb).
      apply (fit_bin_fields self x y m i b Hfit Eb).
    - apply nth_error_None in Eb. lia. }
  split.
  - destruct k as [|i]; [left; reflexivity|right].
    rewrite (Hnode i) by lia. rewrite Nat2Z.inj_succ. unfold Z.succ.
    rewrite inject_Z_plus. change (inject_Z 1) with 1. ring.
  - destruct (Nat.eq_dec k (_n_bins self)) as [E|E]; [left; exact E|right].
    apply Hnode. lia.
Qed.

(** a probability of [0, 1] lies between the two nodes of its segment *)
Lemma segment_covers : forall self x y m p,
  fit self x y = Ok m -> 0 <= p -> p <= 1 ->
  exists k,
    (k <= _n_bins self)%nat /\ segment_index self p = Z.of_nat k /\
    node_prob (binning_df m) k <= p /\ p <= node_prob (binning_df m) (S k) /\
    node_prob (binning_df m) k < node_prob (binning_df m) (S k).
Proof.
  intros self x y m p Hfit H0 H1.
  destruct (fit_ok self x y m Hfit) as [_ Hn Hlb _ _ _].
  pose proof (n_bins_Qpos self Hn) as HN.
  pose proof (step_pos self Hn) as Hs.
  pose proof (step_n self Hn) as Hsn.
  set (N := inject_Z (Z.of_nat (_n_bins self))) in *.
  set (a := p * N + (1 # 2)).
  assert (HpN : 0 <= p * N) by (apply Qmult_le_0_compat; Lqa.lra).
  assert (HpN1 : p * N <= 1 * N) by (apply Qmult_le_compat_r; Lqa.lra).
  destruct (Qfloor_bounds a 0 (Z.of_nat (_n_bins self) + 1)) as [Hf0 Hf1].
  { change (inject_Z 0) with 0. unfold a. Lqa.lra. }
  { rewrite inject_Z_plus. change (inject_Z 1) with 1. fold N. unfold a. Lqa.lra. }
  pose proof (Qfloor_le a) as Ha0. pose proof (Qlt_floor a) as Ha1.
  rewrite inject_Z_plus in Ha1. change (inject_Z 1) with 1 in Ha1.
  set (k := Z.to_nat (Qfloor a)).
  assert (Ek : Z.of_nat k = Qfloor a) by (unfold k; apply Z2Nat.id; exact Hf0).
  rewrite <- Ek in Ha0, Ha1.
  assert (Hk : (k <= _n_bins self)%nat) by lia.
  exists k. split; [exact Hk|]. split.
  { apply segment_index_value; auto. }
  destruct (node_prob_value self x y m k Hfit Hk) as [Hlo Hhi].
  assert (Hl : node_prob (binning_df m) k <= p).
  { destruct Hlo as [-> | E]; [rewrite node_prob_0; exact H0|].
    rewrite E. apply (scale_le self _ p Hn). fold N. unfold a in Ha0. Lqa.lra. }
  assert (Hr : p <= node_prob (binning_df m) (S k)).
  { destruct Hhi as [E | E].
    - rewrite E, <- Hlb, node_prob_last. exact H1.
    - rewrite E. apply (scale_ge self _ p Hn). fold N. unfold a in Ha1. Lqa.lra. }
  repeat split; auto.
  destruct Hlo as [E0 | E0]; destruct Hhi as [E1 | E1].
  - rewrite E1 in E0. lia.
  - subst k. rewrite E0 in *. rewrite node_prob_0, E1.
    change (inject_Z (Z.of_nat 0)) with 0.
    setoid_replace ((0 + (1 # 2)) * _step self) with ((1 # 2) * _step self) by ring.
    Lqa.lra.
  - rewrite E0.
    replace (S k) with (S (List.length (binning_df m))) by (rewrite Hlb, E1; reflexivity).
    rewrite node_prob_last, E1.
    fold N. apply Qlt_le_trans with (N * _step self).
    + apply Qmult_lt_compat_r; [exact Hs|]. Lqa.lra.
    + rewrite Qmult_comm, Hsn. apply Qle_refl.
  - rewrite E0, E1. apply Qmult_lt_compat_r; [exact Hs|]. Lqa.lra.
Qed.

Lemma fit_has_bin : forall self x y m,
  fit self x y = Ok m -> exists b, nth_error (binning_df m) 0 = Some b /\ In b (binning_df m).
Proof.
  intros self x y m Hfit.
  destruct (fit_ok self x y m Hfit) as [_ Hn Hlb _ _ _].
  destruct (binning_df m) as [|b l]; [simpl in Hlb; lia|].
  exists b. split; [reflexivity|left; reflexivity].
Qed.

(** every anchor score lies within a [pdo] of the bin scores *)
Lemma node_score_bounds : forall self x y m k,
  fit self x y = Ok m -> (0 <= _pdo self)%Z -> (k <= S (_n_bins self))%nat ->
  inject_Z (bottom_score (binning_df m) - _pdo self) <= node_score self (binning_df m) k /\
  node_score self (binning_df m) k <= inject_Z (top_score (binning_df m) + _pdo self).
Proof.
  intros self x y m k Hfit Hp Hk.
  destruct (fit_ok self x y m Hfit) as [_ Hn Hlb _ _ _].
  destruct (fit_has_bin self x y m Hfit) as [b0 [_ Hb0]].
  destruct (extreme_scores (binning_df m) b0 Hb0) as [_ [_ Hext]].
  assert (Hbt : (bottom_score (binning_df m) <= top_score (binning_df m))%Z).
  { specialize (Hext b0 Hb0). lia. }
  assert (Hq : 0 <= inject_Z (_pdo self)).
  { change 0 with (inject_Z 0). rewrite <- Zle_Qle. exact Hp. }
  rewrite Zle_Qle in Hbt.
  unfold Z.sub. rewrite !inject_Z_plus, inject_Z_opp.
  destruct k as [|i].
  - rewrite node_score_0. unfold first_anchor. destruct (_bad_flag self); split; Lqa.lra.
  - destruct (nth_error (binning_df m) i) as [b|] eqn:Eb.
    + rewrite (node_score_S _ _ _ _ Eb).
      assert (Hin : In b (binning_df m)) by (apply (nth_error_In _ _ Eb)).
      destruct (Hext b Hin) as [H1 H2].
      rewrite Zle_Qle in H1, H2.
      split; Lqa.lra.
    + apply nth_error_None in Eb.
      assert (i = List.length (binning_df m)) by lia. subst i.
      rewrite node_score_last. unfold last_anchor.
      assert (E : inject_Z (_pdo self) == inject_Z (_pdo self) / 2 * 2) by field.
      remember (inject_Z (_pdo self) / 2) as h eqn:Eh. clear Eh.
      destruct (_bad_flag self); split; Lqa.lra.
Qed.

(** X4: with [pdo >= 0], [transform] of a fitted model maps every
    probability of [0, 1] into the range of the bin scores widened by one
    [pdo] at either end. *)
Theorem transform_within_score_range : forall self x y m p,
  fit self x y = Ok m -> (0 <= _pdo self)%Z -> 0 <= p -> p <= 1 ->
  exists z,
    transform_one m p = Ok z /\
    (bottom_score (binning_df m) - _pdo self <= z
     <= top_score (binning_df m) + _pdo self)%Z.
Proof.
  intros self x y m p Hfit Hp H0 H1.
  destruct (segment_covers self x y m p Hfit H0 H1) as [k [Hk [Hidx [Hl [Hr Hlt]]]]].
  destruct (transform_one_at self x y m p k Hfit Hidx Hk) as [seg [_ [Hseg Ht]]].
  exists (py_round (line seg p)). split; [exact Ht|].
  destruct (node_score_bounds self x y m k Hfit Hp ltac:(lia)) as [Ha Hb].
  destruct (node_score_bounds self x y m (S k) Hfit Hp ltac:(lia)) as [Hc Hd].
  destruct (segment_of_between _ seg p
              (inject_Z (bottom_score (binning_df m) - _pdo self))
              (inject_Z (top_score (binning_df m) + _pdo self)) Hseg)
    as [Hlo Hhi]; simpl; auto.
  apply py_round_between; assumption.
Qed.

Lemma transform_within_score_range_witness :
  exists z,
    transform_one demo_model (37 # 100) = Ok z /\
    (bottom_score (binning_df demo_model) - _pdo self_two <= z
     <= top_score (binning_df demo_model) + _pdo self_two)%Z.
Proof.
  apply (transform_within_score_range self_two (ndarray1 x_demo) (ndarray1 y_demo)
           demo_model (37 # 100));
    [exact fit_demo | simpl; lia | unfold Qle; simpl; lia | unfold Qle; simpl; lia].
Defined.

Lemma segments_meet_at_anchors_witness :
  exists seg_l seg_r,
    nth_error (mapping_df demo_model) 1 = Some seg_l /\
    nth_error (mapping_df demo_model) 2 = Some seg_r /\
    line seg_l (12 # 16) == inject_Z 632 /\
    line seg_r (12 # 16) == inject_Z 632.
Proof.
  apply (segments_meet_at_anchors self_two (ndarray1 x_demo) (ndarray1 y_demo)
           demo_model 1 (mkBin (1 # 2) (4 # 4) (12 # 16) 632 (counted 1 1) 1));
    [exact fit_demo | reflexivity].
Defined.

Lemma transform_returns_bin_scores_witness :
  transform_one demo_model (12 # 16) = Ok 632%Z.
Proof.
  apply (transform_returns_bin_scores self_two (ndarray1 x_demo) (ndarray1 y_demo)
           demo_model 1 (mkBin (1 # 2) (4 # 4) (12 # 16) 632 (counted 1 1) 1));
    [exact fit_demo | reflexivity].
Defined.

Lemma transform_at_the_ends_witness :
  transform_one demo_model 0
    = Ok (if _bad_flag self_two then top_score (binning_df demo_model) + _pdo self_two
          else bottom_score (binning_df demo_model) - _pdo self_two)%Z /\
  exists z,
    transform_one demo_model 1 = Ok z /\
    Qabs ((if _bad_flag self_two
           then inject_Z (bottom_score (binning_df demo_model))
                - inject_Z (_pdo self_two) / 2
           else inject_Z (top_score (binning_df demo_model))
                + inject_Z (_pdo self_two) / 2)
          - inject_Z z) <= 1 # 2 /\
    (Z.even (_pdo self_two) = true ->
     z = (if _bad_flag self_two
          then bottom_score (binning_df demo_model) - _pdo self_two / 2
          else top_score (binning_df demo_model) + _pdo self_two / 2)%Z).
Proof.
  apply (transform_at_the_ends self_two (ndarray1 x_demo) (ndarray1 y_demo) demo_model).
  exact fit_demo.
Defined.

(** ** The model fitted with [bad_flag] *)

Lemma calc_bins_flag : calc_bins self_flag x_flag y_flag = Ok flag_bins.
Proof.
  cbv -[int_R raw_score].
  rewrite (score_check_value (mkSelf 2 500 (1 # 100) 20 true) 2 652)
    by (vm_compute; reflexivity).
  rewrite (score_check_value (mkSelf 2 500 (1 # 100) 20 true) (1 # 2) 612)
    by (vm_compute; reflexivity).
  reflexivity.
Qed.

Lemma fit_flag : fit self_flag (ndarray1 x_flag) (ndarray1 y_flag) = Ok flag_model.
Proof.
  unfold fit. rewrite check_inputs_ndarray1 by reflexivity. cbn [bind].
  rewrite !as_column_ndarray1. cbn [bind].
  rewrite calc_bins_flag. cbn [bind].
  replace (calc_mapping_df self_flag flag_bins) with (Ok flag_mapping)
    by (vm_compute; reflexivity).
  reflexivity.
Qed.

(** ** Monotone mapping *)

Lemma ole_refl : forall bad a, ole bad a a.
Proof. intros [|] a; simpl; apply Qle_refl. Qed.

Lemma ole_trans : forall bad a b c, ole bad a b -> ole bad b c -> ole bad a c.
Proof.
  intros [|] a b c H1 H2; simpl in *; eapply Qle_trans; eauto.
Qed.

Lemma ole_round : forall bad a b,
  ole bad a b -> (oriented bad (py_round a) <= oriented bad (py_round b))%Z.
Proof.
  intros [|] a b H; simpl in *.
  - apply py_round_le in H. lia.
  - apply py_round_le. exact H.
Qed.

Lemma ole_inject : forall bad s t,
  (oriented bad s <= oriented bad t)%Z -> ole bad (inject_Z s) (inject_Z t).
Proof.
  intros [|] s t H; simpl in *; rewrite <- Zle_Qle; lia.
Qed.

Lemma nondecreasing_consecutive : forall l i a b,
  nondecreasing l = true -> nth_error l i = Some a -> nth_error l (S i) = Some b ->
  (a <= b)%Z.
Proof.
  induction l as [|h t IH]; intros i a b Hs Ha Hb; [destruct i; discriminate|].
  destruct t as [|h' t']; [destruct i; simpl in Hb; try discriminate;
                           destruct i; discriminate|].
  change (nondecreasing (h :: h' :: t'))
    with ((h <=? h')%Z && nondecreasing (h' :: t')) in Hs.
  apply andb_true_iff in Hs. destruct Hs as [Hh Ht].
  destruct i as [|i].
  - simpl in Ha, Hb. inversion Ha; inversion Hb; subst. apply Z.leb_le. exact Hh.
  - apply (IH i a b Ht); assumption.
Qed.

Lemma segment_of_monotone : forall a seg p q,
  segment_of a = Ok seg -> a_prob_l a < a_prob_r a -> p <= q ->
  (a_score_l a <= a_score_r a -> line seg p <= line seg q) /\
  (a_score_r a <= a_score_l a -> line seg q <= line seg p).
Proof.
  intros a seg p q H Hlt Hpq.
  destruct (segment_of_line a seg p H) as [_ Ep].
  destruct (segment_of_line a seg q H) as [_ Eq].
  assert (Hd : 0 < a_prob_r a - a_prob_l a) by Lqa.lra.
  assert (E : line seg q * (a_prob_r a - a_prob_l a)
              - line seg p * (a_prob_r a - a_prob_l a)
              == (a_score_r a - a_score_l a) * (q - p)).
  { rewrite Ep, Eq. ring. }
  split; intros Hs.
  - apply (Qmult_le_r _ _ _ Hd).
    assert (0 <= (a_score_r a - a_score_l a) * (q - p))
      by (apply Qmult_le_0_compat; Lqa.lra).
    Lqa.lra.
  - apply (Qmult_le_r _ _ _ Hd).
    assert (0 <= (a_score_l a - a_score_r a) * (q - p))
      by (apply Qmult_le_0_compat; Lqa.lra).
    assert ((a_score_l a - a_score_r a) * (q - p)
            == - ((a_score_r a - a_score_l a) * (q - p))) by ring.
    Lqa.lra.
Qed.

Section Monotone.
Variables (self : ScoreCardTransformer) (x : array_like Q) (y : array_like Z).
Variable m : fitted.
Hypothesis Hfit : fit self x y = Ok m.
Hypothesis Hpdo : (0 <= _pdo self)%Z.
Hypothesis Hsorted : scores_follow_flag self (binning_df m) = true.

Lemma nodes_step : forall k,
  (k <= _n_bins self)%nat ->
  ole (_bad_flag self) (node_score self (binning_df m) k)
      (node_score self (binning_df m) (S k)).
Proof.
  intros k Hk.
  destruct (fit_ok self x y m Hfit) as [_ Hn Hlb _ _ _].
  destruct (fit_has_bin self x y m Hfit) as [b0 [Hb0 Hin0]].
  destruct (extreme_scores (binning_df m) b0 Hin0) as [_ [_ Hext]].
  assert (Hq : 0 <= inject_Z (_pdo self)).
  { change 0 with (inject_Z 0). rewrite <- Zle_Qle. exact Hpdo. }
  assert (E : inject_Z (_pdo self) == inject_Z (_pdo self) / 2 * 2) by field.
  destruct k as [|i].
  - rewrite node_score_0, (node_score_S _ _ _ _ Hb0). unfold ole, first_anchor.
    destruct (Hext b0 Hin0) as [H1 H2]. rewrite Zle_Qle in H1, H2.
    destruct (_bad_flag self); Lqa.lra.
  - destruct (nth_error (binning_df m) i) as [b|] eqn:Eb;
      [|apply nth_error_None in Eb; lia].
    rewrite (node_score_S _ _ _ _ Eb).
    destruct (nth_error (binning_df m) (S i)) as [b'|] eqn:Eb'.
    + rewrite (node_score_S _ _ _ _ Eb'). apply ole_inject.
      unfold scores_follow_flag in Hsorted.
      apply (nondecreasing_consecutive _ i _ _ Hsorted);
        rewrite nth_error_map; [rewrite Eb|rewrite Eb']; reflexivity.
    + apply nth_error_None in Eb'.
      assert (S i = List.length (binning_df m)) by lia.
      replace (S (S i)) with (S (List.length (binning_df m))) by lia.
      rewrite node_score_last. unfold ole, last_anchor.
      destruct (Hext b (nth_error_In _ _ Eb)) as [H1 H2]. rewrite Zle_Qle in H1, H2.
      remember (inject_Z (_pdo self) / 2) as h eqn:Eh. clear Eh.
      destruct (_bad_flag self); Lqa.lra.
Qed.

Lemma nodes_chain : forall d k,
  (k + d <= S (_n_bins self))%nat ->
  ole (_bad_flag self) (node_score self (binning_df m) k)
      (node_score self (binning_df m) (k + d)).
Proof.
  induction d as [|d IH]; intros k Hk.
  - rewrite Nat.add_0_r. apply ole_refl.
  - apply ole_trans with (node_score self (binning_df m) (k + d)).
    + apply IH. lia.
    + replace (k + S d)%nat with (S (k + d)) by lia. apply nodes_step. lia.
Qed.

(** within its segment the line runs from the left node to the right one *)
Lemma line_in_segment : forall k seg p q,
  (k <= _n_bins self)%nat ->
  segment_of (mkAnchor (node_prob (binning_df m) k) (node_score self (binning_df m) k)
                       (node_prob (binning_df m) (S k))
                       (node_score self (binning_df m) (S k))) = Ok seg ->
  node_prob (binning_df m) k < node_prob (binning_df m) (S k) ->
  node_prob (binning_df m) k <= p -> p <= q -> q <= node_prob (binning_df m) (S k) ->
  ole (_bad_flag self) (node_score self (binning_df m) k) (line seg p) /\
  ole (_bad_flag self) (line seg p) (line seg q) /\
  ole (_bad_flag self) (line seg q) (node_score self (binning_df m) (S k)).
Proof.
  intros k seg p q Hk Hseg Hlt Hp Hpq Hq.
  pose proof (nodes_step k Hk) as Hstep.
  pose proof (segment_of_left _ _ Hseg) as El. simpl in El.
  pose proof (segment_of_right _ _ Hseg) as Er. simpl in Er.
  destruct (segment_of_monotone _ seg _ p Hseg Hlt Hp) as [A1 A2].
  destruct (segment_of_monotone _ seg p q Hseg Hlt Hpq) as [B1 B2].
  destruct (segment_of_monotone _ seg q _ Hseg Hlt Hq) as [C1 C2].
  simpl in *. unfold ole in *.
  destruct (_bad_flag self).
  - specialize (A2 Hstep). specialize (B2 Hstep). specialize (C2 Hstep).
    rewrite El in A2. rewrite Er in C2. auto.
  - specialize (A1 Hstep). specialize (B1 Hstep). specialize (C1 Hstep).
    rewrite El in A1. rewrite Er in C1. auto.
Qed.
End Monotone.

Lemma segment_index_le : forall self p q,
  (0 < _n_bins self)%nat -> 0 <= p -> p <= q ->
  (segment_index self p <= segment_index self q)%Z.
Proof.
  intros self p q Hn H0 Hpq.
  rewrite (segment_index_floor self p Hn H0).
  rewrite (segment_index_floor self q Hn) by Lqa.lra.
  unfold spec_segment_index. apply Qfloor_resp_le.
  rewrite !(segment_arg self _ Hn).
  assert (p * inject_Z (Z.of_nat (_n_bins self)) <= q * inject_Z (Z.of_nat (_n_bins self))).
  { apply Qmult_le_compat_r; [exact Hpq|]. apply Qlt_le_weak, n_bins_Qpos, Hn. }
  Lqa.lra.
Qed.

(** X5: when the bin scores of a fitted model run the way the flag has them
    (not decreasing in [prob_l] without [bad_flag], not increasing with it)
    and [pdo >= 0], [transform] is monotone over [0, 1] in the same
    direction. *)
Theorem transform_monotone : forall self x y m p q,
  fit self x y = Ok m -> (0 <= _pdo self)%Z ->
  scores_follow_flag self (binning_df m) = true ->
  0 <= p -> p <= q -> q <= 1 ->
  exists zp zq,
    transform_one m p = Ok zp /\ transform_one m q = Ok zq /\
    (oriented (_bad_flag self) zp <= oriented (_bad_flag self) zq)%Z.
Proof.
  intros self x y m p q Hfit Hpdo Hsorted H0 Hpq H1.
  destruct (fit_ok self x y m Hfit) as [_ Hn _ _ _ _].
  destruct (segment_covers self x y m p Hfit H0 ltac:(Lqa.lra))
    as [kp [Hkp [Hip [Hlp [Hrp Hltp]]]]].
  destruct (segment_covers self x y m q Hfit ltac:(Lqa.lra) H1)
    as [kq [Hkq [Hiq [Hlq [Hrq Hltq]]]]].
  destruct (transform_one_at self x y m p kp Hfit Hip Hkp) as [sp [Hnp [Hsp Htp]]].
  destruct (transform_one_at self x y m q kq Hfit Hiq Hkq) as [sq [Hnq [Hsq Htq]]].
  exists (py_round (line sp p)), (py_round (line sq q)).
  split; [exact Htp|]. split; [exact Htq|]. apply ole_round.
  pose proof (segment_index_le self p q Hn H0 Hpq) as Hle.
  rewrite Hip, Hiq in Hle.
  destruct (Nat.eq_dec kp kq) as [E|E].
  - subst kq. assert (sq = sp) by congruence. subst sq.
    apply (line_in_segment self x y m Hfit Hpdo Hsorted kp sp p q); auto.
  - destruct (line_in_segment self x y m Hfit Hpdo Hsorted kp sp p p)
      as [_ [_ A]]; auto using Qle_refl.
    destruct (line_in_segment self x y m Hfit Hpdo Hsorted kq sq q q)
      as [B _]; auto using Qle_refl.
    apply ole_trans with (node_score self (binning_df m) (S kp)); [exact A|].
    apply ole_trans with (node_score self (binning_df m) kq); [|exact B].
    pose proof (nodes_chain self x y m Hfit Hpdo Hsorted (kq - S kp) (S kp)
                  ltac:(lia)) as C.
    replace (S kp + (kq - S kp))%nat with kq in C by lia. exact C.
Qed.

Lemma transform_monotone_witness :
  exists zp zq,
    transform_one flag_model (1 # 10) = Ok zp /\
    transform_one flag_model (9 # 10) = Ok zq /\
    (oriented (_bad_flag self_flag) zp <= oriented (_bad_flag self_flag) zq)%Z.
Proof.
  apply (transform_monotone self_flag (ndarray1 x_flag) (ndarray1 y_flag) flag_model
           (1 # 10) (9 # 10));
    [exact fit_flag | simpl; lia | reflexivity
    | unfold Qle; simpl; lia | unfold Qle; simpl; lia | unfold Qle; simpl; lia].
Defined.

(** ** Inputs that [transform] refuses *)

Lemma mapM_raise : forall (A B : Type) (f : A -> result B) (e : pyerror) (l : list A) a,
  (forall c err, f c = Raise err -> err = e) ->
  In a l -> f a = Raise e -> mapM f l = Raise e.
Proof.
  intros A B f e. induction l as [|c l IH]; intros a Hall Hin Ha; [destruct Hin|].
  simpl. destruct (f c) as [b|err] eqn:Ec.
  - simpl. destruct Hin as [->|Hin]; [congruence|].
    rewrite (IH a Hall Hin Ha). reflexivity.
  - simpl. rewrite (Hall c err Ec). reflexivity.
Qed.

Lemma transform_one_error : forall m p err,
  transform_one m p = Raise err -> err = nan_to_int_error.
Proof.
  intros m p err H. unfold transform_one in H.
  destruct (lookup_segment (mapping_df m) (segment_index (config m) p));
    [discriminate|congruence].
Qed.

(** X6: one probability whose segment index is no row of the mapping table
    makes the whole call of [transform] raise; no scores are returned for
    the other inputs. *)
Theorem transform_fails_as_a_whole : forall self x y m ps q,
  fit self x y = Ok m -> In q ps -> in_segments self q = false ->
  transform m ps = Raise nan_to_int_error.
Proof.
  intros self x y m ps q Hfit Hin Hq.
  pose proof (transform_one_ok self m q (fit_ok self x y m Hfit)) as Hok.
  rewrite Hq in Hok. unfold transform.
  apply (mapM_raise _ _ _ _ ps q); auto.
  - intros c err. apply transform_one_error.
  - destruct (transform_one m q) as [z|err] eqn:E; [discriminate|].
    rewrite (transform_one_error m q err E). reflexivity.
Qed.

Lemma transform_fails_as_a_whole_witness :
  transform demo_model [1 # 4; 3 # 2; 1 # 2] = Raise nan_to_int_error.
Proof.
  apply (transform_fails_as_a_whole self_two (ndarray1 x_demo) (ndarray1 y_demo)
           demo_model [1 # 4; 3 # 2; 1 # 2] (3 # 2));
    [exact fit_demo | right; left; reflexivity | reflexivity].
Defined.

Lemma py_int_neg : forall q, q < 0 -> py_int q = (- Qfloor (- q))%Z.
Proof.
  intros q Hq. rewrite <- py_int_floor by Lqa.lra.
  destruct q as [n d]. unfold py_int. simpl. rewrite Z.quot_opp_l; lia.
Qed.

(** [int] is not negative from -1 on, and at most [k] below [k + 1] *)
Lemma py_int_range : forall q k,
  (0 <= k)%Z ->
  ((0 <= py_int q)%Z <-> -1 < q) /\ ((py_int q <= k)%Z <-> q < inject_Z k + 1).
Proof.
  intros q k Hk.
  assert (Hk' : 0 <= inject_Z k) by (change 0 with (inject_Z 0); rewrite <- Zle_Qle; lia).
  destruct (Qlt_le_dec q 0) as [Hneg|Hpos].
  - rewrite (py_int_neg q Hneg).
    pose proof (Qfloor_le (- q)) as H1. pose proof (Qlt_floor (- q)) as H2.
    rewrite inject_Z_plus in H2. change (inject_Z 1) with 1 in H2.
    assert (Hf : (0 <= Qfloor (- q))%Z).
    { rewrite <- (Qfloor_Z 0). apply Qfloor_resp_le. change (inject_Z 0) with 0. Lqa.lra. }
    split; split; intros H.
    + assert (E : Qfloor (- q) = 0%Z) by lia. rewrite E in H2.
      change (inject_Z 0) with 0 in H2. Lqa.lra.
    + destruct (Qfloor_bounds (- q) 0 1) as [_ Hb].
      * change (inject_Z 0) with 0. Lqa.lra.
      * change (inject_Z 1) with 1. Lqa.lra.
      * lia.
    + Lqa.lra.
    + lia.
  - rewrite (py_int_floor q Hpos).
    pose proof (Qfloor_le q) as H1. pose proof (Qlt_floor q) as H2.
    rewrite inject_Z_plus in H2. change (inject_Z 1) with 1 in H2.
    assert (Hf : (0 <= Qfloor q)%Z).
    { rewrite <- (Qfloor_Z 0). apply Qfloor_resp_le. exact Hpos. }
    split; split; intros H.
    + Lqa.lra.
    + exact Hf.
    + rewrite Zle_Qle in H. Lqa.lra.
    + destruct (Qfloor_bounds q 0 (k + 1)) as [_ Hb].
      * exact Hpos.
      * rewrite inject_Z_plus. exact H.
      * lia.
Qed.

Lemma scale_lt : forall self a p,
  (0 < _n_bins self)%nat ->
  (a < p * inject_Z (Z.of_nat (_n_bins self)) <-> a * _step self < p) /\
  (p * inject_Z (Z.of_nat (_n_bins self)) < a <-> p < a * _step self).
Proof.
  intros self a p Hn.
  pose proof (step_pos self Hn) as Hs.
  assert (E : p == p * inject_Z (Z.of_nat (_n_bins self)) * _step self).
  { rewrite <- Qmult_assoc, (Qmult_comm (inject_Z _)), step_n by exact Hn. ring. }
  split.
  - rewrite E at 2. symmetry. apply Qmult_lt_r. exact Hs.
  - rewrite E at 2. symmetry. apply Qmult_lt_r. exact Hs.
Qed.

(** X7: the probabilities [transform] accepts are exactly those strictly
    between [-3/2 * step] and [1 + step/2]: [int] cuts toward zero, so inputs
    a little below 0 fall into segment 0 and inputs a little above 1 into
    segment [n_bins]. *)
Theorem transform_accepted_range : forall self p,
  (0 < _n_bins self)%nat ->
  in_segments self p = true <->
  - (3 # 2) * _step self < p /\ p < 1 + _step self / 2.
Proof.
  intros self p Hn. unfold in_segments, segment_index.
  rewrite andb_true_iff, Z.leb_le, Z.leb_le.
  destruct (py_int_range ((p + _step self / 2) / _step self)
              (Z.of_nat (_n_bins self)) ltac:(lia)) as [H0 Hk].
  rewrite H0, Hk, (segment_arg self p Hn).
  destruct (scale_lt self (- (3 # 2)) p Hn) as [Ha _].
  destruct (scale_lt self (inject_Z (Z.of_nat (_n_bins self)) + (1 # 2)) p Hn) as [_ Hb].
  pose proof (step_n self Hn) as Hsn.
  assert (E : (inject_Z (Z.of_nat (_n_bins self)) + (1 # 2)) * _step self
              == 1 + _step self / 2).
  { rewrite Qmult_plus_distr_l, (Qmult_comm (inject_Z _)), Hsn. field. }
  rewrite E in Hb. rewrite <- Ha, <- Hb.
  split; intros [A B]; split; Lqa.lra.
Qed.

Lemma transform_accepted_range_witness :
  in_segments self_two (- (7 # 10)) = true <->
  - (3 # 2) * _step self_two < - (7 # 10) /\ - (7 # 10) < 1 + _step self_two / 2.
Proof.
  apply (transform_accepted_range self_two (- (7 # 10))). simpl. lia.
Defined.

(** * The outcome of [fit] *)

Lemma fit_ndarray1 : forall self xs ys,
  List.length xs = List.length ys ->
  fit self (ndarray1 xs) (ndarray1 ys)
  = (bdf <- calc_bins self xs ys ;;
     mdf <- calc_mapping_df self bdf ;;
     Ok (mkFitted self bdf mdf)).
Proof.
  intros self xs ys Hlen. unfold fit.
  rewrite check_inputs_ndarray1 by exact Hlen. cbn [bind].
  rewrite !as_column_ndarray1. reflexivity.
Qed.

(** the shape of a table that [__calc_bins] returned *)
Lemma calc_bins_shape : forall self xs ys bdf,
  calc_bins self xs ys = Ok bdf ->
  (0 < _n_bins self)%nat /\ List.length bdf = _n_bins self /\
  forall i b, nth_error bdf i = Some b ->
    mean_prob b == (inject_Z (Z.of_nat i) + (1 # 2)) * _step self.
Proof.
  intros self xs ys bdf H.
  apply calc_bins_inv in H. destruct H as [col [Hcol [Hal Hfin]]].
  pose proof (adjust_odds_length _ _ _ Hcol) as Hlc.
  pose proof (adjust_odds_nonempty _ _ _ Hcol) as Hne.
  rewrite prebinning_length in Hlc.
  assert (Hn : (0 < _n_bins self)%nat).
  { destruct (_n_bins self) eqn:E; [|lia]. exfalso. apply Hne.
    unfold prebinning. rewrite E. reflexivity. }
  split; [exact Hn|]. split.
  - rewrite (finish_bins_length _ _ _ _ Hfin).
    rewrite arange_step_length, Hal. unfold ordered.
    destruct (_bad_flag self); rewrite ?length_rev, length_combine,
      prebinning_length, Hlc; lia.
  - intros i b Hb.
    destruct (finish_bins_nth _ _ _ _ i b Hfin Hb) as [pl [r [Hpl [_ [_ [_ [Hm _]]]]]]].
    rewrite (arange_step_fits self Hal) in Hpl. rewrite nth_error_map in Hpl.
    destruct (nth_error (seq 0 (_n_bins self)) i) as [k|] eqn:Ek; [|discriminate].
    assert (Hi : (i < List.length (seq 0 (_n_bins self)))%nat).
    { apply nth_error_Some. rewrite Ek. discriminate. }
    rewrite (nth_error_nth' _ 0%nat Hi) in Ek. rewrite length_seq in Hi.
    rewrite seq_nth in Ek by exact Hi. inversion Ek; subst k.
    simpl in Hpl. inversion Hpl; subst pl. rewrite Hm. field.
Qed.

Section TableShape.
Variable self : ScoreCardTransformer.
Variable bdf : list bin.
Hypothesis Hn : (0 < _n_bins self)%nat.
Hypothesis Hlen : List.length bdf = _n_bins self.
Hypothesis Hmean : forall i b, nth_error bdf i = Some b ->
  mean_prob b == (inject_Z (Z.of_nat i) + (1 # 2)) * _step self.

Lemma shape_node : forall i,
  (i < _n_bins self)%nat ->
  node_prob bdf (S i) == (inject_Z (Z.of_nat i) + (1 # 2)) * _step self.
Proof.
  intros i Hi.
  destruct (nth_error bdf i) as [b|] eqn:Eb.
  - rewrite (node_prob_S _ _ _ Eb). apply (Hmean i b Eb).
  - apply nth_error_None in Eb. lia.
Qed.

(** the anchor probabilities increase strictly, so no segment has width 0 *)
Lemma shape_nodes_increase : forall k,
  (k <= _n_bins self)%nat -> node_prob bdf k < node_prob bdf (S k).
Proof.
  intros k Hk.
  pose proof (step_pos self Hn) as Hs. pose proof (step_n self Hn) as Hsn.
  assert (Hlast : node_prob bdf (S (_n_bins self)) == 1).
  { rewrite <- Hlen, node_prob_last. reflexivity. }
  assert (Htop : forall i, (S i = _n_bins self)%nat ->
            (inject_Z (Z.of_nat i) + (1 # 2)) * _step self < 1).
  { intros i Hi. rewrite <- Hsn, (Qmult_comm (_step self)).
    apply Qmult_lt_compat_r; [exact Hs|].
    rewrite <- Hi, Nat2Z.inj_succ. unfold Z.succ. rewrite inject_Z_plus.
    change (inject_Z 1) with 1. Lqa.lra. }
  destruct k as [|i].
  - rewrite node_prob_0.
    destruct (Nat.eq_dec (_n_bins self) 0) as [E|E]; [lia|].
    rewrite (shape_node 0) by lia. change (inject_Z (Z.of_nat 0)) with 0.
    setoid_replace ((0 + (1 # 2)) * _step self) with ((1 # 2) * _step self) by ring.
    Lqa.lra.
  - rewrite (shape_node i) by lia.
    destruct (Nat.eq_dec (S i) (_n_bins self)) as [E|E].
    + rewrite E, Hlast. apply Htop. exact E.
    + rewrite (shape_node (S i)) by lia.
      apply Qmult_lt_compat_r; [exact Hs|].
      rewrite Nat2Z.inj_succ. unfold Z.succ. rewrite inject_Z_plus.
      change (inject_Z 1) with 1. Lqa.lra.
Qed.

Lemma shape_mapping : exists mdf,
  calc_mapping_df self bdf = Ok mdf /\ List.length mdf = S (_n_bins self).
Proof.
  assert (Hex : exists b0, In b0 bdf).
  { destruct (nth_error bdf 0) as [b0|] eqn:E0.
    - exists b0. apply (nth_error_In _ _ E0).
    - apply nth_error_None in E0. lia. }
  destruct Hex as [b0 Hb0].
  destruct (anchors_nth self bdf b0 0 Hb0 ltac:(lia)) as [anc [Hanc _]].
  unfold calc_mapping_df. rewrite Hanc. cbn [bind].
  assert (Hla : List.length anc = S (_n_bins self)).
  { unfold anchors in Hanc.
    destruct (extreme_scores bdf b0 Hb0) as [Hhi [Hlo _]].
    rewrite Hhi in Hanc. cbn [bind] in Hanc. rewrite Hlo in Hanc. cbn [bind] in Hanc.
    apply Ok_inj in Hanc. rewrite <- Hanc.
    apply zip_anchor_length; simpl; rewrite ?length_app, ?length_map; simpl; lia. }
  assert (Hall : forall a, In a anc -> exists seg, segment_of a = Ok seg).
  { intros a Ha. apply In_nth_error in Ha. destruct Ha as [i Hi].
    assert (Hil : (i < List.length anc)%nat) by (apply nth_error_Some; congruence).
    destruct (anchors_nth self bdf b0 i Hb0 ltac:(lia)) as [anc' [Hanc' Hnth]].
    rewrite Hanc in Hanc'. apply Ok_inj in Hanc'. subst anc'.
    rewrite Hi in Hnth. inversion Hnth; subst a.
    unfold segment_of. simpl.
    pose proof (shape_nodes_increase i ltac:(lia)) as Hlt.
    rewrite Qpos_nonzero by Lqa.lra. eauto. }
  clear Hanc.
  assert (Hm : exists mdf, mapM segment_of anc = Ok mdf).
  { clear Hla. induction anc as [|a anc IH]; [exists []; reflexivity|].
    destruct (Hall a (or_introl eq_refl)) as [seg Hseg].
    destruct IH as [mdf Hmdf]; [intros c Hc; apply Hall; right; exact Hc|].
    exists (seg :: mdf). simpl. rewrite Hseg. simpl. rewrite Hmdf. reflexivity. }
  destruct Hm as [mdf Hmdf]. exists mdf. split; [exact Hmdf|].
  rewrite (mapM_length _ _ _ _ _ Hmdf). exact Hla.
Qed.
End TableShape.

Lemma calc_bins_mapping : forall self xs ys bdf,
  calc_bins self xs ys = Ok bdf ->
  exists mdf, calc_mapping_df self bdf = Ok mdf /\
              List.length mdf = S (_n_bins self).
Proof.
  intros self xs ys bdf Hb.
  destruct (calc_bins_shape self xs ys bdf Hb) as [Hn [Hl Hm]].
  apply shape_mapping; assumption.
Qed.

(** X8: [__calc_mapping_df] never raises on a table that [__calc_bins]
    returned (no segment has width 0), so for two one-dimensional arrays of
    one length [fit] returns a model exactly when [__calc_bins] returns. *)
Theorem fit_returns_with_calc_bins : forall self xs ys,
  List.length xs = List.length ys ->
  is_ok (fit self (ndarray1 xs) (ndarray1 ys)) = is_ok (calc_bins self xs ys) /\
  (forall bdf, calc_bins self xs ys = Ok bdf ->
     exists mdf, calc_mapping_df self bdf = Ok mdf /\
                 List.length mdf = S (_n_bins self) /\
                 fit self (ndarray1 xs) (ndarray1 ys) = Ok (mkFitted self bdf mdf)).
Proof.
  intros self xs ys Hlen. rewrite (fit_ndarray1 self xs ys Hlen).
  split.
  - destruct (calc_bins self xs ys) as [bdf|e] eqn:E; [|reflexivity].
    destruct (calc_bins_mapping self xs ys bdf E) as [mdf [Hmdf _]].
    cbn [bind]. rewrite Hmdf. reflexivity.
  - intros bdf Hb. destruct (calc_bins_mapping self xs ys bdf Hb) as [mdf [Hmdf Hl]].
    exists mdf. repeat split; auto. rewrite Hb. cbn [bind]. rewrite Hmdf. reflexivity.
Qed.

Lemma fit_returns_with_calc_bins_witness :
  is_ok (fit self_flag (ndarray1 x_flag) (ndarray1 y_flag))
    = is_ok (calc_bins self_flag x_flag y_flag) /\
  (forall bdf, calc_bins self_flag x_flag y_flag = Ok bdf ->
     exists mdf, calc_mapping_df self_flag bdf = Ok mdf /\
                 List.length mdf = S (_n_bins self_flag) /\
                 fit self_flag (ndarray1 x_flag) (ndarray1 y_flag)
                 = Ok (mkFitted self_flag bdf mdf)).
Proof.
  apply (fit_returns_with_calc_bins self_flag x_flag y_flag). reflexivity.
Defined.

Lemma bin_score_nonpos : forall self x,
  0 < _standard_odds self -> x <= 0 ->
  bin_score self x = Raise math_domain_error.
Proof.
  intros self x Hso Hx. unfold bin_score.
  rewrite (Qpos_nonzero _ Hso).
  destruct (Qlt_le_dec 0 (x / _standard_odds self)) as [H|H]; [|reflexivity].
  exfalso. apply (Qlt_irrefl 0). apply Qlt_le_trans with x; [|exact Hx].
  apply (Qmult_lt_compat_r _ _ _ Hso) in H. rewrite Qmult_0_l in H.
  setoid_replace (x / _standard_odds self * _standard_odds self) with x in H
    by (field; intro E; rewrite E in Hso; discriminate).
  exact H.
Qed.

Lemma finish_bins_pos : forall self pls rows,
  0 < _standard_odds self -> (forall r, In r rows -> 0 < snd r) ->
  exists bdf, finish_bins self pls rows = Ok bdf.
Proof.
  intros self pls rows Hso. revert rows.
  induction pls as [|pl pls IH]; intros rows Hpos; [exists []; reflexivity|].
  destruct rows as [|r rows]; [exists []; reflexivity|].
  destruct (IH rows) as [bs Hbs]; [intros c Hc; apply Hpos; right; exact Hc|].
  simpl. unfold finish_bin.
  rewrite (bin_score_defined self (snd r) Hso (Hpos r (or_introl eq_refl))).
  cbn [bind]. rewrite Hbs. cbn [bind]. eauto.
Qed.

Lemma finish_bins_nonpos : forall self pls rows r,
  0 < _standard_odds self -> (List.length rows <= List.length pls)%nat ->
  In r rows -> snd r <= 0 ->
  finish_bins self pls rows = Raise math_domain_error.
Proof.
  intros self pls rows r Hso. revert pls.
  induction rows as [|r0 rows IH]; intros pls Hlen Hin Hr; [destruct Hin|].
  destruct pls as [|pl pls]; [simpl in Hlen; lia|].
  simpl. unfold finish_bin.
  destruct (Qlt_le_dec 0 (snd r0)) as [H0|H0].
  - rewrite (bin_score_defined self (snd r0) Hso H0). cbn [bind].
    destruct Hin as [E|Hin]; [subst r0; exfalso; Lqa.lra|].
    rewrite (IH pls); [reflexivity| simpl in Hlen; lia | exact Hin | exact Hr].
  - rewrite (bin_score_nonpos self (snd r0) Hso H0). reflexivity.
Qed.

Lemma finish_bins_columns : forall self pls rows bdf,
  finish_bins self pls rows = Ok bdf ->
  (List.length rows <= List.length pls)%nat ->
  map counts bdf = map fst rows /\ map adjusted_odds bdf = map snd rows.
Proof.
  intros self. induction pls as [|pl pls IH]; intros rows bdf H Hlen; simpl in H.
  - destruct rows; [|simpl in Hlen; lia]. inversion H. split; reflexivity.
  - destruct rows as [|r rows]; [inversion H; split; reflexivity|].
    apply bind_ok in H. destruct H as [b [Hb H]].
    apply bind_ok in H. destruct H as [bs [Hbs H]]. inversion H; subst bdf.
    unfold finish_bin in Hb. apply bind_ok in Hb. destruct Hb as [sc [_ Hb]].
    inversion Hb; subst b. simpl.
    destruct (IH rows bs Hbs) as [E1 E2]; [simpl in Hlen; lia|].
    rewrite E1, E2. split; reflexivity.
Qed.

Lemma combine_fst : forall (A B : Type) (l : list A) (l' : list B),
  List.length l = List.length l' -> map fst (combine l l') = l.
Proof.
  induction l as [|a l IH]; intros [|b l'] H; simpl in *; try lia; auto.
  f_equal. apply IH. lia.
Qed.

Lemma combine_snd : forall (A B : Type) (l : list A) (l' : list B),
  List.length l = List.length l' -> map snd (combine l l') = l'.
Proof.
  induction l as [|a l IH]; intros [|b l'] H; simpl in *; try lia; auto.
  f_equal. apply IH. lia.
Qed.

Lemma ordered_length : forall self rows,
  List.length (ordered self rows) = List.length rows.
Proof.
  intros self rows. unfold ordered. destruct (_bad_flag self); [apply length_rev|reflexivity].
Qed.

Lemma ordered_in : forall self rows r, In r (ordered self rows) <-> In r rows.
Proof.
  intros self rows r. unfold ordered.
  destruct (_bad_flag self); [symmetry; apply in_rev|reflexivity].
Qed.

Lemma in_combine_cell : forall (df : list binrow) (col : list Q) i,
  List.length df = List.length col -> (i < List.length col)%nat ->
  In (row df i, cell col i) (combine df col).
Proof.
  induction df as [|r df IH]; intros [|c col] i Hl Hi; simpl in *; try lia.
  destruct i as [|i]; [left; reflexivity|].
  right. change (In (row df i, cell col i) (combine df col)). apply IH; lia.
Qed.

Lemma combine_in_cell : forall (df : list binrow) (col : list Q) r,
  In r (combine df col) -> exists i, (i < List.length col)%nat /\ snd r = cell col i.
Proof.
  induction df as [|r0 df IH]; intros [|c col] r H; simpl in *; try contradiction.
  destruct H as [E|H].
  - exists 0%nat. subst r. split; [lia|reflexivity].
  - destruct (IH col r H) as [i [Hi E]]. exists (S i). split; [lia|exact E].
Qed.

(** X9: when [np.arange(0, 1, step)] has one cell per bin and the standard
    odds are positive, [fit] returns a model as soon as every adjusted odds
    of the table is positive, and the final table carries the adjusted
    column, reversed when [bad_flag] is set. *)
Theorem fit_returns_on_positive_odds : forall self xs ys col,
  List.length xs = List.length ys ->
  arange_len self = _n_bins self ->
  0 < _standard_odds self ->
  adjust_odds (_n_bins self) (prebinning self (score_df self xs ys)) = Ok col ->
  (forall i, (i < _n_bins self)%nat -> 0 < cell col i) ->
  exists m,
    fit self (ndarray1 xs) (ndarray1 ys) = Ok m /\
    config m = self /\
    map adjusted_odds (binning_df m) = (if _bad_flag self then rev col else col) /\
    List.length (mapping_df m) = S (_n_bins self).
Proof.
  intros self xs ys col Hlen Hal Hso Hcol Hpos.
  pose proof (adjust_odds_length _ _ _ Hcol) as Hlc.
  pose proof Hlc as Hlc'. rewrite prebinning_length in Hlc'.
  set (df := prebinning self (score_df self xs ys)) in *.
  destruct (finish_bins_pos self (arange_step self) (ordered self (combine df col)) Hso)
    as [bdf Hbdf].
  { intros r Hr. apply ordered_in in Hr.
    destruct (combine_in_cell _ _ _ Hr) as [i [Hi E]]. rewrite E. apply Hpos. lia. }
  assert (Hcb : calc_bins self xs ys = Ok bdf).
  { unfold calc_bins. fold df. rewrite Hcol. cbn [bind].
    rewrite (set_column_arange self Hal). exact Hbdf. }
  destruct (calc_bins_mapping self xs ys bdf Hcb) as [mdf [Hmdf Hl]].
  exists (mkFitted self bdf mdf). simpl. repeat split; auto.
  { rewrite (fit_ndarray1 self xs ys Hlen), Hcb. cbn [bind]. rewrite Hmdf. reflexivity. }
  destruct (finish_bins_columns _ _ _ _ Hbdf) as [_ E].
  { rewrite ordered_length, length_combine, arange_step_length, Hal. lia. }
  rewrite E. unfold ordered. destruct (_bad_flag self).
  - rewrite map_rev, combine_snd by (symmetry; exact Hlc). reflexivity.
  - apply combine_snd. symmetry. exact Hlc.
Qed.

Lemma fit_returns_on_positive_odds_witness :
  exists m,
    fit self_flag (ndarray1 x_flag) (ndarray1 y_flag) = Ok m /\
    config m = self_flag /\
    map adjusted_odds (binning_df m) = rev [1 # 2; 2] /\
    List.length (mapping_df m) = 3%nat.
Proof.
  apply (fit_returns_on_positive_odds self_flag x_flag y_flag [1 # 2; 2]).
  - reflexivity.
  - vm_compute. reflexivity.
  - reflexivity.
  - vm_compute. reflexivity.
  - intros [|[|i]] Hi; try reflexivity. simpl in Hi. lia.
Defined.

(** X10: when [np.arange(0, 1, step)] has one cell per bin and the
    standard odds are positive, one adjusted odds that is zero or negative
    makes [fit] raise the [ValueError] of [math.log2]; no model is stored. *)
Theorem fit_raises_on_nonpositive_odds : forall self xs ys col i,
  List.length xs = List.length ys ->
  arange_len self = _n_bins self ->
  0 < _standard_odds self ->
  adjust_odds (_n_bins self) (prebinning self (score_df self xs ys)) = Ok col ->
  (i < _n_bins self)%nat -> cell col i <= 0 ->
  fit self (ndarray1 xs) (ndarray1 ys) = Raise math_domain_error.
Proof.
  intros self xs ys col i Hlen Hal Hso Hcol Hi Hneg.
  pose proof (adjust_odds_length _ _ _ Hcol) as Hlc.
  pose proof Hlc as Hlc'. rewrite prebinning_length in Hlc'.
  rewrite (fit_ndarray1 self xs ys Hlen). unfold calc_bins. rewrite Hcol. cbn [bind].
  rewrite (set_column_arange self Hal). cbn [bind].
  rewrite (finish_bins_nonpos self _ _
             (row (prebinning self (score_df self xs ys)) i, cell col i) Hso).
  - reflexivity.
  - rewrite ordered_length, length_combine, arange_step_length, Hal. lia.
  - apply ordered_in. apply in_combine_cell; [symmetry; exact Hlc | lia].
  - exact Hneg.
Qed.

Lemma fit_raises_on_nonpositive_odds_witness :
  fit self_three (ndarray1 x_three) (ndarray1 y_three) = Raise math_domain_error.
Proof.
  apply (fit_raises_on_nonpositive_odds self_three x_three y_three [1; 0; 2] 1%nat).
  - reflexivity.
  - vm_compute. reflexivity.
  - reflexivity.
  - vm_compute. reflexivity.
  - simpl. lia.
  - vm_compute. discriminate.
Defined.

(** * The counts of the pre-binning *)

Lemma score_df_label : forall self xs ys s,
  In s (score_df self xs ys) -> In (s_label s) ys.
Proof.
  intros self xs ys s H. unfold score_df in H. apply in_map_iff in H.
  destruct H as [[p l] [E H]]. subst s. simpl. apply (in_combine_r _ _ _ _ H).
Qed.

Lemma binary_sum : forall g : list sample,
  (forall s, In s g -> s_label s = 0%Z \/ s_label s = 1%Z) ->
  (0 <= fold_right Z.add 0%Z (map s_label g) <= Z.of_nat (List.length g))%Z.
Proof.
  induction g as [|s g IH]; intros H; simpl; [lia|].
  destruct (H s (or_introl eq_refl)) as [E|E];
    specialize (IH (fun c Hc => H c (or_intror Hc))); lia.
Qed.

Lemma fdiv_nonneg : forall g d,
  0 <= g -> 0 <= d ->
  match fdiv (Fin g) (Fin d) with Fin q => Qle_bool 0 q | _ => true end = true.
Proof.
  intros g d Hg Hd. unfold fdiv.
  destruct (Qzero d) eqn:Ed; [destruct (Qzero g); reflexivity|].
  apply Qle_bool_iff. apply Qle_shift_div_l.
  - unfold Qzero in Ed. destruct (Qle_lt_or_eq _ _ Hd) as [H|H]; [exact H|].
    symmetry in H. apply Qeq_bool_iff in H. congruence.
  - rewrite Qmult_0_l. exact Hg.
Qed.

Lemma prebin_binary_row : forall self xs ys b,
  binary_labels ys = true ->
  let r := prebin self (score_df self xs ys) b in
  (group (score_df self xs ys) b = [] /\ r = undefined_row) \/
  (exists h g d,
     hits r = Fin h /\ good_hits r = Fin g /\ bad_hits r = Fin d /\
     h == inject_Z (Z.of_nat (List.length (group (score_df self xs ys) b))) /\
     1 <= h /\ 0 <= g /\ 0 <= d /\ g + d == h).
Proof.
  intros self xs ys b Hy. cbv zeta. unfold prebin, group_count, group_sum.
  destruct (group (score_df self xs ys) b) as [|s0 g] eqn:Eg.
  - left. split; [reflexivity|]. destruct (_bad_flag self); reflexivity.
  - right.
    assert (Hbin : forall s, In s (s0 :: g) -> s_label s = 0%Z \/ s_label s = 1%Z).
    { intros s Hs. rewrite <- Eg in Hs. unfold group in Hs.
      apply filter_In in Hs. destruct Hs as [Hs _].
      apply score_df_label in Hs. unfold binary_labels in Hy.
      rewrite forallb_forall in Hy. specialize (Hy _ Hs).
      apply orb_true_iff in Hy. destruct Hy as [E|E]; apply Z.eqb_eq in E; auto. }
    pose proof (binary_sum _ Hbin) as Hsum.
    set (n := Z.of_nat (List.length (s0 :: g))) in *.
    set (k := fold_right Z.add 0%Z (map s_label (s0 :: g))) in *.
    assert (Hn : (1 <= n)%Z) by (unfold n; simpl List.length; lia).
    assert (Hk0 : 0 <= inject_Z k)
      by (change 0 with (inject_Z 0); rewrite <- Zle_Qle; lia).
    assert (Hkn : inject_Z k <= inject_Z n) by (rewrite <- Zle_Qle; lia).
    assert (Hn1 : 1 <= inject_Z n)
      by (change 1 with (inject_Z 1); rewrite <- Zle_Qle; exact Hn).
    destruct (_bad_flag self); simpl.
    + exists (inject_Z n), (inject_Z n - inject_Z k), (inject_Z k).
      repeat split; try reflexivity; try assumption; try Lqa.lra; ring.
    + exists (inject_Z n), (inject_Z k), (inject_Z n - inject_Z k).
      repeat split; try reflexivity; try assumption; try Lqa.lra; ring.
Qed.

(** X11: when every label is 0 or 1, a bin without samples is all-missing,
    and a bin with samples has at least one hit, non-negative good and bad
    hits that add up to its hits, and odds that are not negative; the whole
    pre-binning therefore meets the requirement under which [__adjust_odds]
    yields non-negative odds. *)
Theorem binary_labels_counts : forall self xs ys,
  binary_labels ys = true ->
  forallb odds_nonneg (prebinning self (score_df self xs ys)) = true /\
  forall b,
    let r := prebin self (score_df self xs ys) b in
    (group (score_df self xs ys) b = [] /\ r = undefined_row) \/
    (exists h g d,
       hits r = Fin h /\ good_hits r = Fin g /\ bad_hits r = Fin d /\
       h == inject_Z (Z.of_nat (List.length (group (score_df self xs ys) b))) /\
       1 <= h /\ 0 <= g /\ 0 <= d /\ g + d == h).
Proof.
  intros self xs ys Hy.
  split; [|intros b; apply prebin_binary_row; exact Hy].
  apply forallb_forall. intros r Hr. unfold prebinning in Hr.
  apply in_map_iff in Hr. destruct Hr as [b [E _]]. subst r.
  destruct (prebin_binary_row self xs ys b Hy)
    as [[_ E]|[h [g [d [Hh [Hg [Hd [_ [_ [Hg0 [Hd0 _]]]]]]]]]]].
  - cbv zeta in E. rewrite E. reflexivity.
  - cbv zeta in Hh, Hg, Hd. unfold odds_nonneg.
    assert (Ho : odds (prebin self (score_df self xs ys) b)
                 = fdiv (good_hits (prebin self (score_df self xs ys) b))
                        (bad_hits (prebin self (score_df self xs ys) b)))
      by reflexivity.
    rewrite Ho, Hg, Hd. apply fdiv_nonneg; assumption.
Qed.

Lemma binary_labels_counts_witness :
  forallb odds_nonneg (prebinning self_flag (score_df self_flag x_flag y_flag)) = true /\
  forall b,
    let r := prebin self_flag (score_df self_flag x_flag y_flag) b in
    (group (score_df self_flag x_flag y_flag) b = [] /\ r = undefined_row) \/
    (exists h g d,
       hits r = Fin h /\ good_hits r = Fin g /\ bad_hits r = Fin d /\
       h == inject_Z (Z.of_nat (List.length (group (score_df self_flag x_flag y_flag) b))) /\
       1 <= h /\ 0 <= g /\ 0 <= d /\ g + d == h).
Proof.
  apply (binary_labels_counts self_flag x_flag y_flag). reflexivity.
Defined.

(** * The rows of the final table *)

Lemma nth_error_combine_cell : forall (df : list binrow) (col : list Q) i r,
  nth_error (combine df col) i = Some r -> r = (row df i, cell col i).
Proof.
  induction df as [|r0 df IH]; intros [|c col] i r H; simpl in H;
    try (destruct i; discriminate).
  destruct i as [|i]; simpl in H.
  - inversion H. reflexivity.
  - rewrite (IH col i r H). reflexivity.
Qed.

Lemma row_prebinning : forall self sdf j,
  (j < _n_bins self)%nat -> row (prebinning self sdf) j = prebin self sdf j.
Proof.
  intros self sdf j Hj. unfold row, prebinning.
  rewrite (nth_indep _ undefined_row (prebin self sdf 0%nat))
    by (rewrite length_map, length_seq; exact Hj).
  rewrite (map_nth (prebin self sdf)). rewrite seq_nth by exact Hj. reflexivity.
Qed.

(** the pre-binning row that ends up as row [i] of the final table *)
Lemma ordered_nth : forall self (df : list binrow) (col : list Q) i r,
  List.length df = List.length col ->
  nth_error (ordered self (combine df col)) i = Some r ->
  let j := if _bad_flag self then (List.length col - 1 - i)%nat else i in
  (i < List.length col)%nat /\ r = (row df j, cell col j).
Proof.
  intros self df col i r Hl H. cbv zeta.
  assert (Hi : (i < List.length col)%nat).
  { assert (Hlt : (i < List.length (ordered self (combine df col)))%nat)
      by (apply nth_error_Some; congruence).
    rewrite ordered_length, length_combine in Hlt. lia. }
  split; [exact Hi|]. unfold ordered in H. destruct (_bad_flag self).
  - rewrite nth_error_rev, length_combine in H.
    destruct (Nat.ltb_spec i (Nat.min (List.length df) (List.length col))) as [Hlt|Hge];
      [|discriminate].
    apply nth_error_combine_cell in H. rewrite H.
    replace (Nat.min (List.length df) (List.length col) - S i)%nat
      with (List.length col - 1 - i)%nat by lia.
    reflexivity.
  - apply nth_error_combine_cell. exact H.
Qed.

(** X12: row [i] of the table that [__calc_bins] returns has the edges
    [i * step] and [(i + 1) * step], and holds the counts and the adjusted
    odds of pre-binning row [i], or of row [n_bins - 1 - i] when [bad_flag]
    is set: the reversal of lines 139-142 puts the rows back in the order of
    the original probabilities. *)
Theorem final_table_rows : forall self xs ys bdf i b,
  calc_bins self xs ys = Ok bdf -> nth_error bdf i = Some b ->
  let df := prebinning self (score_df self xs ys) in
  let j := if _bad_flag self then (_n_bins self - 1 - i)%nat else i in
  (i < _n_bins self)%nat /\
  prob_l b == inject_Z (Z.of_nat i) * _step self /\
  prob_r b == inject_Z (Z.of_nat (S i)) * _step self /\
  counts b = prebin self (score_df self xs ys) j /\
  exists col, adjust_odds (_n_bins self) df = Ok col /\ adjusted_odds b = cell col j.
Proof.
  intros self xs ys bdf i b H Hb. cbv zeta.
  apply calc_bins_inv in H. destruct H as [col [Hcol [Hal Hfin]]].
  pose proof (adjust_odds_length _ _ _ Hcol) as Hlc.
  pose proof Hlc as Hlc'. rewrite prebinning_length in Hlc'.
  destruct (finish_bins_nth _ _ _ _ i b Hfin Hb)
    as [pl [r [Hpl [Hr [Hl [Hrr [_ [Hc [Ha _]]]]]]]]].
  destruct (ordered_nth self _ col i r (eq_sym Hlc) Hr) as [Hi Er].
  cbv zeta in Er. rewrite Hlc' in Er, Hi.
  assert (Epl : pl = inject_Z (Z.of_nat i) * _step self).
  { rewrite (arange_step_fits self Hal) in Hpl. rewrite nth_error_map in Hpl.
    destruct (nth_error (seq 0 (_n_bins self)) i) as [k|] eqn:Ek; [|discriminate].
    assert (Hi' : (i < List.length (seq 0 (_n_bins self)))%nat)
      by (rewrite length_seq; exact Hi).
    rewrite (nth_error_nth' _ 0%nat Hi') in Ek.
    rewrite seq_nth in Ek by exact Hi. inversion Ek; subst k.
    simpl in Hpl. inversion Hpl. reflexivity. }
  split; [exact Hi|]. split; [rewrite Hl, Epl; reflexivity|].
  split.
  { rewrite Hrr, Epl, Nat2Z.inj_succ. unfold Z.succ. rewrite inject_Z_plus.
    change (inject_Z 1) with 1. ring. }
  split.
  - rewrite Hc, Er. simpl. apply row_prebinning. destruct (_bad_flag self); lia.
  - exists col. split; [exact Hcol|]. rewrite Ha, Er. reflexivity.
Qed.

Lemma final_table_rows_witness :
  (0 < _n_bins self_flag)%nat /\
  prob_l (mkBin (0 # 2) (2 # 4) (4 # 16) 652 (counted 2 1) 2)
    == inject_Z (Z.of_nat 0) * _step self_flag /\
  prob_r (mkBin (0 # 2) (2 # 4) (4 # 16) 652 (counted 2 1) 2)
    == inject_Z (Z.of_nat 1) * _step self_flag /\
  counts (mkBin (0 # 2) (2 # 4) (4 # 16) 652 (counted 2 1) 2)
    = prebin self_flag (score_df self_flag x_flag y_flag) 1 /\
  exists col,
    adjust_odds 2 (prebinning self_flag (score_df self_flag x_flag y_flag)) = Ok col /\
    2 = cell col 1.
Proof.
  apply (final_table_rows self_flag x_flag y_flag flag_bins 0
           (mkBin (0 # 2) (2 # 4) (4 # 16) 652 (counted 2 1) 2)).
  - exact calc_bins_flag.
  - reflexivity.
Defined.

(** * The values the tail loops store *)

Section TailValues.
Variable trig : nat -> bool.
Variable op : Q -> Q.
Variable step : loop_state -> nat -> loop_state.

Hypothesis step_eq : forall f m col i,
  step (f, m, col) i =
    if trig i || f then (true, op m, set_cell i (op m) col) else (false, m, col).

(** once the flag is up, the [t]-th visited row gets the running value after
    [t + 1] updates *)
Lemma tail_flag_value : forall idx t j m col,
  NoDup idx -> nth_error idx t = Some j -> (j < List.length col)%nat ->
  cell (col_of (fold_left step idx (true, m, col))) j = Nat.iter (S t) op m.
Proof.
  induction idx as [|i idx IH]; intros t j m col Hnd Ht Hj; [destruct t; discriminate|].
  simpl fold_left. rewrite step_eq, orb_true_r.
  inversion Hnd as [|? ? Hni Hnd']; subst.
  destruct t as [|t]; simpl in Ht.
  - inversion Ht; subst i.
    rewrite (tail_other trig op step step_eq idx _ j Hni).
    unfold col_of; simpl. apply cell_set_cell_same. exact Hj.
  - rewrite (IH t j (op m) (set_cell i (op m) col) Hnd' Ht)
      by (rewrite set_cell_length; exact Hj).
    rewrite <- !Nat.iter_succ_r. reflexivity.
Qed.

Lemma tail_value : forall pre k post t j m col,
  (forall x, In x pre -> trig x = false) -> trig k = true ->
  NoDup (k :: post) -> nth_error (k :: post) t = Some j -> (j < List.length col)%nat ->
  cell (col_of (fold_left step (pre ++ k :: post) (false, m, col))) j
  = Nat.iter (S t) op m.
Proof.
  intros pre k post t j m col Hq Hk Hnd Ht Hj.
  rewrite fold_left_app, (tail_quiet trig op step step_eq pre m col Hq).
  assert (E : fold_left step (k :: post) (false, m, col)
              = fold_left step (k :: post) (true, m, col)).
  { simpl. rewrite !step_eq, Hk. reflexivity. }
  rewrite E. apply tail_flag_value; assumption.
Qed.
End TailValues.

Lemma iter_halve : forall t m, Nat.iter t halve m == m / 2 ^ Z.of_nat t.
Proof.
  induction t as [|t IH]; intros m.
  - simpl. field.
  - rewrite Nat2Z.inj_succ. unfold Z.succ.
    rewrite Qpower.Qpower_plus by discriminate.
    simpl Nat.iter. unfold halve at 1. rewrite IH.
    change (2 ^ 1) with 2. field.
    apply Qpower.Qpower_not_0. discriminate.
Qed.

Lemma iter_double : forall t m, Nat.iter t double m == m * 2 ^ Z.of_nat t.
Proof.
  induction t as [|t IH]; intros m.
  - simpl. ring.
  - rewrite Nat2Z.inj_succ. unfold Z.succ.
    rewrite Qpower.Qpower_plus by discriminate.
    simpl Nat.iter. unfold double at 1. rewrite IH.
    change (2 ^ 1) with 2. ring.
Qed.

Lemma range_down_S : forall k, k :: range_down k = rev (seq 0 (S k)).
Proof.
  intros k. unfold range_down. rewrite seq_S, rev_app_distr. reflexivity.
Qed.

Lemma nth_error_range_down : forall k t,
  (t <= k)%nat -> nth_error (k :: range_down k) t = Some (k - t)%nat.
Proof.
  intros k t H. rewrite range_down_S.
  rewrite nth_error_rev, length_seq.
  destruct (Nat.ltb_spec t (S k)) as [_|C]; [|lia].
  rewrite (nth_error_nth' _ 0%nat) by (rewrite length_seq; lia).
  rewrite seq_nth by lia. f_equal; lia.
Qed.

Lemma nth_error_seq_from : forall k len t,
  (t < S len)%nat -> nth_error (k :: seq (S k) len) t = Some (k + t)%nat.
Proof.
  intros k len t H. change (k :: seq (S k) len) with (seq k (S len)).
  rewrite (nth_error_nth' _ 0%nat) by (rewrite length_seq; exact H).
  rewrite seq_nth by exact H. reflexivity.
Qed.

Lemma adjust_odds_inv : forall n df adj,
  adjust_odds n df = Ok adj ->
  exists mx mn,
    py_max (cleaned df) = Ok mx /\
    py_min (map snd (nonzero_rows (cleaned df))) = Ok mn /\
    (min_odds_index (cleaned df) < List.length df)%nat /\
    adj = mid_loop (min_odds_index (cleaned df)) (max_odds_index (cleaned df))
            (high_loop df n (max_odds_index (cleaned df)) mx
               (low_loop df (min_odds_index (cleaned df)) mn (cleaned df))).
Proof.
  intros n df adj H. unfold adjust_odds in H.
  destruct (py_max (cleaned df)) as [mx|] eqn:Emx; [|discriminate]. simpl in H.
  destruct (py_min (map snd (nonzero_rows (cleaned df)))) as [mn|] eqn:Emn;
    [|discriminate].
  simpl in H. inversion H. exists mx, mn. repeat split; auto.
  destruct (nonzero_rows (cleaned df)) as [|[i v] l] eqn:Enz; [discriminate|].
  assert (Hin : In (i, v) (nonzero_rows (cleaned df))) by (rewrite Enz; left; reflexivity).
  apply nonzero_rows_inv in Hin. destruct Hin as [Hi [Hv Hz]]. subst v.
  rewrite <- (cleaned_length df).
  apply (min_odds_index_lt (cleaned df) i Hi Hz).
Qed.

(** X14: below [min_odds_index], the position that [argmin] returns on the
    filtered column, the first row with no good hit (going down) starts the
    halving: from that row [k] down to row 0, row [i] ends with
    [min_odds / 2^(k - i + 1)], as long as the upper loop does not come by
    (i <= max_odds_index). *)
Theorem low_tail_halves : forall n df adj mn k i,
  adjust_odds n df = Ok adj ->
  py_min (map snd (nonzero_rows (cleaned df))) = Ok mn ->
  (k < min_odds_index (cleaned df))%nat ->
  low_trig df k = true ->
  (forall j, (k < j < min_odds_index (cleaned df))%nat -> low_trig df j = false) ->
  (i <= k)%nat -> (i <= max_odds_index (cleaned df))%nat ->
  cell adj i == mn / 2 ^ Z.of_nat (k - i + 1).
Proof.
  intros n df adj mn k i Hadj Hmn Hk Htrig Hquiet Hik HiM.
  destruct (adjust_odds_inv n df adj Hadj) as [mx [mn' [Hmx [Hmn' [HL E]]]]].
  rewrite Hmn in Hmn'. apply Ok_inj in Hmn'. subst mn' adj.
  rewrite mid_loop_other by (rewrite in_range; lia).
  rewrite high_loop_other by exact HiM.
  unfold low_loop. rewrite (range_down_split _ k Hk).
  change (snd ?x) with (col_of x).
  rewrite (tail_value (low_trig df) halve (low_step df) (low_step_eq df)
             _ k (range_down k) (k - i) i).
  - rewrite iter_halve. replace (S (k - i)) with (k - i + 1)%nat by lia. reflexivity.
  - intros x Hx. apply in_rev in Hx. apply in_seq in Hx. apply Hquiet. lia.
  - exact Htrig.
  - rewrite range_down_S. apply NoDup_rev. apply seq_NoDup.
  - rewrite nth_error_range_down by lia. f_equal. lia.
  - rewrite cleaned_length. lia.
Qed.

Lemma low_tail_halves_witness :
  cell [1 # 4; 1 # 2; 2; 3; 1; 6] 0 == 1 / 2 ^ Z.of_nat (1 - 0 + 1).
Proof.
  apply (low_tail_halves 6 low_tail_bins [1 # 4; 1 # 2; 2; 3; 1; 6] 1 1 0).
  - vm_compute. reflexivity.
  - vm_compute. reflexivity.
  - vm_compute. lia.
  - reflexivity.
  - intros j Hj. vm_compute in Hj. lia.
  - lia.
  - vm_compute. lia.
Defined.

(** X15: above the row of the greatest odds, the first row with no bad hit
    starts the doubling: from that row [k] up to the last row, row [i] ends
    with [max_odds * 2^(i - k + 1)], whatever the lower loop wrote there. *)
Theorem high_tail_doubles : forall n df adj mx k i,
  adjust_odds n df = Ok adj ->
  py_max (cleaned df) = Ok mx ->
  (max_odds_index (cleaned df) < k)%nat ->
  high_trig df k = true ->
  (forall j, (max_odds_index (cleaned df) < j < k)%nat -> high_trig df j = false) ->
  (k <= i)%nat -> (i < n)%nat -> (i < List.length df)%nat ->
  cell adj i == mx * 2 ^ Z.of_nat (i - k + 1).
Proof.
  intros n df adj mx k i Hadj Hmx Hk Htrig Hquiet Hki Hin Hil.
  destruct (adjust_odds_inv n df adj Hadj) as [mx' [mn [Hmx' [Hmn [HL E]]]]].
  rewrite Hmx in Hmx'. apply Ok_inj in Hmx'. subst mx' adj.
  rewrite mid_loop_other by (rewrite in_range; lia).
  unfold high_loop. rewrite (range_split _ n k) by lia.
  change (snd ?x) with (col_of x).
  rewrite (tail_value (high_trig df) double (high_step df) (high_step_eq df)
             _ k (seq (S k) (n - S k)) (i - k) i).
  - rewrite iter_double. replace (S (i - k)) with (i - k + 1)%nat by lia. reflexivity.
  - intros x Hx. apply in_seq in Hx. apply Hquiet. lia.
  - exact Htrig.
  - change (k :: seq (S k) (n - S k)) with (seq k (S (n - S k))). apply seq_NoDup.
  - rewrite nth_error_seq_from by lia. f_equal. lia.
  - rewrite low_loop_length, cleaned_length. exact Hil.
Qed.

Lemma high_tail_doubles_witness :
  cell [0; 1 # 4; 1 # 2; 3; 6; 12] 5 == 3 * 2 ^ Z.of_nat (5 - 4 + 1).
Proof.
  apply (high_tail_doubles 6 tail_bins [0; 1 # 4; 1 # 2; 3; 6; 12] 3 4 5).
  - vm_compute. reflexivity.
  - vm_compute. reflexivity.
  - vm_compute. lia.
  - reflexivity.
  - intros j Hj. vm_compute in Hj. lia.
  - lia.
  - lia.
  - simpl. lia.
Defined.

(** * The series [plot_bins] draws *)

Lemma prebin_hits : forall self sdf b,
  prebin self sdf b = undefined_row \/
  exists h, hits (prebin self sdf b) = Fin h /\ 1 <= h.
Proof.
  intros self sdf b. unfold prebin, group_count, group_sum.
  destruct (group sdf b) as [|s0 g].
  - left. destruct (_bad_flag self); reflexivity.
  - right. eexists. split; [reflexivity|].
    change 1 with (inject_Z 1). rewrite <- Zle_Qle. simpl List.length. lia.
Qed.

Lemma calc_bins_counts : forall self xs ys bdf,
  calc_bins self xs ys = Ok bdf ->
  exists col,
    adjust_odds (_n_bins self) (prebinning self (score_df self xs ys)) = Ok col /\
    map counts bdf
    = (if _bad_flag self then rev (prebinning self (score_df self xs ys))
       else prebinning self (score_df self xs ys)).
Proof.
  intros self xs ys bdf H.
  apply calc_bins_inv in H. destruct H as [col [Hcol [Hal Hfin]]].
  pose proof (adjust_odds_length _ _ _ Hcol) as Hlc.
  pose proof Hlc as Hlc'. rewrite prebinning_length in Hlc'.
  exists col. split; [exact Hcol|].
  destruct (finish_bins_columns _ _ _ _ Hfin) as [E _].
  { rewrite ordered_length, length_combine, arange_step_length, Hal. lia. }
  rewrite E. unfold ordered. destruct (_bad_flag self).
  - rewrite map_rev, combine_fst by (symmetry; exact Hlc). reflexivity.
  - apply combine_fst. symmetry. exact Hlc.
Qed.

Lemma calc_bins_row : forall self xs ys bdf b,
  calc_bins self xs ys = Ok bdf -> In b bdf ->
  exists j, counts b = prebin self (score_df self xs ys) j.
Proof.
  intros self xs ys bdf b H Hb.
  destruct (calc_bins_counts self xs ys bdf H) as [col [_ E]].
  assert (Hin : In (counts b) (prebinning self (score_df self xs ys))).
  { apply (in_map counts) in Hb. rewrite E in Hb.
    destruct (_bad_flag self); [apply in_rev in Hb|]; exact Hb. }
  unfold prebinning in Hin. apply in_map_iff in Hin.
  destruct Hin as [j [Ej _]]. exists j. symmetry. exact Ej.
Qed.

Lemma adjust_odds_defined : forall n df adj,
  adjust_odds n df = Ok adj ->
  exists i, (i < List.length df)%nat /\ Qzero (cell (cleaned df) i) = false.
Proof.
  intros n df adj H. unfold adjust_odds in H.
  destruct (py_max (cleaned df)) as [mx|]; [|discriminate]. simpl in H.
  destruct (nonzero_rows (cleaned df)) as [|[i v] l] eqn:Enz; [discriminate|].
  assert (Hin : In (i, v) (nonzero_rows (cleaned df))) by (rewrite Enz; left; reflexivity).
  apply nonzero_rows_inv in Hin. destruct Hin as [Hi [Hv Hz]]. subst v.
  exists i. rewrite <- (cleaned_length df). split; assumption.
Qed.

Lemma column_sum_of_counts : forall l,
  (forall v, In v l -> count_cell v) ->
  0 <= column_sum l /\ forall h, In (Fin h) l -> h <= column_sum l.
Proof.
  induction l as [|v l IH]; intros H; simpl.
  - split; [discriminate|intros h []].
  - destruct IH as [I0 Ih]; [intros c Hc; apply H; right; exact Hc|].
    destruct (H v (or_introl eq_refl)) as [->|[q [-> Hq]]].
    + split; [exact I0|]. intros h [C|Hh]; [discriminate|]. apply Ih. exact Hh.
    + split; [Lqa.lra|]. intros h [C|Hh].
      * inversion C; subst h. Lqa.lra.
      * specialize (Ih h Hh). Lqa.lra.
Qed.

Lemma column_sum_scaled : forall T l,
  ~ T == 0 -> (forall v, In v l -> count_cell v) ->
  column_sum (map (fun v => fdiv v (Fin T)) l) == column_sum l / T.
Proof.
  intros T l HT. assert (Ez : Qzero T = false) by (apply Qzero_false; exact HT).
  induction l as [|v l IH]; intros H; simpl.
  - field. exact HT.
  - specialize (IH (fun c Hc => H c (or_intror Hc))).
    destruct (H v (or_introl eq_refl)) as [->|[q [-> Hq]]]; simpl.
    + exact IH.
    + rewrite Ez, IH. field. exact HT.
Qed.

Lemma rate_in_unit : forall x h,
  0 <= x -> x <= h -> 1 <= h -> rate_cell (fdiv (Fin x) (Fin h)) = true.
Proof.
  intros x h H0 Hx Hh. unfold fdiv.
  assert (Hpos : 0 < h) by Lqa.lra.
  rewrite (Qpos_nonzero _ Hpos). simpl. apply andb_true_iff. split.
  - apply Qle_bool_iff. apply Qle_shift_div_l; [exact Hpos|]. rewrite Qmult_0_l. exact H0.
  - apply Qle_bool_iff. apply Qle_shift_div_r; [exact Hpos|]. rewrite Qmult_1_l. exact Hx.
Qed.

Lemma hits_count_cells : forall self xs ys bdf,
  calc_bins self xs ys = Ok bdf ->
  forall v, In v (map (fun b => hits (counts b)) bdf) -> count_cell v.
Proof.
  intros self xs ys bdf H v Hv. apply in_map_iff in Hv.
  destruct Hv as [b [<- Hb]].
  destruct (calc_bins_row self xs ys bdf b H Hb) as [j ->].
  destruct (prebin_hits self (score_df self xs ys) j) as [->|Hh];
    [left; reflexivity | right; exact Hh].
Qed.

(** a table that [__calc_bins] returned counts at least one sample *)
Lemma calc_bins_total : forall self xs ys bdf,
  calc_bins self xs ys = Ok bdf ->
  1 <= column_sum (map (fun b => hits (counts b)) bdf).
Proof.
  intros self xs ys bdf H.
  destruct (column_sum_of_counts _ (hits_count_cells self xs ys bdf H)) as [_ Hle].
  destruct (calc_bins_counts self xs ys bdf H) as [col [Hcol E]].
  destruct (adjust_odds_defined _ _ _ Hcol) as [i [Hi Hz]].
  set (df := prebinning self (score_df self xs ys)) in *.
  assert (Hrow : In (row df i) (map counts bdf)).
  { rewrite E. assert (Hin : In (row df i) df) by (apply nth_In; exact Hi).
    destruct (_bad_flag self); [apply in_rev; rewrite rev_involutive|]; exact Hin. }
  apply in_map_iff in Hrow. destruct Hrow as [b [Eb Hb]].
  unfold df in Hi. rewrite prebinning_length in Hi.
  assert (Er : row df i = prebin self (score_df self xs ys) i)
    by (apply row_prebinning; exact Hi).
  destruct (prebin_hits self (score_df self xs ys) i) as [Hu|[h [Hh H1]]].
  - exfalso. rewrite cell_cleaned in Hz. fold df in Hz. rewrite Er, Hu in Hz.
    discriminate.
  - apply Qle_trans with h; [exact H1|]. apply Hle.
    apply in_map_iff. exists b. split; [|exact Hb].
    rewrite Eb, Er. exact Hh.
Qed.

(** X16: on a fitted table the hit rates that [plot_bins] draws are shares:
    every bar is missing or lies in [0, 1], and the bars add up to 1. *)
Theorem hit_rate_is_a_share : forall self xs ys bdf,
  calc_bins self xs ys = Ok bdf ->
  column_sum (hit_rate bdf) == 1 /\ forallb rate_cell (hit_rate bdf) = true.
Proof.
  intros self xs ys bdf H.
  pose proof (hits_count_cells self xs ys bdf H) as Hcells.
  pose proof (calc_bins_total self xs ys bdf H) as HT.
  destruct (column_sum_of_counts _ Hcells) as [_ Hle].
  unfold hit_rate. cbv zeta.
  set (T := column_sum (map (fun b => hits (counts b)) bdf)) in *.
  assert (HT0 : ~ T == 0) by (intro E; rewrite E in HT; apply HT; reflexivity).
  rewrite <- (map_map (fun b => hits (counts b)) (fun v => fdiv v (Fin T))).
  split.
  - rewrite (column_sum_scaled T _ HT0 Hcells). fold T. field. exact HT0.
  - apply forallb_forall. intros v Hv. apply in_map_iff in Hv.
    destruct Hv as [c [<- Hc]].
    destruct (Hcells c Hc) as [->|[h [-> Hh]]]; [reflexivity|].
    apply rate_in_unit; [Lqa.lra | apply Hle; exact Hc | exact HT].
Qed.

Lemma hit_rate_is_a_share_witness :
  column_sum (hit_rate flag_bins) == 1 /\ forallb rate_cell (hit_rate flag_bins) = true.
Proof.
  apply (hit_rate_is_a_share self_flag x_flag y_flag flag_bins).
  exact calc_bins_flag.
Defined.

(** X17: when every label is 0 or 1, the rates of label 1 that [plot_bins]
    draws fit its axis: every bar is missing (a bin without samples) or lies
    in [0, 1]. *)
Theorem pos_rate_fits_axis : forall self xs ys bdf,
  calc_bins self xs ys = Ok bdf -> binary_labels ys = true ->
  forallb rate_cell (pos_rate self bdf) = true.
Proof.
  intros self xs ys bdf H Hy. unfold pos_rate.
  apply forallb_forall. intros v Hv. apply in_map_iff in Hv.
  destruct Hv as [b [<- Hb]].
  destruct (calc_bins_row self xs ys bdf b H Hb) as [j ->].
  destruct (prebin_binary_row self xs ys j Hy)
    as [[_ E]|[h [g [d [Hh [Hg [Hd [_ [H1 [Hg0 [Hd0 Hsum]]]]]]]]]]]; cbv zeta in *.
  - rewrite E. destruct (_bad_flag self); reflexivity.
  - rewrite Hh, Hg, Hd. destruct (_bad_flag self); apply rate_in_unit;
      try assumption; Lqa.lra.
Qed.

Lemma pos_rate_fits_axis_witness :
  forallb rate_cell (pos_rate self_flag flag_bins) = true.
Proof.
  apply (pos_rate_fits_axis self_flag x_flag y_flag flag_bins).
  - exact calc_bins_flag.
  - reflexivity.
Defined.

(** * The exceptions of [fit] *)

Lemma bin_score_error : forall self x e,
  bin_score self x = Raise e ->
  (e = ZeroDivisionError /\ _standard_odds self == 0) \/
  (e = math_domain_error /\ ~ _standard_odds self == 0 /\ x / _standard_odds self <= 0).
Proof.
  intros self x e H. unfold bin_score in H.
  destruct (Qzero (_standard_odds self)) eqn:Ez.
  - left. inversion H. split; [reflexivity|]. apply Qzero_true. exact Ez.
  - destruct (Qlt_le_dec 0 (x / _standard_odds self)) as [Hp|Hp]; [discriminate|].
    right. inversion H. repeat split; [apply Qzero_false; exact Ez | exact Hp].
Qed.

Lemma finish_bins_error : forall self pls rows e,
  finish_bins self pls rows = Raise e ->
  exists r, In r rows /\ bin_score self (snd r) = Raise e.
Proof.
  intros self. induction pls as [|pl pls IH]; intros rows e H; simpl in H; [discriminate|].
  destruct rows as [|r rows]; [discriminate|].
  unfold finish_bin in H.
  destruct (bin_score self (snd r)) as [sc|e0] eqn:Es; cbn [bind] in H.
  - destruct (finish_bins self pls rows) as [bs|e1] eqn:Ef; cbn [bind] in H; [discriminate|].
    inversion H; subst e1. destruct (IH rows e Ef) as [r' [Hin Hr']].
    exists r'. split; [right; exact Hin|exact Hr'].
  - inversion H; subst e0. exists r. split; [left; reflexivity|exact Es].
Qed.

Lemma nonzero_rows_empty : forall df,
  nonzero_rows (cleaned df) = [] -> all_degenerate df = true.
Proof.
  intros df H. unfold all_degenerate. apply forallb_forall. intros r Hr.
  apply In_nth_error in Hr. destruct Hr as [i Hi].
  assert (Hlt : (i < List.length df)%nat) by (apply nth_error_Some; congruence).
  assert (Er : row df i = r).
  { unfold row. apply nth_error_nth with (d := undefined_row) in Hi. exact Hi. }
  rewrite <- Er, <- cell_cleaned.
  destruct (Qzero (cell (cleaned df) i)) eqn:Ez; [reflexivity|].
  exfalso.
  assert (Hin : In (i, cell (cleaned df) i) (nonzero_rows (cleaned df))).
  { apply nonzero_rows_in; [rewrite cleaned_length; exact Hlt | exact Ez]. }
  rewrite H in Hin. destruct Hin.
Qed.

Lemma adjust_odds_error : forall n df e,
  adjust_odds n df = Raise e ->
  (e = max_empty_error /\ df = []) \/
  (e = min_empty_error /\ df <> [] /\ all_degenerate df = true).
Proof.
  intros n df e H. unfold adjust_odds in H.
  destruct df as [|r df]; [left; inversion H; split; reflexivity|].
  right. change (py_max (cleaned (r :: df))) with
    (Ok (A := Q) (fold_left (fun m y => if Qlt_le_dec m y then y else m)
                    (cleaned df) (clean_odds (odds r)))) in H.
  cbn [bind] in H.
  destruct (nonzero_rows (cleaned (r :: df))) as [|p l] eqn:Enz.
  - inversion H. repeat split; [discriminate|]. apply nonzero_rows_empty. exact Enz.
  - discriminate.
Qed.

(** X18: the exceptions that [fit] lets through on two one-dimensional
    arrays, in the order of the code: the row-size [ValueError] when the
    lengths differ; the [ValueError] of [min] when every bin has zero or
    undefined odds; once [__adjust_odds] has returned, the [ValueError] of
    the column assignment when [np.arange] has one cell too many; and then
    [ZeroDivisionError] when the standard odds are zero, or the [ValueError]
    of [math.log2] when an adjusted odds over the standard odds is not
    positive.  Nothing else is raised, and [__calc_mapping_df] raises
    nothing. *)
Theorem fit_exceptions : forall self xs ys e,
  (0 < _n_bins self)%nat ->
  fit self (ndarray1 xs) (ndarray1 ys) = Raise e ->
  let df := prebinning self (score_df self xs ys) in
  (e = row_size_error (List.length xs) (List.length ys) /\
   List.length xs <> List.length ys) \/
  (List.length xs = List.length ys /\
   ((e = min_empty_error /\ all_degenerate df = true) \/
    (exists col,
       adjust_odds (_n_bins self) df = Ok col /\
       ((e = length_error (arange_len self) (_n_bins self) /\
         arange_len self <> _n_bins self) \/
        (arange_len self = _n_bins self /\
         ((e = ZeroDivisionError /\ _standard_odds self == 0) \/
          (e = math_domain_error /\
           exists i, (i < _n_bins self)%nat /\
                     cell col i / _standard_odds self <= 0))))))).
Proof.
  intros self xs ys e Hn H. cbv zeta.
  destruct (Nat.eq_dec (List.length xs) (List.length ys)) as [Hlen|Hlen].
  - right. split; [exact Hlen|].
    rewrite (fit_ndarray1 self xs ys Hlen) in H.
    destruct (calc_bins self xs ys) as [bdf|e0] eqn:Ecb.
    { exfalso. destruct (calc_bins_mapping self xs ys bdf Ecb) as [mdf [Hmdf _]].
      cbn [bind] in H. rewrite Hmdf in H. discriminate. }
    cbn [bind] in H. inversion H; subst e0. clear H.
    unfold calc_bins in Ecb.
    destruct (adjust_odds (_n_bins self) (prebinning self (score_df self xs ys)))
      as [col|e1] eqn:Eadj; cbn [bind] in Ecb.
    + right. exists col. split; [reflexivity|].
      unfold set_column in Ecb. rewrite arange_step_length in Ecb.
      destruct (Nat.eqb_spec (arange_len self) (_n_bins self)) as [Hal|Hal];
        cbn [bind] in Ecb.
      * right. split; [exact Hal|].
        destruct (finish_bins_error _ _ _ _ Ecb) as [r [Hr Hs]].
        apply ordered_in in Hr. destruct (combine_in_cell _ _ _ Hr) as [i [Hi Ei]].
        pose proof (adjust_odds_length _ _ _ Eadj) as Hlc.
        rewrite prebinning_length in Hlc.
        destruct (bin_score_error _ _ _ Hs) as [[-> Hz]|[-> [_ Hle]]].
        -- left. split; [reflexivity|exact Hz].
        -- right. split; [reflexivity|].
           exists i. split; [lia|]. rewrite <- Ei. exact Hle.
      * left. inversion Ecb. split; [reflexivity|exact Hal].
    + inversion Ecb; subst e1.
      destruct (adjust_odds_error _ _ _ Eadj) as [[-> Hd]|[-> [Hne Hd]]].
      * exfalso. pose proof (prebinning_length self (score_df self xs ys)) as Hl.
        rewrite Hd in Hl. simpl in Hl. lia.
      * left. split; [reflexivity|exact Hd].
  - left. split; [|exact Hlen].
    unfold fit in H. rewrite (check_inputs_row_size _ _ xs ys Hlen) in H.
    inversion H. reflexivity.
Qed.

Lemma fit_exceptions_witness :
  let df := prebinning self_49 (score_df self_49 x_49 y_49) in
  (length_error 50 49 = row_size_error (List.length x_49) (List.length y_49) /\
   List.length x_49 <> List.length y_49) \/
  (List.length x_49 = List.length y_49 /\
   ((length_error 50 49 = min_empty_error /\ all_degenerate df = true) \/
    (exists col,
       adjust_odds (_n_bins self_49) df = Ok col /\
       ((length_error 50 49 = length_error (arange_len self_49) (_n_bins self_49) /\
         arange_len self_49 <> _n_bins self_49) \/
        (arange_len self_49 = _n_bins self_49 /\
         ((length_error 50 49 = ZeroDivisionError /\ _standard_odds self_49 == 0) \/
          (length_error 50 49 = math_domain_error /\
           exists i, (i < _n_bins self_49)%nat /\
                     cell col i / _standard_odds self_49 <= 0))))))).
Proof.
  apply (fit_exceptions self_49 x_49 y_49 (length_error 50 49)).
  - simpl. lia.
  - vm_compute. reflexivity.
Defined.

(** X19: once [__adjust_odds] has returned, a number of bins for which
    [np.arange(0, 1, step)] has one cell too many (49, 98, 103, ...) makes
    [fit] raise the [ValueError] of the column assignment of line 135,
    whatever the samples are: no table can be fitted with such [n_bins]. *)
Theorem fit_raises_on_long_arange : forall self xs ys col,
  List.length xs = List.length ys ->
  adjust_odds (_n_bins self) (prebinning self (score_df self xs ys)) = Ok col ->
  arange_len self <> _n_bins self ->
  calc_bins self xs ys = Raise (length_error (arange_len self) (_n_bins self)) /\
  fit self (ndarray1 xs) (ndarray1 ys)
  = Raise (length_error (arange_len self) (_n_bins self)).
Proof.
  intros self xs ys col Hlen Hcol Hal.
  assert (H : calc_bins self xs ys
              = Raise (length_error (arange_len self) (_n_bins self))).
  { unfold calc_bins. rewrite Hcol. cbn [bind]. unfold set_column.
    rewrite arange_step_length.
    destruct (Nat.eqb_spec (arange_len self) (_n_bins self)) as [E|E];
      [contradiction|reflexivity]. }
  split; [exact H|].
  rewrite (fit_ndarray1 self xs ys Hlen), H. reflexivity.
Qed.

Lemma fit_raises_on_long_arange_witness :
  calc_bins self_49 x_49 y_49
    = Raise (length_error (arange_len self_49) (_n_bins self_49)) /\
  fit self_49 (ndarray1 x_49) (ndarray1 y_49)
  = Raise (length_error (arange_len self_49) (_n_bins self_49)).
Proof.
  apply (fit_raises_on_long_arange self_49 x_49 y_49
           (map (fun i => if (i =? 24)%nat then 1 else 0) (seq 0 49))).
  - reflexivity.
  - vm_compute. reflexivity.
  - vm_compute. discriminate.
Defined.
